(** * A shallow embedding of [src/lib/editor/diff.ts]

    The structural diff of two rich-text documents: node equality, the
    best-run matcher, the recursive tree patcher, the sentence-level text
    diff and the diff annotator.

    Conventions of the embedding.
    - A JavaScript string is a [string]; each [ascii] stands for one code
      unit below 256.  The synthetic one-character codes of
      [sentencesToChars] are numbers in [N] and a string of such codes is a
      [list N]; [String.fromCharCode] wraps modulo 65536.
    - An array index or a length is a [nat].  [findMatchNode]'s [-1] is
      [None].
    - A thrown [Error] is [Throw msg], a return value is [Ret v].  The
      recursion between [patchDocumentNode] and [patchRemainNodes] is driven
      by a [fuel] counter; [Fuel] is the answer of an exhausted counter and
      is shown unreachable once the counter exceeds the height of the old
      tree.
    - Attribute values are scalars (spec, section 3), so [!==] on two of
      them is decidable equality and [JSON.stringify] of an attribute
      object is injective on the ordered list of its entries.  The scalars
      are those of a document in its JSON form: numbers, strings, booleans
      and [null].  NaN, which JSON does not hold and which [!==] separates
      from itself, is outside the model. *)

From Stdlib Require Import String Ascii List Bool Arith NArith ZArith Lia Sorted.
Import ListNotations.

Local Open Scope list_scope.

(* ------------------------------------------------------------------ *)
(** ** Results of a call *)

Inductive outcome (A : Type) : Type :=
| Ret (a : A)
| Throw (msg : string)
| Fuel.

Arguments Ret {A} a.
Arguments Throw {A} msg.
Arguments Fuel {A}.

Definition bind {A B : Type} (m : outcome A) (k : A -> outcome B) : outcome B :=
  match m with
  | Ret a => k a
  | Throw msg => Throw msg
  | Fuel => Fuel
  end.

Notation "x <- m ;; k" := (bind m (fun x => k))
  (at level 61, m at next level, right associativity).

(** [array.map(f)] for a callback that may throw. *)
Definition mapM {A B : Type} (f : A -> outcome B) : list A -> outcome (list B) :=
  fix go (l : list A) : outcome (list B) :=
    match l with
    | [] => Ret []
    | a :: r => b <- f a ;; bs <- go r ;; Ret (b :: bs)
    end.

(* ------------------------------------------------------------------ *)
(** ** Data model *)

(** [DiffType = { Unchanged: 0, Deleted: -1, Inserted: 1 }]. *)
Inductive DiffTypeValue : Type := Unchanged | Deleted | Inserted.

Definition DiffType_code (t : DiffTypeValue) : Z :=
  match t with
  | Unchanged => 0
  | Deleted => -1
  | Inserted => 1
  end%Z.

Definition DiffTypeValue_eqb (a b : DiffTypeValue) : bool :=
  match a, b with
  | Unchanged, Unchanged | Deleted, Deleted | Inserted, Inserted => true
  | _, _ => false
  end.

(** A scalar attribute value, as a document in its JSON form holds it. *)
Inductive AttrValue : Type :=
| ANum (z : Z)
| AStr (s : string)
| ABool (b : bool)
| ANull.

Definition AttrValue_eqb (a b : AttrValue) : bool :=
  match a, b with
  | ANum x, ANum y => Z.eqb x y
  | AStr x, AStr y => String.eqb x y
  | ABool x, ABool y => Bool.eqb x y
  | ANull, ANull => true
  | _, _ => false
  end.

(** [Record<string, unknown>]: the own properties in insertion order. *)
Definition Attrs : Type := list (string * AttrValue).

Definition Attr_eqb (a b : string * AttrValue) : bool :=
  String.eqb (fst a) (fst b) && AttrValue_eqb (snd a) (snd b).

(** [attrs[attr]]; [None] is [undefined]. *)
Fixpoint attr_get (attrs : Attrs) (attr : string) : option AttrValue :=
  match attrs with
  | [] => None
  | (k, v) :: r => if String.eqb k attr then Some v else attr_get r attr
  end.

(** [a !== b] negated, on two possibly [undefined] scalars. *)
Definition strict_eqb (a b : option AttrValue) : bool :=
  match a, b with
  | None, None => true
  | Some x, Some y => AttrValue_eqb x y
  | _, _ => false
  end.

Record Mark : Type := mkMark {
  mark_type : string;
  mark_attrs : Attrs
}.

(** A document tree node.  [node_type] is [node.type.name]; a schema has
    one node type per name, so it also stands for [node.type]. *)
#[local] Unset Elimination Schemes.
Inductive Node : Type :=
| mkNode (type : string) (attrs : Attrs) (marks : list Mark)
         (content : list Node) (text : option string).
#[local] Set Elimination Schemes.

Definition node_type (n : Node) : string :=
  match n with mkNode t _ _ _ _ => t end.
Definition node_attrs (n : Node) : Attrs :=
  match n with mkNode _ a _ _ _ => a end.
Definition node_marks (n : Node) : list Mark :=
  match n with mkNode _ _ m _ _ => m end.
Definition node_content (n : Node) : list Node :=
  match n with mkNode _ _ _ c _ => c end.
Definition node_text (n : Node) : option string :=
  match n with mkNode _ _ _ _ x => x end.

(** Induction on document trees: the property holds for a node when it
    holds for its children. *)
Section NodeInduction.
Variable P : Node -> Prop.
Hypothesis step : forall type attrs marks content text,
    Forall P content -> P (mkNode type attrs marks content text).

Fixpoint Node_ind (n : Node) : P n :=
  match n with
  | mkNode type attrs marks content text =>
      step type attrs marks content text
           ((fix children (l : list Node) : Forall P l :=
               match l with
               | [] => Forall_nil P
               | c :: r => Forall_cons c (Node_ind c) (children r)
               end) content)
  end.
End NodeInduction.

(** [ProsemirrorNodeLike = ProsemirrorNode | ProsemirrorNode[]]. *)
Inductive ProsemirrorNodeLike : Type :=
| Single (n : Node)
| Group (ns : list Node).

Definition NormalizedNodeContent : Type := list ProsemirrorNodeLike.

Record MatchResult : Type := mkMatch {
  oldStartIndex : nat;
  newStartIndex : nat;
  oldEndIndex : nat;
  newEndIndex : nat;
  count : nat
}.

(** Height of a tree, the measure of the patcher's recursion. *)
Fixpoint height (n : Node) : nat :=
  match n with
  | mkNode _ _ _ c _ => S (fold_right (fun ch acc => Nat.max (height ch) acc) 0 c)
  end.

(** The invariant of section 3 of the spec: a text leaf has a text and no
    children, any other node has children and no text.  The text type of a
    schema declares no attributes, so a text leaf has none. *)
Fixpoint well_formed (n : Node) : bool :=
  match n with
  | mkNode t a _ c x =>
      if String.eqb t "text"
      then match a, c, x with [], [], Some _ => true | _, _, _ => false end
      else match x with
           | None => forallb well_formed c
           | Some _ => false
           end
  end.

(* ------------------------------------------------------------------ *)
(** ** Accessors *)

Definition getNodeAttributes (node : Node) : Attrs := node_attrs node.
Definition getNodeMarks (node : Node) : list Mark := node_marks node.
Definition getNodeChildren (node : Node) : list Node := node_content node.

(** [node.text ?? ''] *)
Definition getNodeText (node : Node) : string :=
  match node_text node with
  | Some s => s
  | None => ""
  end.

Definition isTextNode (node : ProsemirrorNodeLike) : bool :=
  match node with
  | Group _ => false
  | Single n => String.eqb (node_type n) "text"
  end.

Definition ensureArray (value : ProsemirrorNodeLike) : list Node :=
  match value with
  | Group ns => ns
  | Single n => [n]
  end.

Definition matchNodeType (node1 node2 : ProsemirrorNodeLike) : bool :=
  match node1, node2 with
  | Group _, Group _ => true
  | Group _, Single _ | Single _, Group _ => false
  | Single a, Single b => String.eqb (node_type a) (node_type b)
  end.

(** The stub: it warns on the console and returns [0]. *)
Definition computeChildEqualityFactor (_node1 _node2 : ProsemirrorNodeLike) : Z := 0%Z.

(** [.flat()] of a list of normalized units. *)
Definition flat (l : NormalizedNodeContent) : list Node :=
  List.concat (map ensureArray l).

(** [array.slice(a, b)] for non-negative [a] and [b]. *)
Definition slice {A : Type} (a b : nat) (l : list A) : list A :=
  firstn (b - a) (skipn a l).

(* ------------------------------------------------------------------ *)
(** ** Structural equality *)

(** [a.length === b.length && a.every((x, i) => f(x, b[i]))] *)
Definition every2 {A : Type} (f : A -> A -> bool) : list A -> list A -> bool :=
  fix go (l1 l2 : list A) : bool :=
    match l1, l2 with
    | [], [] => true
    | x :: r1, y :: r2 => f x y && go r1 r2
    | _, _ => false
    end.

(** The [Mark] branch of [isNodeEqual]: same type name and the same
    [JSON.stringify] of the attributes. *)
Definition isMarkEqual (m1 m2 : Mark) : bool :=
  String.eqb (mark_type m1) (mark_type m2)
  && every2 Attr_eqb (mark_attrs m1) (mark_attrs m2).

(** The loop over the union of the attribute keys of both nodes. *)
Definition attrs_agree (attrs1 attrs2 : Attrs) : bool :=
  forallb (fun attr => strict_eqb (attr_get attrs1 attr) (attr_get attrs2 attr))
          (map fst attrs1 ++ map fst attrs2).

(** The single-node branch of [isNodeEqual]. *)
Fixpoint isPNodeEqual (pnode1 pnode2 : Node) : bool :=
  match pnode1, pnode2 with
  | mkNode type1 attrs1 marks1 children1 text1,
    mkNode type2 attrs2 marks2 children2 text2 =>
      if negb (String.eqb type1 type2) then false
      else if String.eqb type1 "text"
              && negb (String.eqb (getNodeText pnode1) (getNodeText pnode2))
      then false
      else if negb (attrs_agree attrs1 attrs2) then false
      else if negb (every2 isMarkEqual marks1 marks2) then false
      else every2 isPNodeEqual children1 children2
  end.

Definition isNodeEqual (node1 node2 : ProsemirrorNodeLike) : bool :=
  match node1, node2 with
  | Group a, Group b => every2 isPNodeEqual a b
  | Single a, Single b => isPNodeEqual a b
  | _, _ => false
  end.

(* ------------------------------------------------------------------ *)
(** ** Normalisation of a children list *)

(** [normalizeNodeContent] scans the children from the front; at a text
    leaf it collects the maximal run of text leaves that starts there
    ([take_text_run], the inner loop) and pushes it as one group, at any
    other child it pushes the child.  [normalize_list] is that scan written
    by recursion on the children; [normalize_list_run] below states that it
    pushes exactly the runs of the inner loop. *)
Fixpoint take_text_run (content : list Node) : list Node * list Node :=
  match content with
  | [] => ([], [])
  | textNode :: r =>
      if isTextNode (Single textNode)
      then let (textNodes, rest) := take_text_run r in (textNode :: textNodes, rest)
      else ([], content)
  end.

Fixpoint normalize_list (content : list Node) : NormalizedNodeContent :=
  match content with
  | [] => []
  | child :: r =>
      if isTextNode (Single child)
      then match r with
           | next :: _ =>
               if isTextNode (Single next)
               then match normalize_list r with
                    | Group textNodes :: res => Group (child :: textNodes) :: res
                    | res => Group [child] :: res
                    end
               else Group [child] :: normalize_list r
           | [] => [Group [child]]
           end
      else Single child :: normalize_list r
  end.

Definition normalizeNodeContent (node : Node) : NormalizedNodeContent :=
  normalize_list (getNodeChildren node).

(** [children[i]] for an index within the bounds; every use below sits
    under a loop guard that keeps the index within the bounds. *)
Definition unit_at (children : NormalizedNodeContent) (i : nat) : ProsemirrorNodeLike :=
  nth i children (Group []).

(* ------------------------------------------------------------------ *)
(** ** The best-run matcher *)

(** [findMatchNode(children, node, startIndex)]: [i] counts from
    [startIndex], [children] is what remains from index [i] on. *)
Fixpoint findMatchNode_from (children : NormalizedNodeContent)
         (node : ProsemirrorNodeLike) (i : nat) : option nat :=
  match children with
  | [] => None
  | c :: r => if isNodeEqual c node then Some i else findMatchNode_from r node (S i)
  end.

Definition findMatchNode (children : NormalizedNodeContent)
           (node : ProsemirrorNodeLike) : option nat :=
  findMatchNode_from children node 0.

Section MatchNodes.
Variables oldChildren newChildren : NormalizedNodeContent.

(** The inner [for] of [matchNodes]; [budget] bounds its iterations. *)
Fixpoint extend_run (budget oldEndIndex newEndIndex : nat) : nat * nat :=
  match budget with
  | 0 => (oldEndIndex, newEndIndex)
  | S b =>
      if (oldEndIndex <? length oldChildren) && (newEndIndex <? length newChildren)
      then
        let oldEndNode := unit_at oldChildren oldEndIndex in
        if negb (isNodeEqual (unit_at newChildren newEndIndex) oldEndNode)
        then (oldEndIndex, newEndIndex)
        else extend_run b (S oldEndIndex) (S newEndIndex)
      else (oldEndIndex, newEndIndex)
  end.

(** One iteration of the outer [for]: what is pushed for this
    [oldStartIndex], if anything. *)
Definition match_at (oldStartIndex : nat) : option MatchResult :=
  let oldStartNode := unit_at oldChildren oldStartIndex in
  match findMatchNode newChildren oldStartNode with
  | Some newStartIndex =>
      let '(oldEndIndex, newEndIndex) :=
        extend_run (length oldChildren) (S oldStartIndex) (S newStartIndex) in
      Some (mkMatch oldStartIndex newStartIndex oldEndIndex newEndIndex
                    (newEndIndex - newStartIndex))
  | None => None
  end.

(** The outer [for], from [oldStartIndex] on, for [budget] iterations. *)
Fixpoint matchNodes_from (budget oldStartIndex : nat) : list MatchResult :=
  match budget with
  | 0 => []
  | S b =>
      if oldStartIndex <? length oldChildren
      then match match_at oldStartIndex with
           | Some m => m :: matchNodes_from b (S oldStartIndex)
           | None => matchNodes_from b (S oldStartIndex)
           end
      else []
  end.

Definition matchNodes : list MatchResult :=
  matchNodes_from (length oldChildren) 0.
End MatchNodes.

(** [.sort((a, b) => b.count - a.count)]: [Array.prototype.sort] is stable,
    so this is the stable sort by decreasing [count], here by insertion. *)
Fixpoint insert_by_count (m : MatchResult) (l : list MatchResult) : list MatchResult :=
  match l with
  | [] => [m]
  | y :: r => if count m <? count y then y :: insert_by_count m r else m :: l
  end.

Definition sort_by_count (l : list MatchResult) : list MatchResult :=
  fold_right insert_by_count [] l.

(** [matchedNodes[0]] of [patchDocumentNode]. *)
Definition bestMatch (oldChildren newChildren : NormalizedNodeContent) : option MatchResult :=
  hd_error (sort_by_count (matchNodes oldChildren newChildren)).

(* ------------------------------------------------------------------ *)
(** ** The document-model library *)

(** Modelled from the spec: the document-model library is an external
    collaborator (sections 1 and 6), used only to read a node's type,
    attributes, marks and children and to "construct a node of given
    type/attrs/children/marks".  [schema.mark(name, attrs)] builds the mark. *)
Definition schema_mark (name : string) (attrs : Attrs) : Mark := mkMark name attrs.

(** Modelled from the spec: [schema.text(content, marks)] builds the text
    leaf with that text and those marks, without attributes or children. *)
Definition schema_text (content : string) (marks : list Mark) : Node :=
  mkNode "text" [] marks [] (Some content).

(** Modelled from the spec: [type.create(attrs, Fragment.fromArray(children),
    marks)] builds the node of that type with those attributes, children
    and marks; it has no text of its own.  A text leaf has a text instead
    of children (section 3) and is built by [schema.text] alone: on the
    text type the library throws. *)
Definition type_create (type : string) (attrs : Attrs) (children : list Node)
           (marks : list Mark) : outcome Node :=
  if String.eqb type "text"
  then Throw "NodeType.create can't construct text nodes"
  else Ret (mkNode type attrs marks children None).

(** Modelled from the spec: [node.copy(content)] is the node with its
    children replaced; a text leaf, whose children are empty before and
    after, is returned as it is. *)
Definition node_copy (node : Node) (content : list Node) : Node :=
  match node with
  | mkNode t a m _ x => mkNode t a m content x
  end.

(* ------------------------------------------------------------------ *)
(** ** The diff annotator *)

Definition createDiffMark (type : DiffTypeValue) : outcome Mark :=
  match type with
  | Inserted => Ret (schema_mark "diffMark" [("type"%string, ANum (DiffType_code type))])
  | Deleted => Ret (schema_mark "diffMark" [("type"%string, ANum (DiffType_code type))])
  | Unchanged => Throw "type is not valid"
  end.

Definition createTextNode (content : string) (marks : list Mark) : Node :=
  schema_text content marks.

(** [mapper(copy) || copy]: the mapper answers a node or [null]. *)
Fixpoint mapDocumentNode (mapper : Node -> outcome (option Node)) (node : Node)
  : outcome Node :=
  match node with
  | mkNode _ _ _ content _ =>
      children <- mapM (fun currentNode => mapDocumentNode mapper currentNode) content ;;
      let copy := node_copy node children in
      mapped <- mapper copy ;;
      Ret (match mapped with Some n => n | None => copy end)
  end.

Definition createDiffNode (node : Node) (type : DiffTypeValue) : outcome Node :=
  mapDocumentNode
    (fun currentNode =>
       if isTextNode (Single currentNode)
       then m <- createDiffMark type ;;
            Ret (Some (createTextNode (getNodeText currentNode)
                                      (node_marks currentNode ++ [m])))
       else Ret (Some currentNode))
    node.

Definition createNewNode (oldNode : Node) (children : list Node) : outcome Node :=
  type_create (node_type oldNode) (node_attrs oldNode) children (node_marks oldNode).

Definition assertNodeTypeEqual (node1 node2 : Node) : outcome unit :=
  if negb (String.eqb (node_type node1) (node_type node2))
  then Throw ("node type not equal: " ++ node_type node1 ++ " !== " ++ node_type node2)
  else Ret tt.

(* ------------------------------------------------------------------ *)
(** ** The text diff engine *)

(** The class [[.!?]] of the tokenizer's regular expression. *)
Definition isStop (c : ascii) : bool :=
  match c with
  | "."%char | "!"%char | "?"%char => true
  | _ => false
  end.

(** The class [\s], on code units below 256: tab, line feed, vertical tab,
    form feed, carriage return, space and no-break space. *)
Definition isSpace (c : ascii) : bool :=
  let n := nat_of_ascii c in
  (9 <=? n) && (n <=? 13) || (n =? 32) || (n =? 160).

(** Where the scan of [text.match(/[^.!?]+[.!?]*\s*/g)] stands: looking for
    the start of a match, inside [[^.!?]+], inside [[.!?]*], inside [\s*]. *)
Inductive TokenPhase : Type := Seek | Body | Stops | Blanks.

Definition push_char (s : string) (c : ascii) : string :=
  (s ++ String c EmptyString)%string.

(** The matches of [/[^.!?]+[.!?]*\s*/g] from left to right.  Every
    quantifier is greedy and the last two may match nothing, so the match
    that starts at a character outside [[.!?]] is the longest run outside
    the class, then the longest run inside it, then the longest run of
    white space; a character of [[.!?]] at which no match starts is
    skipped.  [cur] is the match under construction. *)
Fixpoint tokenize_scan (phase : TokenPhase) (cur : string) (text : string) : list string :=
  match text with
  | EmptyString =>
      match phase with
      | Seek => []
      | _ => [cur]
      end
  | String c r =>
      match phase with
      | Seek =>
          if isStop c then tokenize_scan Seek EmptyString r
          else tokenize_scan Body (String c EmptyString) r
      | Body =>
          if isStop c then tokenize_scan Stops (push_char cur c) r
          else tokenize_scan Body (push_char cur c) r
      | Stops =>
          if isStop c then tokenize_scan Stops (push_char cur c) r
          else if isSpace c then tokenize_scan Blanks (push_char cur c) r
          else cur :: tokenize_scan Body (String c EmptyString) r
      | Blanks =>
          if isSpace c then tokenize_scan Blanks (push_char cur c) r
          else if isStop c then cur :: tokenize_scan Seek EmptyString r
          else cur :: tokenize_scan Body (String c EmptyString) r
      end
  end.

Definition nonEmpty (s : string) : bool :=
  match s with
  | EmptyString => false
  | _ => true
  end.

(** [matches ? matches.filter(Boolean) : []] *)
Definition tokenizeSentences (text : string) : list string :=
  filter nonEmpty (tokenize_scan Seek EmptyString text).

(** [String.fromCharCode(n)], as the code unit it yields. *)
Definition fromCharCode (n : N) : N := (n mod 65536)%N.

(** The property names every object inherits from [Object.prototype]: the
    [in] operator answers [true] for them on the empty [lineHash]. *)
Definition objectPrototypeKeys : list string :=
  [ "constructor"; "__defineGetter__"; "__defineSetter__"; "hasOwnProperty";
    "__lookupGetter__"; "__lookupSetter__"; "isPrototypeOf";
    "propertyIsEnumerable"; "toString"; "valueOf"; "__proto__";
    "toLocaleString" ]%string.

(** [lineHash]: the own properties that [sentencesToChars] has set. *)
Definition LineHash : Type := list (string * N).

Fixpoint lineHash_own (lineHash : LineHash) (line : string) : option N :=
  match lineHash with
  | [] => None
  | (k, v) :: r => if String.eqb k line then Some v else lineHash_own r line
  end.

(** [line in lineHash] *)
Definition lineHash_has (lineHash : LineHash) (line : string) : bool :=
  match lineHash_own lineHash line with
  | Some _ => true
  | None => existsb (String.eqb line) objectPrototypeKeys
  end.

(** The argument that [String.fromCharCode(lineHash[line])] receives as a
    number: an inherited property is not a number and converts to [0]. *)
Definition lineHash_get (lineHash : LineHash) (line : string) : N :=
  match lineHash_own lineHash line with
  | Some v => v
  | None => 0%N
  end.

Record LineTable : Type := mkLineTable {
  lineArray : list string;
  lineHash : LineHash;
  lineStart : N
}.

(** The body of both [.map] callbacks of [sentencesToChars].
    [lineArray[lineStart] = line] writes one past the last entry. *)
Definition intern_sentence (t : LineTable) (sentence : string) : LineTable * N :=
  let line := sentence in
  if lineHash_has (lineHash t) line
  then (t, fromCharCode (lineHash_get (lineHash t) line))
  else
    let lineHash' := (line, lineStart t) :: lineHash t in
    let t' := mkLineTable (lineArray t ++ [line]) lineHash' (lineStart t + 1)%N in
    (t', fromCharCode (lineHash_get lineHash' line)).

Fixpoint intern_all (t : LineTable) (sentences : list string) : LineTable * list N :=
  match sentences with
  | [] => (t, [])
  | s :: r =>
      let (t1, c) := intern_sentence t s in
      let (t2, cs) := intern_all t1 r in
      (t2, c :: cs)
  end.

(** Returns [(chars1, chars2, lineArray)]. *)
Definition sentencesToChars (oldSentences newSentences : list string)
  : list N * list N * list string :=
  let t0 := mkLineTable [] [] 0%N in
  let (t1, chars1) := intern_all t0 oldSentences in
  let (t2, chars2) := intern_all t1 newSentences in
  (chars1, chars2, lineArray t2).

(** [.join('')] *)
Definition join (l : list string) : string :=
  fold_right String.append EmptyString l.

Section Patcher.

(** [dmp.diff_main(chars1, chars2, false)] of the diff-match-patch
    library: a list of [(operation, text)] segments. *)
Variable diff_main : list N -> list N -> list (DiffTypeValue * list N).

Definition patchTextNodes (oldNode newNode : list Node) : outcome (list Node) :=
  let oldText := join (map getNodeText oldNode) in
  let newText := join (map getNodeText newNode) in
  let oldSentences := tokenizeSentences oldText in
  let newSentences := tokenizeSentences newText in
  let '(chars1, chars2, lineArray) := sentencesToChars oldSentences newSentences in
  let rawDiffs := diff_main chars1 chars2 in
  let diffs :=
    map (fun '(type, text) =>
           (type,
            filter nonEmpty
                   (map (fun char => nth (N.to_nat char) lineArray EmptyString) text)))
        rawDiffs in
  res <- mapM (fun '(type, sentences) =>
                 mapM (fun sentence =>
                         marks <- (if negb (DiffTypeValue_eqb type Unchanged)
                                   then m <- createDiffMark type ;; Ret [m]
                                   else Ret []) ;;
                         Ret (createTextNode sentence marks))
                      sentences)
              diffs ;;
  Ret (List.concat res).

(* ---------------------------------------------------------------- *)
(** ** The tree patcher *)

(** The variables of the [while] loop of [patchRemainNodes]. *)
Record RemainState : Type := mkRemain {
  st_left : nat;
  st_right : nat;
  st_finalLeftChildren : list Node;
  st_finalRightChildren : list Node
}.

Section Remain.
(** The recursive call [patchDocumentNode(schema, _, _)]. *)
Variable patchDocumentNode_rec : Node -> Node -> outcome Node.
Variables oldChildren newChildren : NormalizedNodeContent.

Let oldChildLen := List.length oldChildren.
Let newChildLen := List.length newChildren.

(** [oldChildLen - left - right > 0 && newChildLen - left - right > 0] *)
Definition remain_guard (s : RemainState) : bool :=
  (st_left s + st_right s <? oldChildLen) && (st_left s + st_right s <? newChildLen).

(** [updateLeft] and [updateRight] after the tie-break. *)
Definition tie_break (leftOldNode leftNewNode rightOldNode rightNewNode
                      : ProsemirrorNodeLike) : bool * bool :=
  let updateLeft :=
    negb (isTextNode leftOldNode) && matchNodeType leftOldNode leftNewNode in
  let updateRight :=
    negb (isTextNode rightOldNode) && matchNodeType rightOldNode rightNewNode in
  if updateLeft && updateRight
  then
    let equalityLeft := computeChildEqualityFactor leftOldNode leftNewNode in
    let equalityRight := computeChildEqualityFactor rightOldNode rightNewNode in
    if (equalityLeft <? equalityRight)%Z
    then (false, updateRight)
    else (updateLeft, false)
  else (updateLeft, updateRight).

(** One iteration of the [while] loop. *)
Definition remain_step (s : RemainState) : outcome RemainState :=
  let left := st_left s in
  let right := st_right s in
  let finalLeftChildren := st_finalLeftChildren s in
  let finalRightChildren := st_finalRightChildren s in
  let leftOldNode := unit_at oldChildren left in
  let leftNewNode := unit_at newChildren left in
  let rightOldNode := unit_at oldChildren (oldChildLen - right - 1) in
  let rightNewNode := unit_at newChildren (newChildLen - right - 1) in
  match leftOldNode, leftNewNode with
  | Group o, Group n =>
      res <- patchTextNodes o n ;;
      Ret (mkRemain (left + 1) right (finalLeftChildren ++ res) finalRightChildren)
  | _, _ =>
      let '(updateLeft, updateRight) :=
        tie_break leftOldNode leftNewNode rightOldNode rightNewNode in
      if updateLeft then
        match leftOldNode, leftNewNode with
        | Single o, Single n =>
            p <- patchDocumentNode_rec o n ;;
            Ret (mkRemain (left + 1) right (finalLeftChildren ++ [p]) finalRightChildren)
        | _, _ => Ret (mkRemain (left + 1) right finalLeftChildren finalRightChildren)
        end
      else if updateRight then
        match rightOldNode, rightNewNode with
        | Single o, Single n =>
            p <- patchDocumentNode_rec o n ;;
            Ret (mkRemain left (right + 1) finalLeftChildren (p :: finalRightChildren))
        | _, _ => Ret (mkRemain left (right + 1) finalLeftChildren finalRightChildren)
        end
      else
        deleted <- match leftOldNode with
                   | Single o => d <- createDiffNode o Deleted ;; Ret [d]
                   | Group _ => Ret []
                   end ;;
        inserted <- match leftNewNode with
                    | Single n => i <- createDiffNode n Inserted ;; Ret [i]
                    | Group _ => Ret []
                    end ;;
        Ret (mkRemain (left + 1) right
                      (finalLeftChildren ++ deleted ++ inserted) finalRightChildren)
  end.

(** The [while] loop; [budget] bounds its iterations. *)
Fixpoint remain_loop (budget : nat) (s : RemainState) : outcome RemainState :=
  if remain_guard s
  then match budget with
       | 0 => Fuel
       | S b => s' <- remain_step s ;; remain_loop b s'
       end
  else Ret s.

(** [.flat().map(node => createDiffNode(schema, node, type))]; the
    filter of [null] keeps every entry. *)
Definition annotate_all (type : DiffTypeValue) (units : NormalizedNodeContent)
  : outcome (list Node) :=
  mapM (fun node => createDiffNode node type) (flat units).

Definition patchRemainNodes_with : outcome (list Node) :=
  s <- remain_loop oldChildLen (mkRemain 0 0 [] []) ;;
  let left := st_left s in
  let right := st_right s in
  let deleteNodeLen := oldChildLen - left - right in
  let insertNodeLen := newChildLen - left - right in
  deleted <- (if negb (deleteNodeLen =? 0)
              then annotate_all Deleted (slice left (left + deleteNodeLen) oldChildren)
              else Ret []) ;;
  let finalLeftChildren := st_finalLeftChildren s ++ deleted in
  inserted <- (if negb (insertNodeLen =? 0)
               then annotate_all Inserted (slice left (left + insertNodeLen) newChildren)
               else Ret []) ;;
  let finalRightChildren := inserted ++ st_finalRightChildren s in
  Ret (finalLeftChildren ++ finalRightChildren).
End Remain.

(** The prefix trim of [patchDocumentNode]: returns [left] and
    [finalLeftChildren]. *)
Fixpoint prefix_trim (oldChildren newChildren : NormalizedNodeContent)
         (budget left : nat) (finalLeftChildren : list Node) : nat * list Node :=
  match budget with
  | 0 => (left, finalLeftChildren)
  | S b =>
      if left <? Nat.min (List.length oldChildren) (List.length newChildren)
      then
        let oldChild := unit_at oldChildren left in
        let newChild := unit_at newChildren left in
        if negb (isNodeEqual oldChild newChild)
        then (left, finalLeftChildren)
        else prefix_trim oldChildren newChildren b (S left)
                         (finalLeftChildren ++ ensureArray oldChild)
      else (left, finalLeftChildren)
  end.

(** The suffix trim: returns [right] and [finalRightChildren]. *)
Fixpoint suffix_trim (oldChildren newChildren : NormalizedNodeContent) (left : nat)
         (budget right : nat) (finalRightChildren : list Node) : nat * list Node :=
  match budget with
  | 0 => (right, finalRightChildren)
  | S b =>
      if right + left + 1 <? Nat.min (List.length oldChildren) (List.length newChildren)
      then
        let oldChild := unit_at oldChildren (List.length oldChildren - right - 1) in
        let newChild := unit_at newChildren (List.length newChildren - right - 1) in
        if negb (isNodeEqual oldChild newChild)
        then (right, finalRightChildren)
        else suffix_trim oldChildren newChildren left b (S right)
                         (ensureArray oldChild ++ finalRightChildren)
      else (right, finalRightChildren)
  end.

(** The body of [patchDocumentNode]; [patchDocumentNode_rec] stands for the
    calls that [patchRemainNodes] makes to [patchDocumentNode]. *)
Definition patchDocumentNode_with (patchDocumentNode_rec : Node -> Node -> outcome Node)
           (oldNode newNode : Node) : outcome Node :=
  _ <- assertNodeTypeEqual oldNode newNode ;;
  let patchRemainNodes := patchRemainNodes_with patchDocumentNode_rec in
  let oldChildren := normalizeNodeContent oldNode in
  let newChildren := normalizeNodeContent newNode in
  let oldChildLen := List.length oldChildren in
  let newChildLen := List.length newChildren in
  let minChildLen := Nat.min oldChildLen newChildLen in
  let prefix := prefix_trim oldChildren newChildren minChildLen 0 [] in
  let left := fst prefix in
  let finalLeftChildren := snd prefix in
  let suffix := suffix_trim oldChildren newChildren left minChildLen 0 [] in
  let right := fst suffix in
  let finalRightChildren := snd suffix in
  let diffOldChildren := slice left (oldChildLen - right) oldChildren in
  let diffNewChildren := slice left (newChildLen - right) newChildren in
  final <-
    (if negb (List.length diffOldChildren =? 0)
        && negb (List.length diffNewChildren =? 0)
     then
       match bestMatch diffOldChildren diffNewChildren with
       | Some (mkMatch oldStartIndex newStartIndex oldEndIndex newEndIndex _) =>
           let oldBeforeMatchChildren := slice 0 oldStartIndex diffOldChildren in
           let newBeforeMatchChildren := slice 0 newStartIndex diffNewChildren in
           before <- patchRemainNodes oldBeforeMatchChildren newBeforeMatchChildren ;;
           let finalLeftChildren :=
             (finalLeftChildren ++ before)
               ++ flat (slice oldStartIndex oldEndIndex diffOldChildren) in
           let oldAfterMatchChildren := skipn oldEndIndex diffOldChildren in
           let newAfterMatchChildren := skipn newEndIndex diffNewChildren in
           after <- patchRemainNodes oldAfterMatchChildren newAfterMatchChildren ;;
           Ret (finalLeftChildren, after ++ finalRightChildren)
       | None =>
           rest <- patchRemainNodes diffOldChildren diffNewChildren ;;
           Ret (finalLeftChildren ++ rest, finalRightChildren)
       end
     else
       rest <- patchRemainNodes diffOldChildren diffNewChildren ;;
       Ret (finalLeftChildren ++ rest, finalRightChildren)) ;;
  createNewNode oldNode (fst final ++ snd final).

(** [patchDocumentNode]: each level of the recursion through
    [patchRemainNodes] takes one unit of fuel. *)
Fixpoint patchDocumentNode (fuel : nat) (oldNode newNode : Node) : outcome Node :=
  match fuel with
  | 0 => Fuel
  | S fuel' => patchDocumentNode_with (patchDocumentNode fuel') oldNode newNode
  end.

(** [patchRemainNodes], with the fuel of its recursive calls. *)
Definition patchRemainNodes (fuel : nat)
           (oldChildren newChildren : NormalizedNodeContent) : outcome (list Node) :=
  patchRemainNodes_with (patchDocumentNode fuel) oldChildren newChildren.

(** [ProsemirrorNode.fromJSON] is the library's parser; the two documents
    are taken as the trees it builds.  The fuel exceeds the height of the
    old tree, which bounds the depth of the recursion. *)
Definition diffEditor (oldDoc newDoc : Node) : outcome Node :=
  patchDocumentNode (S (height oldDoc)) oldDoc newDoc.

End Patcher.

(* ------------------------------------------------------------------ *)
(** ** Definitions used to state the properties *)

(** The mark that [createDiffMark] builds for an annotation. *)
Definition diffMark (A : DiffTypeValue) : Mark :=
  mkMark "diffMark" [("type"%string, ANum (DiffType_code A))].

Definition isDiffMark (m : Mark) : bool := String.eqb (mark_type m) "diffMark".

(** No node of the tree carries a mark of type [diffMark]. *)
Fixpoint diff_mark_free (n : Node) : bool :=
  match n with
  | mkNode _ _ marks content _ =>
      forallb (fun m => negb (isDiffMark m)) marks && forallb diff_mark_free content
  end.

(** Section 4.4 of the spec in its own words: the copy of a subtree in
    which every text-bearing leaf gains the diff mark at the end of its
    mark list and every other node is unchanged, its descendants annotated
    likewise. *)
Fixpoint annotated_spec (A : DiffTypeValue) (n : Node) : Node :=
  match n with
  | mkNode type attrs marks content text =>
      if String.eqb type "text"
      then mkNode type attrs (marks ++ [diffMark A]) content text
      else mkNode type attrs marks (map (annotated_spec A) content) text
  end.

(** What [createDiffNode] computes on any tree: a node of type ["text"] is
    rebuilt by [createTextNode] from its text and its marks. *)
Fixpoint annotated (A : DiffTypeValue) (n : Node) : Node :=
  match n with
  | mkNode type attrs marks content text =>
      if String.eqb type "text"
      then mkNode "text" [] (marks ++ [diffMark A]) [] (Some (getNodeText n))
      else mkNode type attrs marks (map (annotated A) content) text
  end.

(** The greatest height of a node among the units of a children list. *)
Definition units_height (l : NormalizedNodeContent) : nat :=
  fold_right (fun n acc => Nat.max (height n) acc) 0 (flat l).

(** The annotation that a leaf returned by the text diff engine carries. *)
Definition annotation_of (leaf : Node) : DiffTypeValue :=
  if existsb (isMarkEqual (diffMark Deleted)) (node_marks leaf) then Deleted
  else if existsb (isMarkEqual (diffMark Inserted)) (node_marks leaf) then Inserted
  else Unchanged.

(** The text of the leaves whose annotation is kept. *)
Definition kept_text (keep : DiffTypeValue -> bool) (leaves : list Node) : string :=
  join (map getNodeText (filter (fun leaf => keep (annotation_of leaf)) leaves)).

Definition not_Deleted (t : DiffTypeValue) : bool := negb (DiffTypeValue_eqb t Deleted).
Definition not_Inserted (t : DiffTypeValue) : bool := negb (DiffTypeValue_eqb t Inserted).

(** The text of the segments of a character diff whose operation is kept. *)
Definition segments_text (keep : DiffTypeValue -> bool)
           (diffs : list (DiffTypeValue * list N)) : list N :=
  List.concat (map snd (filter (fun d => keep (fst d)) diffs)).

(** The contract of [diff_main]: the segments that are not deletions spell
    the second text, the segments that are not insertions spell the first. *)
Definition diff_contract (diff_main : list N -> list N -> list (DiffTypeValue * list N))
  : Prop :=
  forall chars1 chars2,
    segments_text not_Deleted (diff_main chars1 chars2) = chars2
    /\ segments_text not_Inserted (diff_main chars1 chars2) = chars1.

(** A character diff that meets the contract, to run the patcher on
    examples: the common prefix, then the rest of the first text deleted
    and the rest of the second inserted. *)
Fixpoint common_prefix (a b : list N) : list N * (list N * list N) :=
  match a, b with
  | x :: a', y :: b' =>
      if N.eqb x y
      then let '(p, r) := common_prefix a' b' in (x :: p, r)
      else ([], (a, b))
  | _, _ => ([], (a, b))
  end.

Definition segment (t : DiffTypeValue) (text : list N) : list (DiffTypeValue * list N) :=
  match text with
  | [] => []
  | _ => [(t, text)]
  end.

Definition prefix_diff (a b : list N) : list (DiffTypeValue * list N) :=
  let '(p, (a', b')) := common_prefix a b in
  segment Unchanged p ++ segment Deleted a' ++ segment Inserted b'.

(** The sentences that a string of codes stands for: the expansion of one
    diff segment in [patchTextNodes]. *)
Definition decode (lineArray : list string) (text : list N) : list string :=
  filter nonEmpty (map (fun char => nth (N.to_nat char) lineArray EmptyString) text).

(** The marks that [patchTextNodes] gives the leaves of a segment. *)
Definition segment_marks (type : DiffTypeValue) : list Mark :=
  match type with
  | Unchanged => []
  | _ => [diffMark type]
  end.

(** The leaves that [patchTextNodes] builds from the segments of the
    character diff. *)
Definition leaves_of (lineArray : list string)
           (rawDiffs : list (DiffTypeValue * list N)) : list Node :=
  List.concat
    (map (fun d => map (fun sentence => createTextNode sentence (segment_marks (fst d)))
                       (decode lineArray (snd d)))
         rawDiffs).

(** [a] is [b], unless the fuel ran out before [a] was reached. *)
Definition fuel_le {A : Type} (a b : outcome A) : Prop := a = Fuel \/ a = b.

(** A sentence that is not the name of a property of [Object.prototype]. *)
Definition plain_sentence (s : string) : bool :=
  negb (existsb (String.eqb s) objectPrototypeKeys).

(** The table of [sentencesToChars] is consistent: [lineStart] is the
    length of [lineArray] and every own entry of [lineHash] points at its
    sentence. *)
Definition table_ok (t : LineTable) : Prop :=
  lineStart t = N.of_nat (List.length (lineArray t))
  /\ forall line v,
      lineHash_own (lineHash t) line = Some v ->
      nth_error (lineArray t) (N.to_nat v) = Some line.

(** The code [c] stands for the sentence [s] in the table [lines]. *)
Definition code_of (lines : list string) (s : string) (c : N) : Prop :=
  exists v, c = fromCharCode v /\ nth_error lines (N.to_nat v) = Some s.

(** The order in which [matchNodes] pushes its runs. *)
Definition earlier_start (a b : MatchResult) : Prop :=
  oldStartIndex a < oldStartIndex b.

(** Nodes of the examples. *)
Definition text_leaf (s : string) : Node := mkNode "text" [] [] [] (Some s).
Definition paragraph (content : list Node) : Node := mkNode "paragraph" [] [] content None.
Definition image : Node := mkNode "image" [] [] [] None.
Definition hard_break : Node := mkNode "hard_break" [] [] [] None.

(* ------------------------------------------------------------------ *)
(** ** Further accessors and measures *)

(** [node.attrs ? node.attrs[attribute] : undefined] *)
Definition getNodeAttribute (node : Node) (attribute : string) : option AttrValue :=
  attr_get (node_attrs node) attribute.

(** The text that a subtree holds: the text of a text leaf, the texts of
    the children of any other node, in order. *)
Fixpoint text_content (n : Node) : string :=
  match n with
  | mkNode type _ _ content _ =>
      if String.eqb type "text"
      then getNodeText n
      else join (map text_content content)
  end.

(** Some node of the subtree has the type ["text"]. *)
Fixpoint contains_text (n : Node) : bool :=
  match n with
  | mkNode type _ _ content _ =>
      String.eqb type "text" || existsb contains_text content
  end.

(** A normalized unit as [normalizeNodeContent] builds it: a single node
    that is no text leaf, or a group of text leaves that is not empty. *)
Definition unit_ok (u : ProsemirrorNodeLike) : bool :=
  match u with
  | Single n => negb (isTextNode (Single n))
  | Group ns =>
      negb (Nat.eqb (List.length ns) 0) && forallb (fun n => isTextNode (Single n)) ns
  end.

Definition isGroup (u : ProsemirrorNodeLike) : bool :=
  match u with
  | Group _ => true
  | Single _ => false
  end.

(** No two groups stand side by side: each text run is maximal. *)
Fixpoint groups_apart (l : NormalizedNodeContent) : bool :=
  match l with
  | u :: (v :: _) as r => negb (isGroup u && isGroup v) && groups_apart r
  | _ => true
  end.

(** The characters of a string that satisfy [f], in order. *)
Fixpoint keep_chars (f : ascii -> bool) (s : string) : string :=
  match s with
  | EmptyString => EmptyString
  | String c r => if f c then String c (keep_chars f r) else keep_chars f r
  end.

(** No character of [[.!?]] stands right after white space, [prev] being
    the character before [text]. *)
Fixpoint no_stop_after_space (prev : ascii) (text : string) : bool :=
  match text with
  | EmptyString => true
  | String c r => negb (isSpace prev && isStop c) && no_stop_after_space c r
  end.

(** A text that neither begins with a character of [[.!?]] nor has one
    right after white space. *)
Definition stops_attached (text : string) : bool :=
  match text with
  | EmptyString => true
  | String c r => negb (isStop c) && no_stop_after_space c r
  end.

Definition starts_with_stop (s : string) : bool :=
  match s with
  | EmptyString => false
  | String c _ => isStop c
  end.

(** Every node of a list is a tree of the data model. *)
Definition wf_list (l : list Node) : Prop := Forall (fun n => well_formed n = true) l.

(* ================================================================== *)
(** * Properties *)

(** ** The outcome monad *)

Lemma bind_Ret_inv {A B : Type} (m : outcome A) (k : A -> outcome B) (b : B) :
  bind m k = Ret b -> exists a, m = Ret a /\ k a = Ret b.
Proof.
  destruct m as [a| |]; simpl; intros H; try discriminate.
  exists a. split; [reflexivity | exact H].
Qed.

Lemma mapM_total {A B : Type} (f : A -> outcome B) (l : list A) :
  Forall (fun a => exists b, f a = Ret b) l -> exists bs, mapM f l = Ret bs.
Proof.
  induction 1 as [|a r [b Hb] _ [bs Hbs]]; simpl.
  - exists []. reflexivity.
  - rewrite Hb. simpl. rewrite Hbs. simpl. exists (b :: bs). reflexivity.
Qed.

Lemma mapM_Ret_map {A B : Type} (f : A -> outcome B) (g : A -> B) (l : list A) :
  Forall (fun a => f a = Ret (g a)) l -> mapM f l = Ret (map g l).
Proof.
  induction 1 as [|a r Ha _ IH]; simpl.
  - reflexivity.
  - rewrite Ha. simpl. rewrite IH. reflexivity.
Qed.

(** ** Structural equality is reflexive on the values of the model *)

Lemma every2_refl {A : Type} (f : A -> A -> bool) (l : list A) :
  Forall (fun a => f a a = true) l -> every2 f l l = true.
Proof.
  induction 1 as [|a r Ha _ IH]; simpl.
  - reflexivity.
  - rewrite Ha, IH. reflexivity.
Qed.

Lemma every2_length {A : Type} (f : A -> A -> bool) (l1 l2 : list A) :
  every2 f l1 l2 = true -> List.length l1 = List.length l2.
Proof.
  revert l2. induction l1 as [|a r IH]; intros [|b r2]; simpl; intros H;
    try discriminate; try reflexivity.
  apply andb_true_iff in H. destruct H as [_ H]. f_equal. apply IH. exact H.
Qed.

Lemma AttrValue_eqb_refl (v : AttrValue) : AttrValue_eqb v v = true.
Proof.
  destruct v; simpl.
  - apply Z.eqb_refl.
  - apply String.eqb_refl.
  - destruct b; reflexivity.
  - reflexivity.
Qed.

Lemma strict_eqb_refl (v : option AttrValue) : strict_eqb v v = true.
Proof. destruct v; simpl; [apply AttrValue_eqb_refl | reflexivity]. Qed.

Lemma attrs_agree_refl (a : Attrs) : attrs_agree a a = true.
Proof.
  unfold attrs_agree. apply forallb_forall. intros k _. apply strict_eqb_refl.
Qed.

Lemma isMarkEqual_refl (m : Mark) : isMarkEqual m m = true.
Proof.
  unfold isMarkEqual. rewrite String.eqb_refl. simpl.
  apply every2_refl. apply Forall_forall. intros [k v] _.
  unfold Attr_eqb. simpl. rewrite String.eqb_refl, AttrValue_eqb_refl. reflexivity.
Qed.

Lemma isPNodeEqual_refl (n : Node) : isPNodeEqual n n = true.
Proof.
  induction n as [type attrs marks content text IH] using Node_ind.
  simpl. rewrite !String.eqb_refl. simpl.
  rewrite andb_false_r, attrs_agree_refl. simpl.
  rewrite (every2_refl isMarkEqual marks).
  - simpl. apply every2_refl. exact IH.
  - apply Forall_forall. intros m _. apply isMarkEqual_refl.
Qed.

Lemma isNodeEqual_refl (u : ProsemirrorNodeLike) : isNodeEqual u u = true.
Proof.
  destruct u as [n | ns]; simpl.
  - apply isPNodeEqual_refl.
  - apply every2_refl. apply Forall_forall. intros n _. apply isPNodeEqual_refl.
Qed.

Lemma isPNodeEqual_type (a b : Node) :
  isPNodeEqual a b = true -> node_type a = node_type b.
Proof.
  destruct a as [t1 a1 m1 c1 x1], b as [t2 a2 m2 c2 x2]. simpl.
  destruct (String.eqb t1 t2) eqn:E; simpl; intros H; try discriminate.
  apply String.eqb_eq. exact E.
Qed.

(** ** The embedding on small inputs *)

Example tokenizeSentences_keeps_trailing_blanks :
  tokenizeSentences "Hello world. How are you?  Fine!"
  = ["Hello world. "; "How are you?  "; "Fine!"]%string.
Proof. reflexivity. Qed.

Example tokenizeSentences_skips_lone_stops :
  tokenizeSentences "...Hi. .x" = ["Hi. "; "x"]%string
  /\ tokenizeSentences "?!" = [].
Proof. split; reflexivity. Qed.

Example sentencesToChars_interns_once :
  sentencesToChars ["A. "; "B. "; "A. "]%string ["B. "; "C."]%string
  = ([0; 1; 0]%N, [1; 2]%N, ["A. "; "B. "; "C."]%string).
Proof. reflexivity. Qed.

Example normalizeNodeContent_groups_text_runs :
  normalizeNodeContent
    (paragraph [text_leaf "a"; text_leaf "b"; image; text_leaf "c"])
  = [Group [text_leaf "a"; text_leaf "b"]; Single image; Group [text_leaf "c"]].
Proof. reflexivity. Qed.

(** Scenario C of the spec: a removed paragraph is marked Deleted down to
    its text leaf, the kept paragraph is unmarked. *)
Example diffEditor_removed_paragraph :
  diffEditor prefix_diff
             (mkNode "doc" [] [] [paragraph [text_leaf "A"]; paragraph [text_leaf "B"]] None)
             (mkNode "doc" [] [] [paragraph [text_leaf "B"]] None)
  = Ret (mkNode "doc" [] []
                [paragraph [mkNode "text" [] [diffMark Deleted] [] (Some "A"%string)];
                 paragraph [text_leaf "B"]]
                None).
Proof. reflexivity. Qed.

(** A changed paragraph between two equal ones is patched in place: its
    text run goes through the text diff engine. *)
Example diffEditor_changed_paragraph :
  diffEditor prefix_diff
             (mkNode "doc" [] []
                     [paragraph [text_leaf "A"]; paragraph [text_leaf "B"];
                      paragraph [text_leaf "C"]] None)
             (mkNode "doc" [] []
                     [paragraph [text_leaf "A"]; paragraph [text_leaf "X"];
                      paragraph [text_leaf "C"]] None)
  = Ret (mkNode "doc" [] []
                [paragraph [text_leaf "A"];
                 paragraph [mkNode "text" [] [diffMark Deleted] [] (Some "B"%string);
                            mkNode "text" [] [diffMark Inserted] [] (Some "X"%string)];
                 paragraph [text_leaf "C"]]
                None).
Proof. reflexivity. Qed.

(** ** Lists, slices and normalized units *)

Lemma In_slice {A : Type} (a b : nat) (l : list A) (x : A) :
  In x (slice a b l) -> In x l.
Proof.
  unfold slice. intros H.
  rewrite <- (firstn_skipn a l). apply in_or_app. right.
  rewrite <- (firstn_skipn (b - a) (skipn a l)). apply in_or_app. left. exact H.
Qed.

Lemma In_skipn_list {A : Type} (a : nat) (l : list A) (x : A) :
  In x (skipn a l) -> In x l.
Proof.
  intros H. rewrite <- (firstn_skipn a l). apply in_or_app. right. exact H.
Qed.

Lemma slice_length {A : Type} (a b : nat) (l : list A) :
  List.length (slice a b l) = Nat.min (b - a) (List.length l - a).
Proof. unfold slice. rewrite length_firstn, length_skipn. reflexivity. Qed.

Lemma In_flat (l : NormalizedNodeContent) (n : Node) :
  In n (flat l) <-> exists u, In u l /\ In n (ensureArray u).
Proof.
  unfold flat. rewrite in_concat. split.
  - intros [ns [Hns Hn]]. apply in_map_iff in Hns. destruct Hns as [u [Hu Hin]].
    exists u. subst ns. split; assumption.
  - intros [u [Hu Hn]]. exists (ensureArray u). split; [apply in_map; exact Hu | exact Hn].
Qed.

Lemma flat_normalize_list (content : list Node) :
  flat (normalize_list content) = content.
Proof.
  induction content as [|child r IH]; [reflexivity|].
  cbn [normalize_list].
  destruct (isTextNode (Single child)).
  - destruct r as [|next r']; [reflexivity|].
    destruct (isTextNode (Single next)).
    + destruct (normalize_list (next :: r')) as [|[n|textNodes] res] eqn:E;
        unfold flat in *; simpl in *; rewrite <- IH; reflexivity.
    + unfold flat in *. simpl. simpl in IH. rewrite IH. reflexivity.
  - unfold flat in *. simpl. rewrite IH. reflexivity.
Qed.

Lemma normalize_list_unfold (child : Node) (r : list Node) :
  normalize_list (child :: r)
  = if isTextNode (Single child)
    then match r with
         | next :: _ =>
             if isTextNode (Single next)
             then match normalize_list r with
                  | Group textNodes :: res => Group (child :: textNodes) :: res
                  | res => Group [child] :: res
                  end
             else Group [child] :: normalize_list r
         | [] => [Group [child]]
         end
    else Single child :: normalize_list r.
Proof. reflexivity. Qed.

Lemma take_text_run_unfold (textNode : Node) (r : list Node) :
  take_text_run (textNode :: r)
  = if isTextNode (Single textNode)
    then let (textNodes, rest) := take_text_run r in (textNode :: textNodes, rest)
    else ([], textNode :: r).
Proof. reflexivity. Qed.

Lemma normalize_list_run (child : Node) (r : list Node) :
  isTextNode (Single child) = true ->
  normalize_list (child :: r)
  = Group (fst (take_text_run (child :: r)))
          :: normalize_list (snd (take_text_run (child :: r))).
Proof.
  revert child. induction r as [|next r' IH]; intros child HT.
  - rewrite normalize_list_unfold, take_text_run_unfold, HT. reflexivity.
  - rewrite normalize_list_unfold, (take_text_run_unfold child), HT.
    destruct (isTextNode (Single next)) eqn:HN.
    + rewrite (IH next HN). destruct (take_text_run (next :: r')) as [run rest].
      reflexivity.
    + rewrite take_text_run_unfold, HN. reflexivity.
Qed.

Lemma normalize_list_single (child : Node) (r : list Node) :
  isTextNode (Single child) = false ->
  normalize_list (child :: r) = Single child :: normalize_list r.
Proof. intros HT. rewrite normalize_list_unfold, HT. reflexivity. Qed.

Lemma In_normalize_list (content : list Node) (u : ProsemirrorNodeLike) (n : Node) :
  In u (normalize_list content) -> In n (ensureArray u) -> In n content.
Proof.
  intros Hu Hn. rewrite <- (flat_normalize_list content).
  apply In_flat. exists u. split; assumption.
Qed.

Lemma height_child type attrs marks content text (c : Node) :
  In c content -> height c < height (mkNode type attrs marks content text).
Proof.
  simpl. induction content as [|x r IH]; simpl; intros H; [contradiction|].
  destruct H as [H | H].
  - subst x. lia.
  - specialize (IH H). lia.
Qed.

Lemma units_height_In (l : NormalizedNodeContent) (u : ProsemirrorNodeLike) (n : Node) :
  In u l -> In n (ensureArray u) -> height n <= units_height l.
Proof.
  intros Hu Hn. unfold units_height.
  assert (H : In n (flat l)) by (apply In_flat; exists u; split; assumption).
  induction (flat l) as [|x r IH]; simpl; [contradiction|].
  destruct H as [H | H].
  - subst x. lia.
  - specialize (IH H). lia.
Qed.

Lemma unit_at_In (l : NormalizedNodeContent) (i : nat) :
  i < List.length l -> In (unit_at l i) l.
Proof. intros H. unfold unit_at. apply nth_In. exact H. Qed.

(** ** The diff annotator *)

Lemma mapDocumentNode_unfold mapper type attrs marks content text :
  mapDocumentNode mapper (mkNode type attrs marks content text)
  = (children <- mapM (mapDocumentNode mapper) content ;;
     mapped <- mapper (mkNode type attrs marks children text) ;;
     Ret (match mapped with
          | Some n => n
          | None => mkNode type attrs marks children text
          end)).
Proof. reflexivity. Qed.

Lemma createDiffMark_Ret (A : DiffTypeValue) :
  A = Inserted \/ A = Deleted -> createDiffMark A = Ret (diffMark A).
Proof. intros [H | H]; subst A; reflexivity. Qed.

Lemma createDiffNode_annotated (A : DiffTypeValue) (n : Node) :
  A = Inserted \/ A = Deleted -> createDiffNode n A = Ret (annotated A n).
Proof.
  intros HA. unfold createDiffNode.
  induction n as [type attrs marks content text IH] using Node_ind.
  rewrite mapDocumentNode_unfold.
  rewrite (mapM_Ret_map _ (annotated A) content IH).
  cbn [bind isTextNode node_type annotated].
  destruct (String.eqb type "text") eqn:E.
  - rewrite (createDiffMark_Ret A HA). apply String.eqb_eq in E. subst type.
    reflexivity.
  - reflexivity.
Qed.

Lemma annotate_all_total (A : DiffTypeValue) (units : NormalizedNodeContent) :
  A = Inserted \/ A = Deleted ->
  annotate_all A units = Ret (map (annotated A) (flat units)).
Proof.
  intros HA. unfold annotate_all. apply mapM_Ret_map.
  apply Forall_forall. intros n _. apply createDiffNode_annotated. exact HA.
Qed.

(** ** The text diff engine always answers *)

Lemma patchTextNodes_total diff_main (oldNode newNode : list Node) :
  exists res, patchTextNodes diff_main oldNode newNode = Ret res.
Proof.
  unfold patchTextNodes.
  destruct (sentencesToChars _ _) as [[chars1 chars2] lines].
  match goal with
  | |- exists res, (r <- mapM ?f ?l ;; _) = _ =>
      destruct (mapM_total f l) as [bs Hbs]
  end.
  - apply Forall_forall. intros [type sentences] _.
    apply mapM_total. apply Forall_forall. intros sentence _.
    destruct type; simpl; eexists; reflexivity.
  - rewrite Hbs. simpl. eexists. reflexivity.
Qed.

(** ** One iteration of the loop of [patchRemainNodes] *)

Lemma tie_break_eq (lo ln ro rn : ProsemirrorNodeLike) :
  tie_break lo ln ro rn
  = (negb (isTextNode lo) && matchNodeType lo ln,
     negb (negb (isTextNode lo) && matchNodeType lo ln)
     && (negb (isTextNode ro) && matchNodeType ro rn)).
Proof.
  unfold tie_break, computeChildEqualityFactor.
  destruct (negb (isTextNode lo) && matchNodeType lo ln);
    destruct (negb (isTextNode ro) && matchNodeType ro rn); reflexivity.
Qed.

Lemma matchNodeType_Single (a b : Node) :
  matchNodeType (Single a) (Single b) = true -> node_type a = node_type b.
Proof. simpl. apply String.eqb_eq. Qed.

Section RemainStep.
Variable diff_main : list N -> list N -> list (DiffTypeValue * list N).
Variable rec : Node -> Node -> outcome Node.
Variables oldChildren newChildren : NormalizedNodeContent.

Lemma remain_step_advances (s s' : RemainState) :
  remain_step diff_main rec oldChildren newChildren s = Ret s' ->
  (st_left s' = S (st_left s) /\ st_right s' = st_right s)
  \/ (st_left s' = st_left s /\ st_right s' = S (st_right s)).
Proof.
  unfold remain_step. rewrite tie_break_eq.
  repeat match goal with
         | |- context [match ?x with _ => _ end] => destruct x
         | |- context [if ?x then _ else _] => destruct x
         end;
    cbn [bind]; intros H;
    repeat match goal with
           | H : bind ?m _ = Ret _ |- _ =>
               apply bind_Ret_inv in H; destruct H as [? [? H]]
           end;
    try discriminate;
    injection H as <-; cbn [st_left st_right]; lia.
Qed.

(** The recursive call answers on every pair that the loop hands to it. *)
Hypothesis rec_total : forall o n,
    (exists u, In u oldChildren /\ In o (ensureArray u)) ->
    isTextNode (Single o) = false ->
    node_type o = node_type n ->
    exists r, rec o n = Ret r.

Lemma remain_step_total (s : RemainState) :
  remain_guard oldChildren newChildren s = true ->
  exists s', remain_step diff_main rec oldChildren newChildren s = Ret s'.
Proof.
  unfold remain_guard. intros G.
  apply andb_true_iff in G. destruct G as [G1 G2].
  apply Nat.ltb_lt in G1. apply Nat.ltb_lt in G2.
  assert (HL : In (unit_at oldChildren (st_left s)) oldChildren)
    by (apply unit_at_In; lia).
  assert (HR : In (unit_at oldChildren (List.length oldChildren - st_right s - 1))
                  oldChildren)
    by (apply unit_at_In; lia).
  unfold remain_step. rewrite tie_break_eq.
  destruct (unit_at oldChildren (st_left s)) as [lo | lo] eqn:ELo;
    destruct (unit_at newChildren (st_left s)) as [ln | ln] eqn:ELn.
  - (* two single nodes on the left *)
    destruct (negb (isTextNode (Single lo)) && matchNodeType (Single lo) (Single ln))
             eqn:UL; cbn [negb andb].
    + apply andb_true_iff in UL. destruct UL as [TL UL].
      apply negb_true_iff in TL.
      destruct (rec_total lo ln) as [r Hr].
      * exists (Single lo). split; [exact HL | left; reflexivity].
      * exact TL.
      * apply matchNodeType_Single. exact UL.
      * rewrite Hr. eexists. reflexivity.
    + destruct (unit_at oldChildren (List.length oldChildren - st_right s - 1))
        as [ro | ro] eqn:ERo;
        destruct (unit_at newChildren (List.length newChildren - st_right s - 1))
        as [rn | rn] eqn:ERn.
      * destruct (negb (isTextNode (Single ro))
                  && matchNodeType (Single ro) (Single rn)) eqn:UR.
        -- apply andb_true_iff in UR. destruct UR as [TR UR].
           apply negb_true_iff in TR.
           destruct (rec_total ro rn) as [r Hr].
           ++ exists (Single ro). split; [exact HR | left; reflexivity].
           ++ exact TR.
           ++ apply matchNodeType_Single. exact UR.
           ++ rewrite Hr. eexists. reflexivity.
        -- rewrite !createDiffNode_annotated by auto. eexists. reflexivity.
      * cbn. rewrite andb_false_r.
        rewrite !createDiffNode_annotated by auto. eexists. reflexivity.
      * cbn.
        rewrite !createDiffNode_annotated by auto. eexists. reflexivity.
      * cbn. eexists. reflexivity.
  - (* a single node against a group *)
    cbn. rewrite andb_false_r. cbn.
    destruct (negb (isTextNode (unit_at oldChildren (List.length oldChildren - st_right s - 1)))
              && matchNodeType
                   (unit_at oldChildren (List.length oldChildren - st_right s - 1))
                   (unit_at newChildren (List.length newChildren - st_right s - 1)))
             eqn:UR.
    + destruct (unit_at oldChildren (List.length oldChildren - st_right s - 1))
        as [ro | ro] eqn:ERo;
        destruct (unit_at newChildren (List.length newChildren - st_right s - 1))
        as [rn | rn] eqn:ERn; try (eexists; reflexivity).
      apply andb_true_iff in UR. destruct UR as [TR UR].
      apply negb_true_iff in TR.
      destruct (rec_total ro rn) as [r Hr].
      * exists (Single ro). split; [exact HR | left; reflexivity].
      * exact TR.
      * apply matchNodeType_Single. exact UR.
      * rewrite Hr. eexists. reflexivity.
    + rewrite !createDiffNode_annotated by auto. eexists. reflexivity.
  - (* a group against a single node *)
    cbn.
    destruct (negb (isTextNode (unit_at oldChildren (List.length oldChildren - st_right s - 1)))
              && matchNodeType
                   (unit_at oldChildren (List.length oldChildren - st_right s - 1))
                   (unit_at newChildren (List.length newChildren - st_right s - 1)))
             eqn:UR.
    + destruct (unit_at oldChildren (List.length oldChildren - st_right s - 1))
        as [ro | ro] eqn:ERo;
        destruct (unit_at newChildren (List.length newChildren - st_right s - 1))
        as [rn | rn] eqn:ERn; try (eexists; reflexivity).
      apply andb_true_iff in UR. destruct UR as [TR UR].
      apply negb_true_iff in TR.
      destruct (rec_total ro rn) as [r Hr].
      * exists (Single ro). split; [exact HR | left; reflexivity].
      * exact TR.
      * apply matchNodeType_Single. exact UR.
      * rewrite Hr. eexists. reflexivity.
    + rewrite !createDiffNode_annotated by auto. eexists. reflexivity.
  - (* two groups *)
    destruct (patchTextNodes_total diff_main lo ln) as [res Hres].
    rewrite Hres. eexists. reflexivity.
Qed.
End RemainStep.

(** ** The loop of [patchRemainNodes] ends and answers *)

Section RemainLoop.
Variable diff_main : list N -> list N -> list (DiffTypeValue * list N).
Variable rec : Node -> Node -> outcome Node.
Variables oldChildren newChildren : NormalizedNodeContent.

Hypothesis rec_total : forall o n,
    (exists u, In u oldChildren /\ In o (ensureArray u)) ->
    isTextNode (Single o) = false ->
    node_type o = node_type n ->
    exists r, rec o n = Ret r.

Lemma remain_loop_total (budget : nat) (s : RemainState) :
  List.length oldChildren <= budget + (st_left s + st_right s) ->
  exists s', remain_loop diff_main rec oldChildren newChildren budget s = Ret s'
             /\ remain_guard oldChildren newChildren s' = false
             /\ st_left s + st_right s <= st_left s' + st_right s'
             /\ st_left s <= st_left s'.
Proof.
  revert s. induction budget as [|b IH]; intros s Hb.
  - cbn [remain_loop].
    destruct (remain_guard oldChildren newChildren s) eqn:G.
    + unfold remain_guard in G. apply andb_true_iff in G. destruct G as [G _].
      apply Nat.ltb_lt in G. lia.
    + exists s. repeat split; auto.
  - cbn [remain_loop].
    destruct (remain_guard oldChildren newChildren s) eqn:G.
    + destruct (remain_step_total diff_main rec oldChildren newChildren rec_total s G)
        as [s1 Hs1].
      rewrite Hs1. cbn [bind].
      pose proof (remain_step_advances _ _ _ _ _ _ Hs1) as Hadv.
      destruct (IH s1) as [s' [Hs' [G' [Hsum Hleft]]]]; [lia|].
      exists s'. repeat split; auto; lia.
    + exists s. repeat split; auto.
Qed.

Lemma patchRemainNodes_with_total :
  exists res, patchRemainNodes_with diff_main rec oldChildren newChildren = Ret res.
Proof.
  unfold patchRemainNodes_with.
  destruct (remain_loop_total (List.length oldChildren) (mkRemain 0 0 [] []))
    as [s [Hs _]]; [cbn; lia|].
  rewrite Hs. cbn [bind].
  rewrite !annotate_all_total by auto.
  repeat match goal with
         | |- context [if ?x then _ else _] => destruct x
         end; cbn [bind]; eexists; reflexivity.
Qed.
End RemainLoop.

(** ** The patcher answers on two nodes of one type, the old one no text leaf *)

Lemma patchDocumentNode_type_mismatch diff_main (fuel : nat) (oldNode newNode : Node) :
  node_type oldNode <> node_type newNode ->
  patchDocumentNode diff_main (S fuel) oldNode newNode
  = Throw ("node type not equal: " ++ node_type oldNode ++ " !== " ++ node_type newNode).
Proof.
  intros H. cbn [patchDocumentNode]. unfold patchDocumentNode_with, assertNodeTypeEqual.
  destruct (String.eqb (node_type oldNode) (node_type newNode)) eqn:E.
  - apply String.eqb_eq in E. contradiction.
  - reflexivity.
Qed.

(** [createNewNode] answers on every node that is no text leaf, and
    throws on a text leaf. *)
Lemma createNewNode_Ret (oldNode : Node) (children : list Node) :
  isTextNode (Single oldNode) = false ->
  createNewNode oldNode children
  = Ret (mkNode (node_type oldNode) (node_attrs oldNode) (node_marks oldNode)
                children None).
Proof.
  cbn [isTextNode]. intros HT. unfold createNewNode, type_create. rewrite HT. reflexivity.
Qed.

Lemma createNewNode_text (oldNode : Node) (children : list Node) :
  isTextNode (Single oldNode) = true ->
  createNewNode oldNode children = Throw "NodeType.create can't construct text nodes".
Proof.
  cbn [isTextNode]. intros HT. unfold createNewNode, type_create. rewrite HT. reflexivity.
Qed.

Lemma createNewNode_Ret_inv (oldNode R : Node) (children : list Node) :
  createNewNode oldNode children = Ret R ->
  isTextNode (Single oldNode) = false
  /\ R = mkNode (node_type oldNode) (node_attrs oldNode) (node_marks oldNode)
               children None.
Proof.
  destruct (isTextNode (Single oldNode)) eqn:HT; intros H.
  - rewrite createNewNode_text in H by exact HT. discriminate.
  - rewrite createNewNode_Ret in H by exact HT. injection H as <-. split; reflexivity.
Qed.

Lemma patchDocumentNode_shape diff_main (fuel : nat) (oldNode newNode R : Node) :
  patchDocumentNode diff_main fuel oldNode newNode = Ret R ->
  isTextNode (Single oldNode) = false
  /\ exists children,
      R = mkNode (node_type oldNode) (node_attrs oldNode) (node_marks oldNode)
                 children None.
Proof.
  destruct fuel as [|fuel]; cbn [patchDocumentNode]; intros H; [discriminate|].
  unfold patchDocumentNode_with in H. apply bind_Ret_inv in H. destruct H as [_ [_ H]].
  apply bind_Ret_inv in H. destruct H as [final [_ H]].
  apply createNewNode_Ret_inv in H. destruct H as [HT ->].
  split; [exact HT|]. eexists. reflexivity.
Qed.

(** With fuel for the height of the old node, the patcher on two nodes of
    one type reaches its last line: its answer is that of
    [createNewNode]. *)
Lemma patchDocumentNode_answers diff_main (fuel : nat) :
  forall oldNode newNode,
    height oldNode <= fuel ->
    node_type oldNode = node_type newNode ->
    exists children,
      patchDocumentNode diff_main fuel oldNode newNode = createNewNode oldNode children.
Proof.
  induction fuel as [|fuel IH]; intros oldNode newNode Hh Ht.
  - destruct oldNode. simpl in Hh. lia.
  - cbn [patchDocumentNode]. unfold patchDocumentNode_with, assertNodeTypeEqual.
    rewrite Ht, String.eqb_refl. cbn [negb bind].
    set (oldChildren := normalizeNodeContent oldNode).
    set (newChildren := normalizeNodeContent newNode).
    set (left := fst (prefix_trim oldChildren newChildren _ 0 [])).
    set (finalLeft := snd (prefix_trim oldChildren newChildren _ 0 [])).
    set (right := fst (suffix_trim oldChildren newChildren left _ 0 [])).
    set (finalRight := snd (suffix_trim oldChildren newChildren left _ 0 [])).
    set (diffOld := slice left (List.length oldChildren - right) oldChildren).
    set (diffNew := slice left (List.length newChildren - right) newChildren).
    assert (Hrec : forall sub : NormalizedNodeContent,
               (forall u, In u sub -> In u oldChildren) ->
               forall newSub, exists res,
                 patchRemainNodes_with diff_main (patchDocumentNode diff_main fuel)
                                       sub newSub = Ret res).
    { intros sub Hsub newSub. apply patchRemainNodes_with_total.
      intros o n [u [Hu Ho]] HTo Hty.
      destruct (IH o n) as [children Hc]; [|exact Hty|].
      - assert (Hin : In o (node_content oldNode)).
        { apply (In_normalize_list _ u); [apply Hsub; exact Hu | exact Ho]. }
        destruct oldNode as [t a m c x]. cbn [node_content] in Hin.
        pose proof (height_child t a m c x o Hin). lia.
      - rewrite Hc, createNewNode_Ret by exact HTo. eexists. reflexivity. }
    assert (HdiffOld : forall u, In u diffOld -> In u oldChildren)
      by (intros u; apply In_slice).
    destruct (negb (List.length diffOld =? 0) && negb (List.length diffNew =? 0)).
    + destruct (bestMatch diffOld diffNew) as [[os ns oe ne c]|].
      * destruct (Hrec (slice 0 os diffOld)) with (newSub := slice 0 ns diffNew)
          as [before Hbefore].
        { intros u Hu. apply HdiffOld. apply In_slice in Hu. exact Hu. }
        rewrite Hbefore. cbn [bind].
        destruct (Hrec (skipn oe diffOld)) with (newSub := skipn ne diffNew)
          as [after Hafter].
        { intros u Hu. apply HdiffOld. apply In_skipn_list in Hu. exact Hu. }
        rewrite Hafter. cbn [bind]. eexists. reflexivity.
      * destruct (Hrec diffOld HdiffOld diffNew) as [rest Hrest].
        rewrite Hrest. cbn [bind]. eexists. reflexivity.
    + destruct (Hrec diffOld HdiffOld diffNew) as [rest Hrest].
      rewrite Hrest. cbn [bind]. eexists. reflexivity.
Qed.

Lemma patchDocumentNode_total diff_main (fuel : nat) :
  forall oldNode newNode,
    height oldNode <= fuel ->
    isTextNode (Single oldNode) = false ->
    node_type oldNode = node_type newNode ->
    exists R, patchDocumentNode diff_main fuel oldNode newNode = Ret R.
Proof.
  intros oldNode newNode Hh HT Ht.
  destruct (patchDocumentNode_answers diff_main fuel oldNode newNode Hh Ht)
    as [children Hc].
  rewrite Hc, createNewNode_Ret by exact HT. eexists. reflexivity.
Qed.

(** On a text leaf the patcher throws: the library builds no node of the
    text type from children. *)
Lemma patchDocumentNode_text_root diff_main (fuel : nat) (oldNode newNode : Node) :
  height oldNode <= fuel ->
  isTextNode (Single oldNode) = true ->
  node_type oldNode = node_type newNode ->
  patchDocumentNode diff_main fuel oldNode newNode
  = Throw "NodeType.create can't construct text nodes".
Proof.
  intros Hh HT Ht.
  destruct (patchDocumentNode_answers diff_main fuel oldNode newNode Hh Ht)
    as [children Hc].
  rewrite Hc. apply createNewNode_text. exact HT.
Qed.

(** ** More fuel does not change an answer *)

Lemma fuel_le_refl {A : Type} (a : outcome A) : fuel_le a a.
Proof. right. reflexivity. Qed.

Lemma fuel_le_bind {A B : Type} (m1 m2 : outcome A) (k1 k2 : A -> outcome B) :
  fuel_le m1 m2 -> (forall a, fuel_le (k1 a) (k2 a)) -> fuel_le (bind m1 k1) (bind m2 k2).
Proof.
  intros [-> | ->] Hk; [left; reflexivity|].
  destruct m2 as [a| |]; cbn [bind]; [apply Hk | right; reflexivity | left; reflexivity].
Qed.

Section FuelOrder.
Variable diff_main : list N -> list N -> list (DiffTypeValue * list N).
Variables rec1 rec2 : Node -> Node -> outcome Node.
Hypothesis rec_le : forall o n, fuel_le (rec1 o n) (rec2 o n).

Lemma remain_step_fuel_le (oldChildren newChildren : NormalizedNodeContent)
      (s : RemainState) :
  fuel_le (remain_step diff_main rec1 oldChildren newChildren s)
          (remain_step diff_main rec2 oldChildren newChildren s).
Proof.
  unfold remain_step.
  repeat match goal with
         | |- context [match ?x with _ => _ end] => destruct x
         end;
    try apply fuel_le_refl;
    (apply fuel_le_bind; [apply rec_le | intros a; apply fuel_le_refl]).
Qed.

Lemma remain_loop_fuel_le (oldChildren newChildren : NormalizedNodeContent)
      (budget : nat) (s : RemainState) :
  fuel_le (remain_loop diff_main rec1 oldChildren newChildren budget s)
          (remain_loop diff_main rec2 oldChildren newChildren budget s).
Proof.
  revert s. induction budget as [|b IH]; intros s; cbn [remain_loop];
    destruct (remain_guard oldChildren newChildren s); try apply fuel_le_refl.
  apply fuel_le_bind; [apply remain_step_fuel_le | exact IH].
Qed.

Lemma patchRemainNodes_with_fuel_le (oldChildren newChildren : NormalizedNodeContent) :
  fuel_le (patchRemainNodes_with diff_main rec1 oldChildren newChildren)
          (patchRemainNodes_with diff_main rec2 oldChildren newChildren).
Proof.
  unfold patchRemainNodes_with.
  apply fuel_le_bind; [apply remain_loop_fuel_le | intros s; apply fuel_le_refl].
Qed.
End FuelOrder.

Lemma patchDocumentNode_fuel_S diff_main (fuel : nat) :
  forall oldNode newNode,
    fuel_le (patchDocumentNode diff_main fuel oldNode newNode)
            (patchDocumentNode diff_main (S fuel) oldNode newNode).
Proof.
  induction fuel as [|fuel IH]; intros oldNode newNode; [left; reflexivity|].
  cbn [patchDocumentNode]. unfold patchDocumentNode_with.
  apply fuel_le_bind; [apply fuel_le_refl | intros _].
  apply fuel_le_bind; [|intros a; apply fuel_le_refl].
  destruct (negb _ && negb _).
  - destruct (bestMatch _ _) as [[os ns oe ne c]|].
    + apply fuel_le_bind; [apply patchRemainNodes_with_fuel_le; exact IH | intros before].
      apply fuel_le_bind; [apply patchRemainNodes_with_fuel_le; exact IH | intros after].
      apply fuel_le_refl.
    + apply fuel_le_bind; [apply patchRemainNodes_with_fuel_le; exact IH | intros rest].
      apply fuel_le_refl.
  - apply fuel_le_bind; [apply patchRemainNodes_with_fuel_le; exact IH | intros rest].
    apply fuel_le_refl.
Qed.

Lemma patchDocumentNode_fuel_mono diff_main (fuel fuel' : nat) (oldNode newNode : Node) :
  fuel <= fuel' ->
  fuel_le (patchDocumentNode diff_main fuel oldNode newNode)
          (patchDocumentNode diff_main fuel' oldNode newNode).
Proof.
  induction 1 as [|fuel' _ IH]; [apply fuel_le_refl|].
  destruct IH as [E | E]; [left; exact E|].
  rewrite E. apply patchDocumentNode_fuel_S.
Qed.

(** With the fuel of [diffEditor] the patcher never stops for lack of
    fuel, and any greater fuel gives the answer of [diffEditor]. *)
Lemma diffEditor_fuel diff_main (oldNode newNode : Node) (fuel : nat) :
  S (height oldNode) <= fuel ->
  diffEditor diff_main oldNode newNode <> Fuel
  /\ patchDocumentNode diff_main fuel oldNode newNode
     = diffEditor diff_main oldNode newNode.
Proof.
  intros Hf.
  assert (HN : diffEditor diff_main oldNode newNode <> Fuel).
  { unfold diffEditor.
    destruct (String.eqb (node_type oldNode) (node_type newNode)) eqn:E.
    - apply String.eqb_eq in E.
      destruct (patchDocumentNode_answers diff_main (S (height oldNode)) oldNode newNode)
        as [children HR]; [lia | exact E |]. rewrite HR.
      destruct (isTextNode (Single oldNode)) eqn:HT.
      + rewrite createNewNode_text by exact HT. discriminate.
      + rewrite createNewNode_Ret by exact HT. discriminate.
    - rewrite patchDocumentNode_type_mismatch; [discriminate|].
      intros H. rewrite H, String.eqb_refl in E. discriminate. }
  split; [exact HN|].
  destruct (patchDocumentNode_fuel_mono diff_main _ fuel oldNode newNode Hf) as [E | E].
  - contradiction.
  - symmetry. exact E.
Qed.

(** ** Prefix and suffix trim *)

Lemma prefix_trim_bounds (oldChildren newChildren : NormalizedNodeContent)
      (budget left : nat) (acc : list Node) :
  left <= Nat.min (List.length oldChildren) (List.length newChildren) ->
  left <= fst (prefix_trim oldChildren newChildren budget left acc)
  /\ fst (prefix_trim oldChildren newChildren budget left acc)
     <= Nat.min (List.length oldChildren) (List.length newChildren).
Proof.
  revert left acc. induction budget as [|b IH]; intros left acc H; cbn [prefix_trim].
  - cbn [fst]. lia.
  - destruct (left <? Nat.min (List.length oldChildren) (List.length newChildren)) eqn:G;
      [|cbn [fst]; lia].
    apply Nat.ltb_lt in G.
    destruct (negb (isNodeEqual (unit_at oldChildren left) (unit_at newChildren left)));
      [cbn [fst]; lia|].
    destruct (IH (S left) (acc ++ ensureArray (unit_at oldChildren left))); lia.
Qed.

Lemma suffix_trim_bounds (oldChildren newChildren : NormalizedNodeContent)
      (left budget right : nat) (acc : list Node) :
  fst (suffix_trim oldChildren newChildren left budget right acc) = right
  \/ fst (suffix_trim oldChildren newChildren left budget right acc) + left
     < Nat.min (List.length oldChildren) (List.length newChildren).
Proof.
  revert right acc. induction budget as [|b IH]; intros right acc; cbn [suffix_trim].
  - left. reflexivity.
  - destruct (right + left + 1 <? Nat.min (List.length oldChildren) (List.length newChildren))
             eqn:G; [|left; reflexivity].
    apply Nat.ltb_lt in G.
    destruct (negb (isNodeEqual _ _)); [left; reflexivity|].
    destruct (IH (S right) (ensureArray
                 (unit_at oldChildren (List.length oldChildren - right - 1)) ++ acc))
      as [E | L].
    + right. rewrite E. lia.
    + right. exact L.
Qed.

(** C8: the prefix trim and the suffix trim of [patchDocumentNode] never
    overlap ([left + right] stays within the shorter children list), and
    when the prefix trim stops before the end of the shorter list,
    [left + right < minChildLen] and both middle slices keep at least one
    normalized unit. *)
Theorem trims_never_overlap (oldChildren newChildren : NormalizedNodeContent) :
  let oldChildLen := List.length oldChildren in
  let newChildLen := List.length newChildren in
  let minChildLen := Nat.min oldChildLen newChildLen in
  let left := fst (prefix_trim oldChildren newChildren minChildLen 0 []) in
  let right := fst (suffix_trim oldChildren newChildren left minChildLen 0 []) in
  left + right <= minChildLen
  /\ (left < minChildLen ->
      left + right < minChildLen
      /\ 1 <= List.length (slice left (oldChildLen - right) oldChildren)
      /\ 1 <= List.length (slice left (newChildLen - right) newChildren)).
Proof.
  intros oldChildLen newChildLen minChildLen left right.
  assert (HL : left <= minChildLen).
  { apply (prefix_trim_bounds oldChildren newChildren minChildLen 0 []). lia. }
  assert (HR : right = 0 \/ right + left < minChildLen).
  { apply (suffix_trim_bounds oldChildren newChildren left minChildLen 0 []). }
  split; [lia|].
  intros Hlt. rewrite !slice_length.
  fold oldChildLen newChildLen. unfold minChildLen in *. lia.
Qed.

Lemma trims_never_overlap_witness :
  let oldChildren := [Single image; Single hard_break; Single image] in
  let newChildren := [Single image; Single image; Single image] in
  let left := fst (prefix_trim oldChildren newChildren 3 0 []) in
  let right := fst (suffix_trim oldChildren newChildren left 3 0 []) in
  left = 1 /\ right = 1
  /\ left + right < 3
  /\ 1 <= List.length (slice left (3 - right) oldChildren)
  /\ 1 <= List.length (slice left (3 - right) newChildren).
Proof.
  intros oldChildren newChildren left right.
  split; [reflexivity|]. split; [reflexivity|].
  apply (trims_never_overlap oldChildren newChildren).
  vm_compute. lia.
Defined.

(** ** Type mismatch *)

(** C5: on two top-level nodes whose types differ, [patchDocumentNode]
    throws the error that names both types and never returns a tree. *)
Theorem patchDocumentNode_type_mismatch_throws
        (diff_main : list N -> list N -> list (DiffTypeValue * list N))
        (oldNode newNode : Node) :
  node_type oldNode <> node_type newNode ->
  diffEditor diff_main oldNode newNode
  = Throw ("node type not equal: " ++ node_type oldNode ++ " !== " ++ node_type newNode)
  /\ (forall fuel,
         patchDocumentNode diff_main (S fuel) oldNode newNode
         = Throw ("node type not equal: "
                    ++ node_type oldNode ++ " !== " ++ node_type newNode))
  /\ (forall fuel R, patchDocumentNode diff_main fuel oldNode newNode <> Ret R).
Proof.
  intros H. split; [|split].
  - unfold diffEditor. apply patchDocumentNode_type_mismatch. exact H.
  - intros fuel. apply patchDocumentNode_type_mismatch. exact H.
  - intros [|fuel] R.
    + discriminate.
    + rewrite patchDocumentNode_type_mismatch by exact H. discriminate.
Qed.

Lemma patchDocumentNode_type_mismatch_throws_witness :
  diffEditor prefix_diff (paragraph [text_leaf "A"]) (mkNode "doc" [] [] [] None)
  = Throw "node type not equal: paragraph !== doc".
Proof.
  apply (patchDocumentNode_type_mismatch_throws
           prefix_diff (paragraph [text_leaf "A"]) (mkNode "doc" [] [] [] None)).
  vm_compute. discriminate.
Defined.

(** ** What the merged node keeps *)

(** C9: on two nodes of one type, the old one no text leaf (a text leaf
    has no child content to merge, and [createNewNode] throws on it),
    [patchDocumentNode] returns a merged node that carries the old node's
    type, attributes and marks, and no text of its own, as the old node
    has none when it is a node of the data model: only the child content
    of the merged node is computed by the diff. *)
Theorem patchDocumentNode_keeps_type_attrs_marks
        (diff_main : list N -> list N -> list (DiffTypeValue * list N))
        (oldNode newNode : Node) :
  isTextNode (Single oldNode) = false ->
  node_type oldNode = node_type newNode ->
  (exists R, diffEditor diff_main oldNode newNode = Ret R)
  /\ (forall fuel R,
         patchDocumentNode diff_main fuel oldNode newNode = Ret R ->
         node_type R = node_type oldNode
         /\ node_attrs R = node_attrs oldNode
         /\ node_marks R = node_marks oldNode
         /\ node_text R = None
         /\ (well_formed oldNode = true -> node_text R = node_text oldNode)
         /\ R = mkNode (node_type oldNode) (node_attrs oldNode) (node_marks oldNode)
                       (node_content R) None).
Proof.
  intros HT Ht. split.
  - unfold diffEditor. apply patchDocumentNode_total; [lia | exact HT | exact Ht].
  - intros fuel R HR.
    destruct (patchDocumentNode_shape _ _ _ _ _ HR) as [_ [children ->]].
    cbn [node_type node_attrs node_marks node_text node_content].
    repeat split.
    intros W. destruct oldNode as [t a m c x].
    cbn [isTextNode node_type] in HT. cbn [well_formed] in W. rewrite HT in W.
    cbn [node_text]. destruct x; [discriminate W | reflexivity].
Qed.

Lemma patchDocumentNode_keeps_type_attrs_marks_witness :
  let oldNode := mkNode "heading" [("level"%string, ANum 2)]
                        [mkMark "bold" []] [text_leaf "Old title."] None in
  let newNode := mkNode "heading" [("level"%string, ANum 3)]
                        [] [text_leaf "New title."] None in
  (exists R, diffEditor prefix_diff oldNode newNode = Ret R)
  /\ (forall fuel R,
         patchDocumentNode prefix_diff fuel oldNode newNode = Ret R ->
         node_type R = "heading"%string
         /\ node_attrs R = [("level"%string, ANum 2)]
         /\ node_marks R = [mkMark "bold" []]
         /\ node_text R = None
         /\ node_text R = node_text oldNode
         /\ R = mkNode "heading" [("level"%string, ANum 2)] [mkMark "bold" []]
                       (node_content R) None).
Proof.
  intros oldNode newNode.
  destruct (patchDocumentNode_keeps_type_attrs_marks prefix_diff oldNode newNode)
    as [H1 H2]; [reflexivity | reflexivity |].
  split; [exact H1|]. intros fuel R HR.
  destruct (H2 fuel R HR) as [Ht [Ha [Hm [Hx [Hw HR']]]]].
  split; [exact Ht|]. split; [exact Ha|]. split; [exact Hm|]. split; [exact Hx|].
  split; [apply Hw; reflexivity | exact HR'].
Defined.

(** ** The delete-and-insert branch on a group against a single node *)

(** C10: in the loop of [patchRemainNodes], when the left old unit is a
    text-run group and the left new unit a single node (or the other way
    round) and the right pair is not updatable either, the iteration emits
    the single node with its annotation and nothing for the group: the
    left accumulator grows by exactly one node, the single node with the
    diff mark of Inserted (of Deleted, the other way round) on every text
    leaf below it, the right accumulator is unchanged, and the left
    pointer advances past the group.  On a group against a single node as
    the whole residual lists, the output of [patchRemainNodes] is that
    annotated node alone: no leaf of the group is in it, marked or not. *)
Theorem remain_step_group_against_single
        (diff_main : list N -> list N -> list (DiffTypeValue * list N))
        (rec : Node -> Node -> outcome Node)
        (oldChildren newChildren : NormalizedNodeContent)
        (s : RemainState) (group : list Node) (node : Node) :
  (let rightOldNode := unit_at oldChildren (List.length oldChildren - st_right s - 1) in
   let rightNewNode := unit_at newChildren (List.length newChildren - st_right s - 1) in
   negb (isTextNode rightOldNode) && matchNodeType rightOldNode rightNewNode = false ->
   (unit_at oldChildren (st_left s) = Group group ->
    unit_at newChildren (st_left s) = Single node ->
    createDiffNode node Inserted = Ret (annotated Inserted node)
    /\ remain_step diff_main rec oldChildren newChildren s
       = Ret (mkRemain (st_left s + 1) (st_right s)
                       (st_finalLeftChildren s ++ [annotated Inserted node])
                       (st_finalRightChildren s)))
   /\ (unit_at oldChildren (st_left s) = Single node ->
       unit_at newChildren (st_left s) = Group group ->
       createDiffNode node Deleted = Ret (annotated Deleted node)
       /\ remain_step diff_main rec oldChildren newChildren s
          = Ret (mkRemain (st_left s + 1) (st_right s)
                          (st_finalLeftChildren s ++ [annotated Deleted node])
                          (st_finalRightChildren s))))
  /\ patchRemainNodes_with diff_main rec [Group group] [Single node]
     = Ret [annotated Inserted node]
  /\ patchRemainNodes_with diff_main rec [Single node] [Group group]
     = Ret [annotated Deleted node].
Proof.
  split; [|split].
  - intros rightOldNode rightNewNode UR. split; intros HO HN.
    + split; [apply createDiffNode_annotated; auto|].
      unfold remain_step. rewrite tie_break_eq, HO, HN.
      fold rightOldNode rightNewNode. rewrite UR. cbn.
      rewrite createDiffNode_annotated by auto. reflexivity.
    + split; [apply createDiffNode_annotated; auto|].
      unfold remain_step. rewrite tie_break_eq, HO, HN.
      fold rightOldNode rightNewNode. rewrite UR. cbn. rewrite andb_false_r. cbn.
      rewrite createDiffNode_annotated by auto. reflexivity.
  - unfold patchRemainNodes_with. cbn [List.length remain_loop remain_guard st_left st_right].
    cbn [Nat.add Nat.ltb Nat.leb andb]. unfold remain_step. rewrite tie_break_eq.
    cbn. rewrite createDiffNode_annotated by auto. reflexivity.
  - unfold patchRemainNodes_with. cbn [List.length remain_loop remain_guard st_left st_right].
    cbn [Nat.add Nat.ltb Nat.leb andb]. unfold remain_step. rewrite tie_break_eq.
    cbn. rewrite andb_false_r. cbn.
    rewrite createDiffNode_annotated by auto. reflexivity.
Qed.

Lemma remain_step_group_against_single_witness :
  let quote := mkNode "blockquote" [] []
                      [paragraph [mkNode "text" [] [mkMark "bold" []] [] (Some "World."%string)];
                       image] None in
  let marked (A : DiffTypeValue) :=
    mkNode "blockquote" [] []
           [paragraph [mkNode "text" [] [mkMark "bold" []; diffMark A] []
                              (Some "World."%string)];
            image] None in
  remain_step prefix_diff (patchDocumentNode prefix_diff 1)
              [Group [text_leaf "Hello"]; Single image]
              [Single quote; Single hard_break] (mkRemain 0 0 [] [])
  = Ret (mkRemain 1 0 [marked Inserted] [])
  /\ remain_step prefix_diff (patchDocumentNode prefix_diff 1)
                 [Single quote; Single hard_break]
                 [Group [text_leaf "Hello"]; Single image] (mkRemain 0 0 [] [])
     = Ret (mkRemain 1 0 [marked Deleted] [])
  /\ patchRemainNodes_with prefix_diff (patchDocumentNode prefix_diff 1)
                           [Group [text_leaf "Hello"]] [Single quote]
     = Ret [marked Inserted]
  /\ patchRemainNodes_with prefix_diff (patchDocumentNode prefix_diff 1)
                           [Single quote] [Group [text_leaf "Hello"]]
     = Ret [marked Deleted].
Proof.
  intros quote marked.
  split; [|split].
  - destruct (remain_step_group_against_single
                prefix_diff (patchDocumentNode prefix_diff 1)
                [Group [text_leaf "Hello"]; Single image]
                [Single quote; Single hard_break] (mkRemain 0 0 [] [])
                [text_leaf "Hello"] quote) as [H _].
    destruct H as [H _]; [reflexivity|].
    destruct H as [_ H]; [reflexivity | reflexivity |]. exact H.
  - destruct (remain_step_group_against_single
                prefix_diff (patchDocumentNode prefix_diff 1)
                [Single quote; Single hard_break]
                [Group [text_leaf "Hello"]; Single image] (mkRemain 0 0 [] [])
                [text_leaf "Hello"] quote) as [H _].
    destruct H as [_ H]; [reflexivity|].
    destruct H as [_ H]; [reflexivity | reflexivity |]. exact H.
  - destruct (remain_step_group_against_single
                prefix_diff (patchDocumentNode prefix_diff 1)
                [Group [text_leaf "Hello"]] [Single quote] (mkRemain 0 0 [] [])
                [text_leaf "Hello"] quote) as [_ [HI HD]].
    split; [exact HI | exact HD].
Defined.

(** ** The tie-break and the progress of the loop *)

(** C6: [computeChildEqualityFactor] answers [0] on all inputs; when the
    left pair and the right pair are both updatable the left pair is
    patched and the right pointer stays; every iteration of the loop
    advances exactly one of the two pointers by one; and
    [patchRemainNodes] ends with a result, without throwing, on all inputs
    (the fuel covering the height of the old units).  Whatever the left
    pair is, two raised flags make the iteration advance the left pointer
    and leave the right pointer and the right accumulator as they are. *)
Theorem patchRemainNodes_progress
        (diff_main : list N -> list N -> list (DiffTypeValue * list N)) :
  (forall node1 node2, computeChildEqualityFactor node1 node2 = 0%Z)
  /\ (forall rec oldChildren newChildren s leftOldNode leftNewNode,
         let rightOldNode :=
           unit_at oldChildren (List.length oldChildren - st_right s - 1) in
         let rightNewNode :=
           unit_at newChildren (List.length newChildren - st_right s - 1) in
         unit_at oldChildren (st_left s) = Single leftOldNode ->
         unit_at newChildren (st_left s) = Single leftNewNode ->
         negb (isTextNode (Single leftOldNode))
         && matchNodeType (Single leftOldNode) (Single leftNewNode) = true ->
         negb (isTextNode rightOldNode) && matchNodeType rightOldNode rightNewNode = true ->
         tie_break (Single leftOldNode) (Single leftNewNode) rightOldNode rightNewNode
         = (true, false)
         /\ remain_step diff_main rec oldChildren newChildren s
            = (p <- rec leftOldNode leftNewNode ;;
               Ret (mkRemain (st_left s + 1) (st_right s)
                             (st_finalLeftChildren s ++ [p])
                             (st_finalRightChildren s))))
  /\ (forall rec oldChildren newChildren s s',
         let leftOldNode := unit_at oldChildren (st_left s) in
         let leftNewNode := unit_at newChildren (st_left s) in
         let rightOldNode :=
           unit_at oldChildren (List.length oldChildren - st_right s - 1) in
         let rightNewNode :=
           unit_at newChildren (List.length newChildren - st_right s - 1) in
         negb (isTextNode leftOldNode) && matchNodeType leftOldNode leftNewNode = true ->
         negb (isTextNode rightOldNode) && matchNodeType rightOldNode rightNewNode = true ->
         remain_step diff_main rec oldChildren newChildren s = Ret s' ->
         st_left s' = S (st_left s)
         /\ st_right s' = st_right s
         /\ st_finalRightChildren s' = st_finalRightChildren s)
  /\ (forall rec oldChildren newChildren s s',
         remain_step diff_main rec oldChildren newChildren s = Ret s' ->
         (st_left s' = S (st_left s) /\ st_right s' = st_right s)
         \/ (st_left s' = st_left s /\ st_right s' = S (st_right s)))
  /\ (forall fuel oldChildren newChildren,
         units_height oldChildren <= fuel ->
         exists res, patchRemainNodes diff_main fuel oldChildren newChildren = Ret res).
Proof.
  split; [reflexivity|]. split; [|split; [|split]].
  - intros rec oldChildren newChildren s lo ln ro rn HO HN UL UR.
    split.
    + rewrite tie_break_eq, UL, UR. reflexivity.
    + unfold remain_step. rewrite tie_break_eq, HO, HN.
      fold ro rn. rewrite UL. reflexivity.
  - intros rec oldChildren newChildren s s' lo ln ro rn UL UR.
    unfold remain_step. rewrite tie_break_eq.
    fold lo ln ro rn. rewrite UL. cbn [negb andb]. clear UR.
    destruct lo as [o | o]; destruct ln as [n | n];
      cbn [matchNodeType] in UL; rewrite ?andb_false_r in UL; try discriminate UL;
      intros H; apply bind_Ret_inv in H; destruct H as [x [_ H]];
      injection H as <-; cbn [st_left st_right st_finalRightChildren];
      repeat split; lia.
  - intros rec oldChildren newChildren s s'. apply remain_step_advances.
  - intros fuel oldChildren newChildren Hh. unfold patchRemainNodes.
    apply patchRemainNodes_with_total.
    intros o n [u [Hu Ho]] HTo Hty.
    apply patchDocumentNode_total; [|exact HTo|exact Hty].
    pose proof (units_height_In oldChildren u o Hu Ho). lia.
Qed.

Lemma patchRemainNodes_progress_witness :
  let oldChildren := [Single (paragraph [text_leaf "A."]); Single (paragraph [text_leaf "B."])] in
  let newChildren := [Single (paragraph [text_leaf "C."]); Single (paragraph [text_leaf "D."])] in
  remain_step prefix_diff (patchDocumentNode prefix_diff 2) oldChildren newChildren
              (mkRemain 0 0 [] [])
  = (p <- patchDocumentNode prefix_diff 2 (paragraph [text_leaf "A."])
                            (paragraph [text_leaf "C."]) ;;
     Ret (mkRemain 1 0 [p] []))
  /\ exists res, patchRemainNodes prefix_diff 2 oldChildren newChildren = Ret res.
Proof.
  intros oldChildren newChildren.
  destruct (patchRemainNodes_progress prefix_diff) as [_ [Hleft [_ [_ Htotal]]]].
  split.
  - apply (Hleft (patchDocumentNode prefix_diff 2) oldChildren newChildren
                 (mkRemain 0 0 [] [])); reflexivity.
  - apply Htotal. vm_compute. lia.
Defined.

(** ** Diffing a document against itself *)

Lemma every2_nth {A : Type} (f : A -> A -> bool) (d : A) (l1 l2 : list A) (i : nat) :
  every2 f l1 l2 = true -> i < List.length l1 -> f (nth i l1 d) (nth i l2 d) = true.
Proof.
  revert l2 i. induction l1 as [|a r IH]; intros [|b r2] i H Hi; simpl in *;
    try discriminate; try lia.
  apply andb_true_iff in H. destruct H as [Hab Hr].
  destruct i as [|i]; [exact Hab|]. apply IH; [exact Hr | lia].
Qed.

Lemma skipn_unit_at (l : NormalizedNodeContent) (i : nat) :
  i < List.length l -> skipn i l = unit_at l i :: skipn (S i) l.
Proof.
  revert i. induction l as [|a r IH]; intros i Hi; simpl in Hi; [lia|].
  destruct i as [|i]; [reflexivity|].
  cbn [skipn unit_at nth]. apply IH. lia.
Qed.

Lemma isPNodeEqual_isTextNode (a b : Node) :
  isPNodeEqual a b = true -> isTextNode (Single a) = isTextNode (Single b).
Proof. intros H. simpl. rewrite (isPNodeEqual_type a b H). reflexivity. Qed.

Lemma every2_normalize_list (c c' : list Node) :
  every2 isPNodeEqual c c' = true ->
  every2 isNodeEqual (normalize_list c) (normalize_list c') = true.
Proof.
  revert c'. induction c as [|child r IH]; intros [|child' r'] H;
    try discriminate; [reflexivity|].
  cbn [every2] in H. apply andb_true_iff in H. destruct H as [Hc Hr].
  specialize (IH r' Hr).
  cbn [normalize_list]. rewrite <- (isPNodeEqual_isTextNode child child' Hc).
  destruct (isTextNode (Single child)).
  - destruct r as [|next r1]; destruct r' as [|next' r1']; try discriminate.
    + simpl. rewrite Hc. reflexivity.
    + assert (Hn : isPNodeEqual next next' = true).
      { cbn [every2] in Hr. apply andb_true_iff in Hr. apply Hr. }
      rewrite <- (isPNodeEqual_isTextNode next next' Hn).
      destruct (isTextNode (Single next)).
      * destruct (normalize_list (next :: r1)) as [|[n | g] res];
          destruct (normalize_list (next' :: r1')) as [|[n' | g'] res'];
          try discriminate.
        -- simpl. rewrite Hc. reflexivity.
        -- cbn [every2 isNodeEqual] in *. rewrite Hc. exact IH.
        -- cbn [every2 isNodeEqual] in *. rewrite Hc. exact IH.
      * cbn [every2 isNodeEqual]. rewrite Hc. exact IH.
  - cbn [every2 isNodeEqual]. rewrite Hc. exact IH.
Qed.

Lemma prefix_trim_equal (oldChildren newChildren : NormalizedNodeContent) :
  every2 isNodeEqual oldChildren newChildren = true ->
  forall budget left acc,
    left <= List.length oldChildren ->
    List.length oldChildren <= budget + left ->
    prefix_trim oldChildren newChildren budget left acc
    = (List.length oldChildren, acc ++ flat (skipn left oldChildren)).
Proof.
  intros E. pose proof (every2_length _ _ _ E) as Hlen.
  induction budget as [|b IH]; intros left acc H1 H2; cbn [prefix_trim].
  - assert (left = List.length oldChildren) by lia. subst left.
    rewrite skipn_all. unfold flat. simpl. rewrite app_nil_r. reflexivity.
  - rewrite <- Hlen, Nat.min_id.
    destruct (left <? List.length oldChildren) eqn:G.
    + apply Nat.ltb_lt in G. unfold unit_at at 1 2.
      rewrite (every2_nth isNodeEqual (Group []) _ _ left E G). cbn [negb].
      rewrite IH by lia.
      rewrite (skipn_unit_at oldChildren left G). unfold flat. cbn [map List.concat].
      rewrite <- app_assoc. reflexivity.
    + apply Nat.ltb_ge in G. assert (left = List.length oldChildren) by lia. subst left.
      rewrite skipn_all. unfold flat. simpl. rewrite app_nil_r. reflexivity.
Qed.

Lemma patchDocumentNode_equal diff_main (fuel : nat) (oldNode newNode : Node) :
  isPNodeEqual oldNode newNode = true ->
  patchDocumentNode diff_main (S fuel) oldNode newNode
  = createNewNode oldNode (node_content oldNode).
Proof.
  intros E. cbn [patchDocumentNode]. unfold patchDocumentNode_with, assertNodeTypeEqual.
  rewrite (isPNodeEqual_type _ _ E), String.eqb_refl. cbn [negb bind].
  assert (EU : every2 isNodeEqual (normalizeNodeContent oldNode)
                      (normalizeNodeContent newNode) = true).
  { unfold normalizeNodeContent, getNodeChildren. apply every2_normalize_list.
    destruct oldNode as [t1 a1 m1 c1 x1], newNode as [t2 a2 m2 c2 x2].
    cbn [node_content]. cbn [isPNodeEqual] in E.
    repeat match type of E with
           | (if ?x then _ else _) = true => destruct x; try discriminate
           end.
    exact E. }
  pose proof (every2_length _ _ _ EU) as Hlen.
  rewrite <- Hlen, Nat.min_id.
  rewrite (prefix_trim_equal _ _ EU) by lia.
  cbn [fst snd].
  assert (HS : suffix_trim (normalizeNodeContent oldNode) (normalizeNodeContent newNode)
                           (List.length (normalizeNodeContent oldNode))
                           (List.length (normalizeNodeContent oldNode)) 0 []
               = (0, [])).
  { destruct (List.length (normalizeNodeContent oldNode)) as [|k] eqn:EL;
      [reflexivity|].
    cbn [suffix_trim]. rewrite <- Hlen, EL, Nat.min_id.
    replace (0 + S k + 1 <? S k) with false; [reflexivity|].
    symmetry. apply Nat.ltb_ge. lia. }
  rewrite HS. cbn [fst snd].
  unfold slice. rewrite !Nat.sub_0_r, !Nat.sub_diag. cbn [firstn List.length Nat.eqb negb andb].
  cbn. rewrite !app_nil_r.
  change (List.concat (map ensureArray (normalizeNodeContent oldNode)))
    with (flat (normalize_list (node_content oldNode))).
  rewrite flat_normalize_list. reflexivity.
Qed.

Lemma isPNodeEqual_createNewNode (n : Node) :
  isTextNode (Single n) = false ->
  isPNodeEqual (mkNode (node_type n) (node_attrs n) (node_marks n) (node_content n) None)
               n = true.
Proof.
  destruct n as [t a m c x]. cbn [isTextNode node_type]. intros HT.
  cbn [node_type node_attrs node_marks node_content].
  cbn [isPNodeEqual]. rewrite String.eqb_refl, HT, attrs_agree_refl. cbn [negb andb].
  rewrite (every2_refl isMarkEqual m)
    by (apply Forall_forall; intros k _; apply isMarkEqual_refl).
  cbn [negb]. apply every2_refl. apply Forall_forall. intros k _. apply isPNodeEqual_refl.
Qed.

(** C1: diffing a document [D] against itself, or against any tree
    structurally equal to it, returns a tree structurally equal to [D]
    that has [D]'s children as they are, so that no diff mark is added:
    when [D] carries none, neither does the result. *)
Theorem diff_identity
        (diff_main : list N -> list N -> list (DiffTypeValue * list N))
        (D D' : Node) :
  isTextNode (Single D) = false ->
  isPNodeEqual D D' = true ->
  exists R,
    diffEditor diff_main D D' = Ret R
    /\ isPNodeEqual R D = true
    /\ node_content R = node_content D
    /\ (diff_mark_free D = true -> diff_mark_free R = true).
Proof.
  intros HT E.
  exists (mkNode (node_type D) (node_attrs D) (node_marks D) (node_content D) None).
  split; [unfold diffEditor; rewrite (patchDocumentNode_equal _ _ _ _ E);
          apply createNewNode_Ret; exact HT|].
  split; [apply isPNodeEqual_createNewNode; exact HT|].
  split; [reflexivity|].
  destruct D as [t a m c x]. intros H. exact H.
Qed.

Lemma diff_identity_witness :
  let D := paragraph [text_leaf "Hello world."] in
  exists R,
    diffEditor prefix_diff D D = Ret R
    /\ isPNodeEqual R D = true
    /\ node_content R = node_content D
    /\ (diff_mark_free D = true -> diff_mark_free R = true).
Proof.
  intros D. apply (diff_identity prefix_diff D D); reflexivity.
Defined.

(** ** The annotator follows section 4.4 *)

Lemma annotated_well_formed (A : DiffTypeValue) (n : Node) :
  well_formed n = true -> annotated A n = annotated_spec A n.
Proof.
  induction n as [type attrs marks content text IH] using Node_ind.
  cbn [well_formed annotated annotated_spec].
  destruct (String.eqb type "text") eqn:E.
  - apply String.eqb_eq in E. subst type.
    destruct attrs; [|discriminate]. destruct content; [|discriminate].
    destruct text; [|discriminate]. reflexivity.
  - destruct text; [discriminate|]. intros H. f_equal.
    apply map_ext_in. intros c Hc.
    rewrite Forall_forall in IH. apply IH; [exact Hc|].
    rewrite forallb_forall in H. apply H. exact Hc.
Qed.

(** C7: for an annotation [A] that is [Inserted] or [Deleted] and a node
    [N] of the data model, [createDiffNode N A] returns the copy of the
    subtree of [N] in which every text-bearing leaf carries its mark list
    with the diff mark of [A] appended at the end, and every other node is
    unchanged but for its descendants, annotated likewise. *)
Theorem createDiffNode_annotates (N : Node) (A : DiffTypeValue) :
  A = Inserted \/ A = Deleted ->
  well_formed N = true ->
  createDiffNode N A = Ret (annotated_spec A N)
  /\ createDiffMark A = Ret (diffMark A)
  /\ (isTextNode (Single N) = true ->
      annotated_spec A N
      = mkNode "text" [] (node_marks N ++ [diffMark A]) [] (node_text N))
  /\ (isTextNode (Single N) = false ->
      annotated_spec A N
      = mkNode (node_type N) (node_attrs N) (node_marks N)
               (map (annotated_spec A) (node_content N)) (node_text N)).
Proof.
  intros HA HW. split.
  - rewrite <- (annotated_well_formed A N HW). apply createDiffNode_annotated. exact HA.
  - split; [apply createDiffMark_Ret; exact HA|].
    destruct N as [t a m c x]. cbn [isTextNode node_type annotated_spec].
    split; intros H; rewrite H; [|reflexivity].
    cbn [well_formed] in HW. rewrite H in HW. apply String.eqb_eq in H. subst t.
    destruct a; [|discriminate]. destruct c; [|discriminate]. reflexivity.
Qed.

Lemma createDiffNode_annotates_witness :
  createDiffNode (paragraph [mkNode "text" [] [mkMark "bold" []] [] (Some "Hi."%string); image])
                 Deleted
  = Ret (paragraph [mkNode "text" [] [mkMark "bold" []; diffMark Deleted] []
                           (Some "Hi."%string);
                    image]).
Proof.
  destruct (createDiffNode_annotates
              (paragraph [mkNode "text" [] [mkMark "bold" []] [] (Some "Hi."%string); image])
              Deleted) as [H _].
  - right. reflexivity.
  - reflexivity.
  - exact H.
Defined.

(** ** The best-run matcher *)

Lemma findMatchNode_from_Some (children : NormalizedNodeContent)
      (node : ProsemirrorNodeLike) (i j : nat) :
  findMatchNode_from children node i = Some j ->
  i <= j /\ j - i < List.length children
  /\ isNodeEqual (unit_at children (j - i)) node = true
  /\ forall k, k < j - i -> isNodeEqual (unit_at children k) node = false.
Proof.
  revert i. induction children as [|c r IH]; intros i H; cbn [findMatchNode_from] in H;
    [discriminate|].
  destruct (isNodeEqual c node) eqn:E.
  - injection H as <-. rewrite Nat.sub_diag. cbn [List.length unit_at nth].
    repeat split; try lia. exact E.
  - destruct (IH (S i) H) as [H1 [H2 [H3 H4]]].
    replace (j - i) with (S (j - S i)) by lia.
    cbn [List.length]. repeat split; try lia.
    + exact H3.
    + intros [|k] Hk; [exact E|]. apply H4. lia.
Qed.

Lemma findMatchNode_from_None (children : NormalizedNodeContent)
      (node : ProsemirrorNodeLike) (i : nat) :
  findMatchNode_from children node i = None ->
  forall k, k < List.length children -> isNodeEqual (unit_at children k) node = false.
Proof.
  revert i. induction children as [|c r IH]; intros i H k Hk; cbn [List.length] in Hk;
    [lia|].
  cbn [findMatchNode_from] in H.
  destruct (isNodeEqual c node) eqn:E; [discriminate|].
  destruct k as [|k]; [exact E|]. apply (IH (S i) H). lia.
Qed.

Section MatcherFacts.
Variables oldChildren newChildren : NormalizedNodeContent.

Lemma extend_run_spec (budget oldEnd newEnd : nat) :
  List.length oldChildren <= budget + oldEnd ->
  exists k,
    extend_run oldChildren newChildren budget oldEnd newEnd = (oldEnd + k, newEnd + k)
    /\ (forall d, d < k ->
                  oldEnd + d < List.length oldChildren
                  /\ newEnd + d < List.length newChildren
                  /\ isNodeEqual (unit_at newChildren (newEnd + d))
                                 (unit_at oldChildren (oldEnd + d)) = true)
    /\ (List.length oldChildren <= oldEnd + k
        \/ List.length newChildren <= newEnd + k
        \/ isNodeEqual (unit_at newChildren (newEnd + k))
                       (unit_at oldChildren (oldEnd + k)) = false).
Proof.
  revert oldEnd newEnd. induction budget as [|b IH]; intros oe ne Hb;
    cbn [extend_run].
  - exists 0. rewrite !Nat.add_0_r. split; [reflexivity|].
    split; [intros d Hd; lia | left; lia].
  - destruct (oe <? List.length oldChildren) eqn:G1; cbn [andb].
    + destruct (ne <? List.length newChildren) eqn:G2.
      * apply Nat.ltb_lt in G1. apply Nat.ltb_lt in G2.
        destruct (isNodeEqual (unit_at newChildren ne) (unit_at oldChildren oe)) eqn:E;
          cbn [negb].
        -- destruct (IH (S oe) (S ne)) as [k [Hk [Hrun Hstop]]]; [lia|].
           exists (S k). rewrite Hk.
           replace (oe + S k) with (S oe + k) by lia.
           replace (ne + S k) with (S ne + k) by lia.
           split; [reflexivity|]. split; [|exact Hstop].
           intros [|d] Hd.
           ++ rewrite !Nat.add_0_r. repeat split; assumption.
           ++ replace (oe + S d) with (S oe + d) by lia.
              replace (ne + S d) with (S ne + d) by lia.
              apply Hrun. lia.
        -- exists 0. rewrite !Nat.add_0_r. split; [reflexivity|].
           split; [intros d Hd; lia | right; right; exact E].
      * apply Nat.ltb_ge in G2. exists 0. rewrite !Nat.add_0_r.
        split; [reflexivity|]. split; [intros d Hd; lia | right; left; exact G2].
    + apply Nat.ltb_ge in G1. exists 0. rewrite !Nat.add_0_r.
      split; [reflexivity|]. split; [intros d Hd; lia | left; exact G1].
Qed.

(** What [matchNodes] pushes for one old start index. *)
Lemma match_at_Some (i : nat) (m : MatchResult) :
  i < List.length oldChildren ->
  match_at oldChildren newChildren i = Some m ->
  oldStartIndex m = i
  /\ findMatchNode newChildren (unit_at oldChildren i) = Some (newStartIndex m)
  /\ newStartIndex m < List.length newChildren
  /\ (forall j, j < newStartIndex m ->
                isNodeEqual (unit_at newChildren j) (unit_at oldChildren i) = false)
  /\ 1 <= count m
  /\ oldEndIndex m = i + count m
  /\ newEndIndex m = newStartIndex m + count m
  /\ (forall d, d < count m ->
                i + d < List.length oldChildren
                /\ newStartIndex m + d < List.length newChildren
                /\ isNodeEqual (unit_at newChildren (newStartIndex m + d))
                               (unit_at oldChildren (i + d)) = true)
  /\ (oldEndIndex m = List.length oldChildren
      \/ newEndIndex m = List.length newChildren
      \/ isNodeEqual (unit_at newChildren (newEndIndex m))
                     (unit_at oldChildren (oldEndIndex m)) = false).
Proof.
  intros Hi. unfold match_at.
  destruct (findMatchNode newChildren (unit_at oldChildren i)) as [j|] eqn:F;
    [|discriminate].
  pose proof (findMatchNode_from_Some _ _ _ _ F) as [_ [Hj [Hj0 Hfirst]]].
  rewrite Nat.sub_0_r in Hj, Hj0, Hfirst.
  destruct (extend_run_spec (List.length oldChildren) (S i) (S j)) as [k [Hk [Hrun Hstop]]];
    [lia|].
  rewrite Hk. replace (S j + k - j) with (S k) by lia.
  intros H. injection H as <-.
  cbn [oldStartIndex newStartIndex oldEndIndex newEndIndex count].
  assert (Hin : S i + k <= List.length oldChildren /\ S j + k <= List.length newChildren).
  { destruct k as [|k]; [lia|]. destruct (Hrun k); lia. }
  split; [reflexivity|]. split; [reflexivity|]. split; [exact Hj|].
  split; [exact Hfirst|]. split; [lia|]. split; [lia|]. split; [lia|]. split.
  - intros [|d] Hd.
    + rewrite !Nat.add_0_r. repeat split; assumption.
    + replace (j + S d) with (S j + d) by lia.
      replace (i + S d) with (S i + d) by lia.
      apply Hrun. lia.
  - destruct Hstop as [H | [H | H]]; [left; lia | right; left; lia | right; right; exact H].
Qed.

Lemma match_at_None (i : nat) :
  match_at oldChildren newChildren i = None ->
  forall j, j < List.length newChildren ->
            isNodeEqual (unit_at newChildren j) (unit_at oldChildren i) = false.
Proof.
  unfold match_at.
  destruct (findMatchNode newChildren (unit_at oldChildren i)) as [j|] eqn:F.
  - destruct (extend_run _ _ _ _ _). discriminate.
  - intros _. apply (findMatchNode_from_None _ _ _ F).
Qed.
End MatcherFacts.

Lemma match_at_start (oldChildren newChildren : NormalizedNodeContent)
      (i : nat) (m : MatchResult) :
  match_at oldChildren newChildren i = Some m -> oldStartIndex m = i.
Proof.
  unfold match_at. destruct (findMatchNode _ _); [|discriminate].
  destruct (extend_run _ _ _ _ _). intros H. injection H as <-. reflexivity.
Qed.

Lemma matchNodes_from_In (oldChildren newChildren : NormalizedNodeContent)
      (budget i : nat) (m : MatchResult) :
  In m (matchNodes_from oldChildren newChildren budget i)
  <-> exists i', i <= i' /\ i' < i + budget /\ i' < List.length oldChildren
                 /\ match_at oldChildren newChildren i' = Some m.
Proof.
  revert i. induction budget as [|b IH]; intros i; cbn [matchNodes_from].
  - split; [contradiction | intros [i' H]; lia].
  - destruct (i <? List.length oldChildren) eqn:G.
    + apply Nat.ltb_lt in G.
      assert (Hrest : In m (matchNodes_from oldChildren newChildren b (S i))
                      <-> exists i', S i <= i' /\ i' < i + S b
                                     /\ i' < List.length oldChildren
                                     /\ match_at oldChildren newChildren i' = Some m).
      { rewrite IH. split; intros [i' H]; exists i'; repeat split; try lia; apply H. }
      destruct (match_at oldChildren newChildren i) as [m0|] eqn:M.
      * cbn [In]. rewrite Hrest. split.
        -- intros [-> | [i' H]].
           ++ exists i. repeat split; try lia. exact M.
           ++ exists i'. repeat split; try lia; apply H.
        -- intros [i' [H1 [H2 [H3 H4]]]].
           destruct (Nat.eq_dec i' i) as [-> | Hne].
           ++ left. congruence.
           ++ right. exists i'. repeat split; try lia. exact H4.
      * rewrite Hrest. split.
        -- intros [i' H]. exists i'. repeat split; try lia; apply H.
        -- intros [i' [H1 [H2 [H3 H4]]]].
           destruct (Nat.eq_dec i' i) as [-> | Hne]; [congruence|].
           exists i'. repeat split; try lia. exact H4.
    + apply Nat.ltb_ge in G. split; [contradiction | intros [i' H]; lia].
Qed.

Lemma matchNodes_from_sorted (oldChildren newChildren : NormalizedNodeContent)
      (budget i : nat) :
  StronglySorted earlier_start (matchNodes_from oldChildren newChildren budget i).
Proof.
  revert i. induction budget as [|b IH]; intros i; cbn [matchNodes_from].
  - constructor.
  - destruct (i <? List.length oldChildren); [|constructor].
    destruct (match_at oldChildren newChildren i) as [m0|] eqn:M; [|apply IH].
    constructor; [apply IH|].
    apply Forall_forall. intros m Hm.
    apply matchNodes_from_In in Hm. destruct Hm as [i' [H1 [_ [_ H4]]]].
    unfold earlier_start.
    rewrite (match_at_start _ _ _ _ M), (match_at_start _ _ _ _ H4). lia.
Qed.

Lemma StronglySorted_after {A : Type} (R : A -> A -> Prop) (l1 l2 : list A) (m : A) :
  StronglySorted R (l1 ++ m :: l2) -> Forall (R m) l2.
Proof.
  induction l1 as [|a r IH]; cbn [app]; intros H; inversion H; subst; auto.
Qed.

(** ** The stable sort puts the first longest run in front *)

Lemma insert_by_count_head (m : MatchResult) (l : list MatchResult) :
  hd_error (insert_by_count m l)
  = match hd_error l with
    | None => Some m
    | Some y => if count m <? count y then Some y else Some m
    end.
Proof.
  destruct l as [|y r]; cbn [insert_by_count hd_error]; [reflexivity|].
  destruct (count m <? count y); reflexivity.
Qed.

Lemma sort_by_count_head_None (l : list MatchResult) :
  hd_error (sort_by_count l) = None <-> l = [].
Proof.
  destruct l as [|x r]; cbn [sort_by_count fold_right]; [tauto|].
  rewrite insert_by_count_head. split; [|discriminate].
  destruct (hd_error _) as [y|]; [destruct (count x <? count y)|]; discriminate.
Qed.

Lemma sort_by_count_head_Some (l : list MatchResult) (m : MatchResult) :
  hd_error (sort_by_count l) = Some m ->
  exists l1 l2,
    l = l1 ++ m :: l2
    /\ (forall m', In m' l1 -> count m' < count m)
    /\ (forall m', In m' l2 -> count m' <= count m).
Proof.
  revert m. induction l as [|x r IH]; intros m; cbn [sort_by_count fold_right];
    [discriminate|].
  rewrite insert_by_count_head.
  fold (sort_by_count r).
  destruct (hd_error (sort_by_count r)) as [y|] eqn:E.
  - destruct (IH y eq_refl) as [l1 [l2 [Hr [H1 H2]]]].
    destruct (count x <? count y) eqn:C; intros H; injection H as <-.
    + apply Nat.ltb_lt in C. exists (x :: l1), l2. subst r.
      split; [reflexivity|]. split; [|exact H2].
      intros m' [<- | Hm']; [exact C | apply H1; exact Hm'].
    + apply Nat.ltb_ge in C. exists [], r. split; [reflexivity|].
      split; [intros m' []|].
      intros m' Hm'. subst r. apply in_app_or in Hm'.
      destruct Hm' as [Hm' | [<- | Hm']].
      * specialize (H1 m' Hm'). lia.
      * exact C.
      * specialize (H2 m' Hm'). lia.
  - apply sort_by_count_head_None in E. subst r.
    intros H. injection H as <-. exists [], [].
    split; [reflexivity|]. split; intros m' [].
Qed.

(** C4: for each old start index [i], [matchNodes] pushes the run that
    starts at the first new index [j] whose unit equals unit [i] and that
    extends while the following units are pairwise equal (nothing is
    pushed when no new unit equals unit [i]); the best match of the
    patcher is a run of greatest [count], and among the runs of that count
    the one of smallest [oldStartIndex]; it is a function of the two lists. *)
Theorem matchNodes_best_run (oldChildren newChildren : NormalizedNodeContent) :
  (forall m,
      In m (matchNodes oldChildren newChildren)
      <-> exists i, i < List.length oldChildren
                    /\ match_at oldChildren newChildren i = Some m)
  /\ (forall i m,
         i < List.length oldChildren ->
         match_at oldChildren newChildren i = Some m ->
         oldStartIndex m = i
         /\ findMatchNode newChildren (unit_at oldChildren i) = Some (newStartIndex m)
         /\ newStartIndex m < List.length newChildren
         /\ (forall j, j < newStartIndex m ->
                       isNodeEqual (unit_at newChildren j) (unit_at oldChildren i) = false)
         /\ 1 <= count m
         /\ oldEndIndex m = i + count m
         /\ newEndIndex m = newStartIndex m + count m
         /\ (forall d, d < count m ->
                       i + d < List.length oldChildren
                       /\ newStartIndex m + d < List.length newChildren
                       /\ isNodeEqual (unit_at newChildren (newStartIndex m + d))
                                      (unit_at oldChildren (i + d)) = true)
         /\ (oldEndIndex m = List.length oldChildren
             \/ newEndIndex m = List.length newChildren
             \/ isNodeEqual (unit_at newChildren (newEndIndex m))
                            (unit_at oldChildren (oldEndIndex m)) = false))
  /\ (forall i,
         match_at oldChildren newChildren i = None ->
         forall j, j < List.length newChildren ->
                   isNodeEqual (unit_at newChildren j) (unit_at oldChildren i) = false)
  /\ (bestMatch oldChildren newChildren = None <-> matchNodes oldChildren newChildren = [])
  /\ (forall m,
         bestMatch oldChildren newChildren = Some m ->
         In m (matchNodes oldChildren newChildren)
         /\ forall m', In m' (matchNodes oldChildren newChildren) ->
                       count m' <= count m
                       /\ (count m' = count m -> oldStartIndex m <= oldStartIndex m'))
  /\ (forall m1 m2,
         bestMatch oldChildren newChildren = Some m1 ->
         bestMatch oldChildren newChildren = Some m2 -> m1 = m2).
Proof.
  split; [|split; [|split; [|split; [|split]]]].
  - intros m. unfold matchNodes. rewrite matchNodes_from_In.
    split; intros [i H]; exists i; repeat split; try lia; apply H.
  - intros i m. apply match_at_Some.
  - intros i. apply match_at_None.
  - apply sort_by_count_head_None.
  - intros m H. unfold bestMatch in H.
    destruct (sort_by_count_head_Some _ _ H) as [l1 [l2 [Hl [H1 H2]]]].
    split; [rewrite Hl; apply in_or_app; right; left; reflexivity|].
    intros m' Hm'.
    pose proof (matchNodes_from_sorted oldChildren newChildren
                                       (List.length oldChildren) 0) as HS.
    fold (matchNodes oldChildren newChildren) in HS. rewrite Hl in HS, Hm'.
    pose proof (StronglySorted_after _ _ _ _ HS) as Hafter.
    rewrite Forall_forall in Hafter.
    apply in_app_or in Hm'. destruct Hm' as [Hm' | [<- | Hm']].
    + specialize (H1 m' Hm'). split; lia.
    + split; lia.
    + specialize (H2 m' Hm'). specialize (Hafter m' Hm'). unfold earlier_start in Hafter.
      split; lia.
  - intros m1 m2 H1 H2. congruence.
Qed.

Lemma matchNodes_best_run_witness :
  let a := Single (paragraph [text_leaf "A."]) in
  let b := Single (paragraph [text_leaf "B."]) in
  let c := Single (paragraph [text_leaf "C."]) in
  let d := Single (paragraph [text_leaf "D."]) in
  let oldChildren := [a; b; c; a; b] in
  let newChildren := [d; a; b; a] in
  let best := mkMatch 0 1 2 3 2 in
  matchNodes oldChildren newChildren
  = [best; mkMatch 1 2 2 3 1; mkMatch 3 1 5 3 2; mkMatch 4 2 5 3 1]
  /\ bestMatch oldChildren newChildren = Some best
  /\ In best (matchNodes oldChildren newChildren)
  /\ forall m', In m' (matchNodes oldChildren newChildren) ->
                count m' <= count best
                /\ (count m' = count best -> oldStartIndex best <= oldStartIndex m').
Proof.
  intros a b c d oldChildren newChildren best.
  destruct (matchNodes_best_run oldChildren newChildren) as [_ [_ [_ [_ [H _]]]]].
  split; [reflexivity|]. split; [reflexivity|].
  apply (H best). reflexivity.
Defined.

(** ** The text diff engine, segment by segment *)

Lemma join_app (l1 l2 : list string) :
  join (l1 ++ l2) = (join l1 ++ join l2)%string.
Proof.
  induction l1 as [|s r IH]; cbn [join fold_right app]; [reflexivity|].
  fold (join (r ++ l2)). fold (join r). rewrite IH.
  induction s as [|c s IHs]; cbn; [reflexivity | rewrite IHs; reflexivity].
Qed.

Lemma decode_app (lineArray : list string) (t1 t2 : list N) :
  decode lineArray (t1 ++ t2) = decode lineArray t1 ++ decode lineArray t2.
Proof. unfold decode. rewrite map_app, filter_app. reflexivity. Qed.

Lemma mapM_map {A B C : Type} (g : A -> B) (f : B -> outcome C) (l : list A) :
  mapM f (map g l) = mapM (fun a => f (g a)) l.
Proof.
  induction l as [|a r IH]; cbn [map mapM]; [reflexivity|].
  fold (mapM f (map g r)). fold (mapM (fun a => f (g a)) r). rewrite IH. reflexivity.
Qed.

Lemma patchTextNodes_leaves diff_main (oldNode newNode : list Node) :
  patchTextNodes diff_main oldNode newNode
  = Ret (let '(chars1, chars2, lineArray) :=
           sentencesToChars (tokenizeSentences (join (map getNodeText oldNode)))
                            (tokenizeSentences (join (map getNodeText newNode))) in
         leaves_of lineArray (diff_main chars1 chars2)).
Proof.
  unfold patchTextNodes.
  destruct (sentencesToChars _ _) as [[chars1 chars2] lineArray].
  unfold leaves_of. rewrite mapM_map.
  rewrite (mapM_Ret_map
             _ (fun d => map (fun sentence => createTextNode sentence (segment_marks (fst d)))
                             (decode lineArray (snd d)))).
  - reflexivity.
  - apply Forall_forall. intros [type text] _. cbn [fst snd].
    fold (decode lineArray text).
    apply mapM_Ret_map. apply Forall_forall. intros sentence _.
    destruct type; reflexivity.
Qed.

Lemma annotation_of_segment_leaf (sentence : string) (type : DiffTypeValue) :
  annotation_of (createTextNode sentence (segment_marks type)) = type.
Proof. destruct type; reflexivity. Qed.

Lemma kept_text_leaves_of (keep : DiffTypeValue -> bool) (lineArray : list string)
      (rawDiffs : list (DiffTypeValue * list N)) :
  kept_text keep (leaves_of lineArray rawDiffs)
  = join (decode lineArray (segments_text keep rawDiffs)).
Proof.
  unfold kept_text, leaves_of, segments_text.
  induction rawDiffs as [|[type text] r IH]; [reflexivity|].
  cbn [map List.concat filter fst snd].
  rewrite filter_app, map_app, join_app, IH.
  assert (H : map getNodeText
                  (filter (fun leaf => keep (annotation_of leaf))
                          (map (fun sentence => createTextNode sentence (segment_marks type))
                               (decode lineArray text)))
              = if keep type then decode lineArray text else []).
  { induction (decode lineArray text) as [|x l IHl].
    - destruct (keep type); reflexivity.
    - cbn [map filter]. rewrite annotation_of_segment_leaf.
      destruct (keep type); cbn [map]; [|exact IHl].
      rewrite IHl. reflexivity. }
  rewrite H. destruct (keep type).
  - cbn [map List.concat]. rewrite decode_app, join_app. reflexivity.
  - reflexivity.
Qed.

(** The text of the kept leaves is the expansion of the codes of one side. *)
Lemma patchTextNodes_sides diff_main (oldNode newNode : list Node) :
  diff_contract diff_main ->
  exists leaves,
    patchTextNodes diff_main oldNode newNode = Ret leaves
    /\ (let '(chars1, chars2, lineArray) :=
          sentencesToChars (tokenizeSentences (join (map getNodeText oldNode)))
                           (tokenizeSentences (join (map getNodeText newNode))) in
        kept_text not_Deleted leaves = join (decode lineArray chars2)
        /\ kept_text not_Inserted leaves = join (decode lineArray chars1)).
Proof.
  intros C. rewrite patchTextNodes_leaves.
  destruct (sentencesToChars _ _) as [[chars1 chars2] lineArray].
  eexists. split; [reflexivity|].
  rewrite !kept_text_leaves_of.
  destruct (C chars1 chars2) as [-> ->]. split; reflexivity.
Qed.

Lemma common_prefix_spec (a b : list N) :
  let '(p, (a', b')) := common_prefix a b in a = p ++ a' /\ b = p ++ b'.
Proof.
  revert b. induction a as [|x a IH]; intros [|y b]; cbn [common_prefix];
    try (split; reflexivity).
  destruct (N.eqb x y) eqn:E; [|split; reflexivity].
  apply N.eqb_eq in E. subst y.
  specialize (IH b). destruct (common_prefix a b) as [p [a' b']].
  destruct IH as [-> ->]. split; reflexivity.
Qed.

Lemma segments_text_segment (keep : DiffTypeValue -> bool) (t : DiffTypeValue)
      (text : list N) (r : list (DiffTypeValue * list N)) :
  segments_text keep (segment t text ++ r)
  = (if keep t then text else []) ++ segments_text keep r.
Proof.
  unfold segments_text. destruct text as [|c text]; cbn [segment app filter fst].
  - destruct (keep t); reflexivity.
  - destruct (keep t); reflexivity.
Qed.

Lemma prefix_diff_contract : diff_contract prefix_diff.
Proof.
  intros a b. unfold prefix_diff.
  pose proof (common_prefix_spec a b) as H.
  destruct (common_prefix a b) as [p [a' b']]. destruct H as [-> ->].
  rewrite <- (app_nil_r (segment Inserted b')).
  rewrite !segments_text_segment. cbn. rewrite !app_nil_r. split; reflexivity.
Qed.

(** ** Where the sentence round trip holds *)

Lemma code_of_app (lines ext : list string) (s : string) (c : N) :
  code_of lines s c -> code_of (lines ++ ext) s c.
Proof.
  intros [v [Hc Hv]]. exists v. split; [exact Hc|].
  rewrite nth_error_app1; [exact Hv|].
  apply nth_error_Some. rewrite Hv. discriminate.
Qed.

Lemma intern_sentence_spec (t : LineTable) (s : string) :
  table_ok t -> plain_sentence s = true ->
  table_ok (fst (intern_sentence t s))
  /\ (exists ext, lineArray (fst (intern_sentence t s)) = lineArray t ++ ext)
  /\ code_of (lineArray (fst (intern_sentence t s))) s (snd (intern_sentence t s)).
Proof.
  intros [Hstart Hown] Hplain. unfold intern_sentence, lineHash_has, lineHash_get.
  destruct (lineHash_own (lineHash t) s) as [v|] eqn:E.
  - cbn [fst snd]. split; [split; assumption|].
    split; [exists []; rewrite app_nil_r; reflexivity|].
    exists v. split; [reflexivity | apply Hown; exact E].
  - unfold plain_sentence in Hplain. apply negb_true_iff in Hplain. rewrite Hplain.
    cbn [fst snd lineHash lineArray lineStart lineHash_own].
    rewrite String.eqb_refl.
    assert (Hnew : nth_error (lineArray t ++ [s]) (N.to_nat (lineStart t)) = Some s).
    { rewrite Hstart, Nat2N.id, nth_error_app2 by lia.
      rewrite Nat.sub_diag. reflexivity. }
    split; [split|split]; cbn [lineHash lineArray lineStart lineHash_own].
    + rewrite length_app. cbn [List.length]. rewrite Hstart. lia.
    + intros line v. destruct (String.eqb s line) eqn:EL.
      * apply String.eqb_eq in EL. subst line. intros H. injection H as <-. exact Hnew.
      * intros H. rewrite nth_error_app1; [apply Hown; exact H|].
        apply nth_error_Some. rewrite (Hown line v H). discriminate.
    + exists [s]. reflexivity.
    + exists (lineStart t). split; [reflexivity | exact Hnew].
Qed.

Lemma intern_all_spec (sentences : list string) :
  forall t,
    table_ok t -> forallb plain_sentence sentences = true ->
    table_ok (fst (intern_all t sentences))
    /\ (exists ext, lineArray (fst (intern_all t sentences)) = lineArray t ++ ext)
    /\ Forall2 (code_of (lineArray (fst (intern_all t sentences))))
               sentences (snd (intern_all t sentences)).
Proof.
  induction sentences as [|s r IH]; intros t Ht Hp; cbn [intern_all].
  - cbn [fst snd]. split; [exact Ht|]. split; [exists []; rewrite app_nil_r; reflexivity|].
    constructor.
  - cbn [forallb] in Hp. apply andb_true_iff in Hp. destruct Hp as [Hs Hr].
    destruct (intern_sentence_spec t s Ht Hs) as [Ht1 [[ext1 Hext1] Hc]].
    destruct (intern_sentence t s) as [t1 c]. cbn [fst snd] in *.
    destruct (IH t1 Ht1 Hr) as [Ht2 [[ext2 Hext2] Hcs]].
    destruct (intern_all t1 r) as [t2 cs]. cbn [fst snd] in *.
    split; [exact Ht2|]. split.
    + exists (ext1 ++ ext2). rewrite Hext2, Hext1, app_assoc. reflexivity.
    + constructor; [|exact Hcs]. rewrite Hext2. apply code_of_app. exact Hc.
Qed.

Lemma decode_codes (lines : list string) (sentences : list string) (codes : list N) :
  (N.of_nat (List.length lines) <= 65536)%N ->
  forallb nonEmpty sentences = true ->
  Forall2 (code_of lines) sentences codes ->
  decode lines codes = sentences.
Proof.
  intros Hlen Hne H. unfold decode.
  induction H as [|s c r cs [v [Hc Hv]] _ IH]; [reflexivity|].
  cbn [forallb] in Hne. apply andb_true_iff in Hne. destruct Hne as [Hs Hr].
  cbn [map filter].
  assert (Hlt : N.to_nat v < List.length lines).
  { apply nth_error_Some. rewrite Hv. discriminate. }
  assert (Hcv : c = v).
  { rewrite Hc. unfold fromCharCode. apply N.mod_small. lia. }
  rewrite Hcv, (nth_error_nth lines (N.to_nat v) EmptyString Hv), Hs, (IH Hr).
  reflexivity.
Qed.

Lemma tokenizeSentences_nonEmpty (text : string) :
  forallb nonEmpty (tokenizeSentences text) = true.
Proof.
  unfold tokenizeSentences. apply forallb_forall. intros s Hs.
  apply filter_In in Hs. apply Hs.
Qed.

Lemma sentencesToChars_decode (oldSentences newSentences : list string) :
  forallb plain_sentence oldSentences = true ->
  forallb plain_sentence newSentences = true ->
  forallb nonEmpty oldSentences = true ->
  forallb nonEmpty newSentences = true ->
  let '(chars1, chars2, lines) := sentencesToChars oldSentences newSentences in
  (N.of_nat (List.length lines) <= 65536)%N ->
  decode lines chars1 = oldSentences /\ decode lines chars2 = newSentences.
Proof.
  intros Hpo Hpn Hno Hnn. unfold sentencesToChars.
  assert (H0 : table_ok (mkLineTable [] [] 0%N)).
  { split; [reflexivity | intros line v H; discriminate]. }
  destruct (intern_all_spec oldSentences _ H0 Hpo) as [H1 [_ Hc1]].
  destruct (intern_all (mkLineTable [] [] 0%N) oldSentences) as [t1 chars1].
  cbn [fst snd] in *.
  destruct (intern_all_spec newSentences _ H1 Hpn) as [H2 [[ext Hext] Hc2]].
  destruct (intern_all t1 newSentences) as [t2 chars2]. cbn [fst snd] in *.
  intros Hlen. split.
  - apply decode_codes; [exact Hlen | exact Hno |].
    rewrite Hext. clear - Hc1.
    induction Hc1; constructor; [apply code_of_app; assumption | assumption].
  - apply decode_codes; assumption.
Qed.

(** The round trip up to tokenization: when no sentence bears the name of
    an inherited property and the table holds at most 65536 sentences, the
    leaves kept as Unchanged or Inserted spell the sentences of the new
    text and those kept as Unchanged or Deleted the sentences of the old
    text; where the tokenizer loses nothing of a text, they spell that
    text. *)
Lemma patchTextNodes_round_trip diff_main (oldNode newNode : list Node) :
  diff_contract diff_main ->
  let oldText := join (map getNodeText oldNode) in
  let newText := join (map getNodeText newNode) in
  forallb plain_sentence (tokenizeSentences oldText) = true ->
  forallb plain_sentence (tokenizeSentences newText) = true ->
  (N.of_nat (List.length (snd (sentencesToChars (tokenizeSentences oldText)
                                                (tokenizeSentences newText))))
   <= 65536)%N ->
  exists leaves,
    patchTextNodes diff_main oldNode newNode = Ret leaves
    /\ kept_text not_Deleted leaves = join (tokenizeSentences newText)
    /\ kept_text not_Inserted leaves = join (tokenizeSentences oldText)
    /\ (join (tokenizeSentences newText) = newText ->
        kept_text not_Deleted leaves = newText)
    /\ (join (tokenizeSentences oldText) = oldText ->
        kept_text not_Inserted leaves = oldText).
Proof.
  intros C oldText newText Hpo Hpn Hlen.
  destruct (patchTextNodes_sides diff_main oldNode newNode C) as [leaves [HR H]].
  fold oldText newText in H.
  pose proof (sentencesToChars_decode
                (tokenizeSentences oldText) (tokenizeSentences newText) Hpo Hpn
                (tokenizeSentences_nonEmpty oldText)
                (tokenizeSentences_nonEmpty newText)) as D.
  destruct (sentencesToChars (tokenizeSentences oldText) (tokenizeSentences newText))
    as [[chars1 chars2] lines].
  cbn [snd] in Hlen. destruct (D Hlen) as [D1 D2]. destruct H as [Hn Ho].
  rewrite D2 in Hn. rewrite D1 in Ho.
  exists leaves. split; [exact HR|]. split; [exact Hn|]. split; [exact Ho|].
  split; intros E; congruence.
Qed.

(** ** Where the sentence round trip breaks *)

(** C3, at the failing inputs.  The tokenizer starts no sentence at a
    character of [[.!?]], so the ["!"] that begins the new text ["!Hi."]
    belongs to no sentence: for every character diff that meets its
    contract the leaves kept as Unchanged or Inserted spell ["Hi."], not
    the new text.  And the sentence ["constructor"] is found by [in] among
    the inherited properties of [lineHash]; it receives the code [0] of the
    first interned sentence, so the leaves kept as Unchanged or Deleted
    spell ["Hi"], not the old text ["constructor"]. *)
Theorem patchTextNodes_round_trip_fails
        (diff_main : list N -> list N -> list (DiffTypeValue * list N)) :
  diff_contract diff_main ->
  (exists leaves,
      patchTextNodes diff_main [text_leaf "Hi."] [text_leaf "!Hi."] = Ret leaves
      /\ kept_text not_Deleted leaves = "Hi."%string
      /\ join (map getNodeText [text_leaf "!Hi."]) = "!Hi."%string)
  /\ (exists leaves,
         patchTextNodes diff_main [text_leaf "constructor"] [text_leaf "Hi"] = Ret leaves
         /\ kept_text not_Inserted leaves = "Hi"%string
         /\ join (map getNodeText [text_leaf "constructor"]) = "constructor"%string).
Proof.
  intros C. split.
  - destruct (patchTextNodes_sides diff_main [text_leaf "Hi."] [text_leaf "!Hi."] C)
      as [leaves [H1 H2]].
    exists leaves. split; [exact H1|]. split; [|reflexivity].
    assert (E : sentencesToChars
                  (tokenizeSentences (join (map getNodeText [text_leaf "Hi."])))
                  (tokenizeSentences (join (map getNodeText [text_leaf "!Hi."])))
                = ([0%N], [0%N], ["Hi."%string])) by reflexivity.
    rewrite E in H2. apply H2.
  - destruct (patchTextNodes_sides diff_main [text_leaf "constructor"] [text_leaf "Hi"] C)
      as [leaves [H1 H2]].
    exists leaves. split; [exact H1|]. split; [|reflexivity].
    assert (E : sentencesToChars
                  (tokenizeSentences (join (map getNodeText [text_leaf "constructor"])))
                  (tokenizeSentences (join (map getNodeText [text_leaf "Hi"])))
                = ([0%N], [0%N], ["Hi"%string])) by reflexivity.
    rewrite E in H2. apply H2.
Qed.

Lemma patchTextNodes_round_trip_fails_witness :
  exists leaves,
    patchTextNodes prefix_diff [text_leaf "Hi."] [text_leaf "!Hi."] = Ret leaves
    /\ kept_text not_Deleted leaves = "Hi."%string
    /\ join (map getNodeText [text_leaf "!Hi."]) = "!Hi."%string.
Proof.
  destruct (patchTextNodes_round_trip_fails prefix_diff prefix_diff_contract) as [H _].
  exact H.
Defined.

(** ** Where the coverage of old-only and new-only leaves breaks *)

(** C2, at the failing inputs.  Old paragraph with the text ["Hello"], new
    paragraph with an image: the merged paragraph holds the image alone,
    the old-only leaf ["Hello"] is not in the output at all.  Old
    paragraph [image, "A"], new paragraph [hard_break, "B"]: the right
    pair of text groups counts as updatable and is skipped, so neither
    ["A"] nor ["B"] is in the output. *)
Theorem patchDocumentNode_drops_text_groups
        (diff_main : list N -> list N -> list (DiffTypeValue * list N)) :
  diffEditor diff_main (paragraph [text_leaf "Hello"]) (paragraph [image])
  = Ret (paragraph [image])
  /\ diffEditor diff_main (paragraph [image; text_leaf "A"])
                (paragraph [hard_break; text_leaf "B"])
     = Ret (paragraph [image; hard_break]).
Proof. split; reflexivity. Qed.

(* ================================================================== *)
(** * Further properties of the code *)

(** ** Structural equality is a partial equivalence *)

Lemma AttrValue_eqb_eq (a b : AttrValue) : AttrValue_eqb a b = true <-> a = b.
Proof.
  split.
  - destruct a, b; cbn [AttrValue_eqb]; intros H; try discriminate; try reflexivity.
    + apply Z.eqb_eq in H. subst. reflexivity.
    + apply String.eqb_eq in H. subst. reflexivity.
    + apply Bool.eqb_prop in H. subst. reflexivity.
  - intros ->. apply AttrValue_eqb_refl.
Qed.

Lemma strict_eqb_eq (a b : option AttrValue) : strict_eqb a b = true <-> a = b.
Proof.
  destruct a as [x|], b as [y|]; cbn [strict_eqb]; split; intros H;
    try discriminate; try reflexivity.
  - apply AttrValue_eqb_eq in H. subst. reflexivity.
  - injection H as ->. apply AttrValue_eqb_refl.
Qed.

Lemma attr_get_None (attrs : Attrs) (k : string) :
  ~ In k (map fst attrs) -> attr_get attrs k = None.
Proof.
  induction attrs as [|[k0 v] r IH]; cbn [attr_get map fst In]; intros H;
    [reflexivity|].
  destruct (String.eqb k0 k) eqn:E.
  - apply String.eqb_eq in E. exfalso. apply H. left. exact E.
  - apply IH. intros Hin. apply H. right. exact Hin.
Qed.

Lemma attrs_agree_iff (attrs1 attrs2 : Attrs) :
  attrs_agree attrs1 attrs2 = true
  <-> forall k, attr_get attrs1 k = attr_get attrs2 k.
Proof.
  unfold attrs_agree. rewrite forallb_forall. split.
  - intros H k.
    destruct (in_dec string_dec k (map fst attrs1 ++ map fst attrs2)) as [Hin | Hout].
    + apply strict_eqb_eq. apply H. exact Hin.
    + rewrite !attr_get_None; [reflexivity | |];
        intros Hk; apply Hout; apply in_or_app; [right | left]; exact Hk.
  - intros H k _. apply strict_eqb_eq. apply H.
Qed.

Lemma every2_eq {A : Type} (f : A -> A -> bool) (l1 l2 : list A) :
  (forall a b, f a b = true <-> a = b) -> (every2 f l1 l2 = true <-> l1 = l2).
Proof.
  intros Hf. revert l2. induction l1 as [|a r IH]; intros [|b r2]; cbn [every2];
    split; intros H; try discriminate; try reflexivity.
  - apply andb_true_iff in H. destruct H as [H1 H2].
    apply Hf in H1. apply IH in H2. subst. reflexivity.
  - injection H as -> ->. apply andb_true_iff. split; [apply Hf | apply IH]; reflexivity.
Qed.

Lemma isMarkEqual_eq (m1 m2 : Mark) : isMarkEqual m1 m2 = true <-> m1 = m2.
Proof.
  destruct m1 as [t1 a1], m2 as [t2 a2]. unfold isMarkEqual. cbn [mark_type mark_attrs].
  rewrite andb_true_iff, String.eqb_eq.
  rewrite (every2_eq Attr_eqb a1 a2).
  - split; [intros [-> ->]; reflexivity | intros H; injection H as -> ->; split; reflexivity].
  - intros [k1 v1] [k2 v2]. unfold Attr_eqb. cbn [fst snd].
    rewrite andb_true_iff, String.eqb_eq, AttrValue_eqb_eq.
    split; [intros [-> ->]; reflexivity | intros H; injection H as -> ->; split; reflexivity].
Qed.

(** What [isNodeEqual] compares on two single nodes. *)
Lemma isPNodeEqual_iff type1 attrs1 marks1 children1 text1
      type2 attrs2 marks2 children2 text2 :
  isPNodeEqual (mkNode type1 attrs1 marks1 children1 text1)
               (mkNode type2 attrs2 marks2 children2 text2) = true
  <-> type1 = type2
      /\ (type1 = "text"%string ->
          getNodeText (mkNode type1 attrs1 marks1 children1 text1)
          = getNodeText (mkNode type2 attrs2 marks2 children2 text2))
      /\ (forall k, attr_get attrs1 k = attr_get attrs2 k)
      /\ marks1 = marks2
      /\ every2 isPNodeEqual children1 children2 = true.
Proof.
  cbn [isPNodeEqual].
  rewrite <- attrs_agree_iff, <- (every2_eq isMarkEqual marks1 marks2 isMarkEqual_eq).
  rewrite <- (String.eqb_eq type1 type2), <- (String.eqb_eq type1 "text").
  destruct (String.eqb type1 type2); cbn [negb];
    [|split; [discriminate | intros [H _]; discriminate]].
  destruct (String.eqb type1 "text"); cbn [andb].
  - destruct (String.eqb _ _) eqn:ET; cbn [negb].
    + apply String.eqb_eq in ET.
      destruct (attrs_agree attrs1 attrs2); cbn [negb];
        [|split; [discriminate | intros [_ [_ [H _]]]; discriminate]].
      destruct (every2 isMarkEqual marks1 marks2); cbn [negb];
        [|split; [discriminate | intros [_ [_ [_ [H _]]]]; discriminate]].
      split; [intros H; repeat split; auto | intros [_ [_ [_ [_ H]]]]; exact H].
    + split; [discriminate|]. intros [_ [H _]]. specialize (H eq_refl).
      apply String.eqb_eq in H. rewrite H in ET. discriminate.
  - destruct (attrs_agree attrs1 attrs2); cbn [negb];
      [|split; [discriminate | intros [_ [_ [H _]]]; discriminate]].
    destruct (every2 isMarkEqual marks1 marks2); cbn [negb];
      [|split; [discriminate | intros [_ [_ [_ [H _]]]]; discriminate]].
    split; [intros H; repeat split; auto; discriminate | intros [_ [_ [_ [_ H]]]]; exact H].
Qed.

Lemma every2_sym {A : Type} (f : A -> A -> bool) (l1 l2 : list A) :
  Forall (fun a => forall b, f a b = true -> f b a = true) l1 ->
  every2 f l1 l2 = true -> every2 f l2 l1 = true.
Proof.
  intros HF. revert l2. induction HF as [|a r Ha _ IH]; intros [|b r2]; cbn [every2];
    intros H; try discriminate; [reflexivity|].
  apply andb_true_iff in H. destruct H as [H1 H2].
  rewrite (Ha b H1), (IH r2 H2). reflexivity.
Qed.

Lemma every2_trans {A : Type} (f : A -> A -> bool) (l1 l2 l3 : list A) :
  Forall (fun a => forall b c, f a b = true -> f b c = true -> f a c = true) l1 ->
  every2 f l1 l2 = true -> every2 f l2 l3 = true -> every2 f l1 l3 = true.
Proof.
  intros HF. revert l2 l3.
  induction HF as [|a r Ha _ IH]; intros [|b r2] [|c r3]; cbn [every2];
    intros H12 H23; try discriminate; [reflexivity|].
  apply andb_true_iff in H12. destruct H12 as [H1 H2].
  apply andb_true_iff in H23. destruct H23 as [H3 H4].
  rewrite (Ha b c H1 H3), (IH r2 r3 H2 H4). reflexivity.
Qed.

Lemma isPNodeEqual_sym (a : Node) :
  forall b, isPNodeEqual a b = true -> isPNodeEqual b a = true.
Proof.
  induction a as [t1 a1 m1 c1 x1 IH] using Node_ind. intros [t2 a2 m2 c2 x2] H.
  apply isPNodeEqual_iff in H. destruct H as [Ht [Hx [Ha [Hm Hc]]]].
  apply isPNodeEqual_iff. subst t2. repeat split.
  - intros E. symmetry. apply Hx. exact E.
  - intros k. symmetry. apply Ha.
  - symmetry. exact Hm.
  - apply every2_sym with (1 := IH). exact Hc.
Qed.

Lemma isPNodeEqual_trans (a : Node) :
  forall b c, isPNodeEqual a b = true -> isPNodeEqual b c = true ->
              isPNodeEqual a c = true.
Proof.
  induction a as [t1 a1 m1 c1 x1 IH] using Node_ind.
  intros [t2 a2 m2 c2 x2] [t3 a3 m3 c3 x3] H12 H23.
  apply isPNodeEqual_iff in H12. destruct H12 as [Ht [Hx [Ha [Hm Hc]]]].
  apply isPNodeEqual_iff in H23. destruct H23 as [Ht' [Hx' [Ha' [Hm' Hc']]]].
  apply isPNodeEqual_iff. subst t2 t3. repeat split.
  - intros E. rewrite (Hx E). apply Hx'. exact E.
  - intros k. rewrite Ha. apply Ha'.
  - congruence.
  - apply every2_trans with (1 := IH) (2 := Hc). exact Hc'.
Qed.

(** X1: [isNodeEqual] is a partial equivalence on normalized units, single
    nodes and text-run groups alike: it is symmetric and transitive, and
    so a unit that is equal to any unit is equal to itself.  No more
    reflexivity than that is stated: the attributes are compared with
    [!==], which separates a value such as NaN from itself, and a node
    that holds one is equal to no node. *)
Theorem isNodeEqual_partial_equivalence :
  (forall u v, isNodeEqual u v = true -> isNodeEqual v u = true)
  /\ (forall u v w, isNodeEqual u v = true -> isNodeEqual v w = true ->
                    isNodeEqual u w = true)
  /\ (forall u v, isNodeEqual u v = true ->
                  isNodeEqual u u = true /\ isNodeEqual v v = true).
Proof.
  assert (Hsym : forall u v, isNodeEqual u v = true -> isNodeEqual v u = true).
  { intros [a | a] [b | b]; cbn [isNodeEqual]; intros H; try discriminate.
    - apply isPNodeEqual_sym. exact H.
    - apply every2_sym with (2 := H). apply Forall_forall.
      intros n _. apply isPNodeEqual_sym. }
  assert (Htrans : forall u v w, isNodeEqual u v = true -> isNodeEqual v w = true ->
                                 isNodeEqual u w = true).
  { intros [a | a] [b | b] [c | c]; cbn [isNodeEqual]; intros H1 H2; try discriminate.
    - apply isPNodeEqual_trans with (1 := H1). exact H2.
    - apply every2_trans with (2 := H1) (3 := H2). apply Forall_forall.
      intros n _. apply isPNodeEqual_trans. }
  split; [exact Hsym|]. split; [exact Htrans|].
  intros u v H. split.
  - apply (Htrans u v u H). apply Hsym. exact H.
  - apply (Htrans v u v (Hsym u v H) H).
Qed.

(** X2: what [isNodeEqual] decides on two single nodes, exactly: they are
    equal when and only when they have the same type name, the same text
    if they are text leaves, the same answer of [getNodeAttribute] for
    every attribute name (set or not, in whatever order the attributes
    were set), the same marks in the same order, and children that are
    pairwise equal, in the same number. *)
Theorem isNodeEqual_characterised (a b : Node) :
  isNodeEqual (Single a) (Single b) = true
  <-> node_type a = node_type b
      /\ (isTextNode (Single a) = true -> getNodeText a = getNodeText b)
      /\ (forall attribute, getNodeAttribute a attribute = getNodeAttribute b attribute)
      /\ getNodeMarks a = getNodeMarks b
      /\ List.length (getNodeChildren a) = List.length (getNodeChildren b)
      /\ (forall i, i < List.length (getNodeChildren a) ->
                    isNodeEqual (Single (nth i (getNodeChildren a) a))
                                (Single (nth i (getNodeChildren b) a)) = true).
Proof.
  destruct a as [t1 a1 m1 c1 x1], b as [t2 a2 m2 c2 x2]. cbn [isNodeEqual].
  rewrite isPNodeEqual_iff.
  unfold getNodeMarks, getNodeChildren, getNodeAttribute.
  cbn [node_type node_marks node_content node_attrs isTextNode].
  rewrite String.eqb_eq.
  assert (HC : every2 isPNodeEqual c1 c2 = true
               <-> List.length c1 = List.length c2
                   /\ forall i, i < List.length c1 ->
                                isPNodeEqual (nth i c1 (mkNode t1 a1 m1 c1 x1))
                                             (nth i c2 (mkNode t1 a1 m1 c1 x1)) = true).
  { generalize (mkNode t1 a1 m1 c1 x1) as d. intros d. clear.
    revert c2. induction c1 as [|x r IH]; intros [|y r2]; cbn [every2 List.length nth].
    - split; [intros _; split; [reflexivity | intros i Hi; lia] | reflexivity].
    - split; [discriminate | intros [H _]; discriminate].
    - split; [discriminate | intros [H _]; discriminate].
    - rewrite andb_true_iff, IH. split.
      + intros [Hxy [Hl Hn]]. split; [lia|].
        intros [|i] Hi; [exact Hxy | apply Hn; lia].
      + intros [Hl Hn]. split; [apply (Hn 0); lia|]. split; [lia|].
        intros i Hi. apply (Hn (S i)). lia. }
  rewrite HC. tauto.
Qed.

Lemma isNodeEqual_characterised_witness :
  isNodeEqual
    (Single (mkNode "heading" [("level"%string, ANum 2); ("id"%string, AStr "t")]
                    [] [text_leaf "T"] None))
    (Single (mkNode "heading" [("id"%string, AStr "t"); ("level"%string, ANum 2)]
                    [] [text_leaf "T"] None))
  = true.
Proof.
  apply (isNodeEqual_characterised
           (mkNode "heading" [("level"%string, ANum 2); ("id"%string, AStr "t")]
                   [] [text_leaf "T"] None)
           (mkNode "heading" [("id"%string, AStr "t"); ("level"%string, ANum 2)]
                   [] [text_leaf "T"] None)).
  split; [reflexivity|]. split; [discriminate|]. split.
  - intros attribute. unfold getNodeAttribute. cbn [node_attrs attr_get].
    destruct (String.eqb "level" attribute) eqn:E1;
      destruct (String.eqb "id" attribute) eqn:E2; try reflexivity.
    apply String.eqb_eq in E1. apply String.eqb_eq in E2. congruence.
  - split; [reflexivity|]. split; [reflexivity|].
    intros [|i] Hi; [reflexivity | cbn in Hi; lia].
Defined.

(** ** What normalisation builds *)

Lemma normalize_list_shape (content : list Node) :
  forallb unit_ok (normalize_list content) = true
  /\ groups_apart (normalize_list content) = true
  /\ match content, normalize_list content with
     | c :: _, u :: _ => isGroup u = isTextNode (Single c)
     | [], [] => True
     | _, _ => False
     end.
Proof.
  induction content as [|child r IH]; [repeat split|].
  destruct IH as [Hok [Hapart Hhead]].
  rewrite normalize_list_unfold.
  destruct (isTextNode (Single child)) eqn:HT.
  - destruct r as [|next r'];
      [cbn [forallb unit_ok List.length Nat.eqb negb andb]; rewrite HT; repeat split|].
    destruct (isTextNode (Single next)) eqn:HN.
    + destruct (normalize_list (next :: r')) as [|[n | g] res]; [contradiction| |].
      * cbn [isGroup] in Hhead. discriminate.
      * cbn [forallb unit_ok] in Hok. apply andb_true_iff in Hok.
        destruct Hok as [Hg Hres]. apply andb_true_iff in Hg. destruct Hg as [_ Hg].
        split; [|split].
        -- cbn [forallb unit_ok List.length Nat.eqb negb andb]. rewrite HT, Hg, Hres.
           reflexivity.
        -- exact Hapart.
        -- reflexivity.
    + destruct (normalize_list (next :: r')) as [|[n | g] res] eqn:E; [contradiction| |].
      * split; [|split].
        -- cbn [forallb unit_ok List.length Nat.eqb negb andb]. rewrite HT.
           exact Hok.
        -- cbn [groups_apart isGroup andb negb]. exact Hapart.
        -- reflexivity.
      * cbn [isGroup] in Hhead. discriminate.
  - split; [|split].
    + cbn [forallb unit_ok]. rewrite HT. exact Hok.
    + destruct (normalize_list r); [reflexivity|].
      cbn [groups_apart isGroup andb negb]. exact Hapart.
    + reflexivity.
Qed.

(** X3: [normalizeNodeContent] keeps every child, in order: flattening the
    units gives the children back.  Each single unit is no text leaf, each
    group is a non-empty list of text leaves, and no two groups are
    neighbours, so every group is a maximal run. *)
Theorem normalizeNodeContent_partition (node : Node) :
  flat (normalizeNodeContent node) = getNodeChildren node
  /\ forallb unit_ok (normalizeNodeContent node) = true
  /\ groups_apart (normalizeNodeContent node) = true.
Proof.
  unfold normalizeNodeContent. split; [apply flat_normalize_list|].
  destruct (normalize_list_shape (getNodeChildren node)) as [H1 [H2 _]].
  split; assumption.
Qed.

(** X4: normalisation respects structural equality: two nodes that
    [isNodeEqual] accepts have pairwise equal normalized units, in the same
    number. *)
Theorem normalizeNodeContent_respects_equality (a b : Node) :
  isNodeEqual (Single a) (Single b) = true ->
  List.length (normalizeNodeContent a) = List.length (normalizeNodeContent b)
  /\ forall i, i < List.length (normalizeNodeContent a) ->
               isNodeEqual (unit_at (normalizeNodeContent a) i)
                           (unit_at (normalizeNodeContent b) i) = true.
Proof.
  destruct a as [t1 a1 m1 c1 x1], b as [t2 a2 m2 c2 x2]. cbn [isNodeEqual]. intros H.
  apply isPNodeEqual_iff in H. destruct H as [_ [_ [_ [_ Hc]]]].
  pose proof (every2_normalize_list c1 c2 Hc) as E.
  unfold normalizeNodeContent, getNodeChildren. cbn [node_content].
  split; [apply (every2_length _ _ _ E)|].
  intros i Hi. unfold unit_at. apply every2_nth; assumption.
Qed.

Lemma normalizeNodeContent_respects_equality_witness :
  let a := paragraph [text_leaf "a"; text_leaf "b"; image] in
  List.length (normalizeNodeContent a) = List.length (normalizeNodeContent a)
  /\ forall i, i < List.length (normalizeNodeContent a) ->
               isNodeEqual (unit_at (normalizeNodeContent a) i)
                           (unit_at (normalizeNodeContent a) i) = true.
Proof.
  intros a. apply (normalizeNodeContent_respects_equality a a). reflexivity.
Defined.

(** ** What the two trims compute *)

Lemma firstn_S_nth {A : Type} (d : A) (n : nat) (l : list A) :
  n < List.length l -> firstn (S n) l = firstn n l ++ [nth n l d].
Proof.
  revert l. induction n as [|n IH]; intros [|a r] H; cbn [List.length] in H; try lia.
  - reflexivity.
  - cbn [firstn nth app]. f_equal. apply IH. lia.
Qed.

Lemma flat_app (l1 l2 : NormalizedNodeContent) : flat (l1 ++ l2) = flat l1 ++ flat l2.
Proof. unfold flat. rewrite map_app, concat_app. reflexivity. Qed.

Lemma prefix_trim_spec (oldChildren newChildren : NormalizedNodeContent)
      (budget left0 : nat) (acc0 : list Node) :
  let minChildLen := Nat.min (List.length oldChildren) (List.length newChildren) in
  left0 <= minChildLen -> minChildLen <= budget + left0 ->
  let left := fst (prefix_trim oldChildren newChildren budget left0 acc0) in
  left0 <= left <= minChildLen
  /\ snd (prefix_trim oldChildren newChildren budget left0 acc0)
     = acc0 ++ flat (firstn (left - left0) (skipn left0 oldChildren))
  /\ (forall i, left0 <= i < left ->
                isNodeEqual (unit_at oldChildren i) (unit_at newChildren i) = true)
  /\ (left = minChildLen
      \/ isNodeEqual (unit_at oldChildren left) (unit_at newChildren left) = false).
Proof.
  intros minChildLen. revert left0 acc0.
  induction budget as [|b IH]; intros left0 acc0 H1 H2; cbn [prefix_trim].
  - cbn [fst snd]. rewrite Nat.sub_diag. cbn [firstn]. unfold flat at 1. cbn.
    rewrite app_nil_r. repeat split; try lia.
  - fold minChildLen. destruct (left0 <? minChildLen) eqn:G.
    + apply Nat.ltb_lt in G.
      destruct (isNodeEqual (unit_at oldChildren left0) (unit_at newChildren left0)) eqn:E;
        cbn [negb].
      * destruct (IH (S left0) (acc0 ++ ensureArray (unit_at oldChildren left0)))
          as [Hb [Hacc [Heq Hstop]]]; [lia | lia |].
        set (left := fst (prefix_trim oldChildren newChildren b (S left0)
                                      (acc0 ++ ensureArray (unit_at oldChildren left0))))
          in *.
        split; [lia|]. split; [|split].
        -- rewrite Hacc. rewrite (skipn_unit_at oldChildren left0) by (unfold minChildLen in G; lia).
           replace (left - left0) with (S (left - S left0)) by lia.
           cbn [firstn]. unfold flat at 2. cbn [map List.concat].
           rewrite <- app_assoc. reflexivity.
        -- intros i Hi. destruct (Nat.eq_dec i left0) as [-> | Hne]; [exact E|].
           apply Heq. lia.
        -- exact Hstop.
      * cbn [fst snd]. rewrite Nat.sub_diag. cbn [firstn]. unfold flat at 1. cbn.
        rewrite app_nil_r. repeat split; try lia. right. exact E.
    + apply Nat.ltb_ge in G. cbn [fst snd]. rewrite Nat.sub_diag. cbn [firstn].
      unfold flat at 1. cbn. rewrite app_nil_r. repeat split; try lia.
Qed.

Lemma suffix_trim_spec (oldChildren newChildren : NormalizedNodeContent)
      (left budget right0 : nat) (acc0 : list Node) :
  let oldChildLen := List.length oldChildren in
  let newChildLen := List.length newChildren in
  let minChildLen := Nat.min oldChildLen newChildLen in
  minChildLen <= budget + right0 ->
  let right := fst (suffix_trim oldChildren newChildren left budget right0 acc0) in
  right0 <= right
  /\ (right = right0 \/ right + left < minChildLen)
  /\ snd (suffix_trim oldChildren newChildren left budget right0 acc0)
     = flat (firstn (right - right0) (skipn (oldChildLen - right) oldChildren)) ++ acc0
  /\ (forall k, right0 <= k < right ->
                isNodeEqual (unit_at oldChildren (oldChildLen - k - 1))
                            (unit_at newChildren (newChildLen - k - 1)) = true)
  /\ (minChildLen <= right + left + 1
      \/ isNodeEqual (unit_at oldChildren (oldChildLen - right - 1))
                     (unit_at newChildren (newChildLen - right - 1)) = false).
Proof.
  intros oldChildLen newChildLen minChildLen. revert right0 acc0.
  induction budget as [|b IH]; intros right0 acc0 Hb; cbn [suffix_trim].
  - cbn [fst snd]. rewrite Nat.sub_diag. cbn [firstn]. unfold flat. cbn.
    repeat split; try lia; try (left; reflexivity).
  - fold oldChildLen newChildLen minChildLen.
    destruct (right0 + left + 1 <? minChildLen) eqn:G.
    + apply Nat.ltb_lt in G.
      destruct (isNodeEqual (unit_at oldChildren (oldChildLen - right0 - 1))
                            (unit_at newChildren (newChildLen - right0 - 1))) eqn:E;
        cbn [negb].
      * destruct (IH (S right0)
                     (ensureArray (unit_at oldChildren (oldChildLen - right0 - 1)) ++ acc0))
          as [Hle [Hor [Hacc [Heq Hstop]]]]; [lia|].
        set (right := fst (suffix_trim oldChildren newChildren left b (S right0)
                             (ensureArray (unit_at oldChildren (oldChildLen - right0 - 1))
                                          ++ acc0))) in *.
        assert (Hr : right + left < minChildLen) by (destruct Hor; lia).
        split; [lia|]. split; [right; exact Hr|]. split; [|split].
        -- rewrite Hacc.
           replace (right - right0) with (S (right - S right0)) by lia.
           rewrite (firstn_S_nth (Group [])).
           ++ rewrite flat_app, nth_skipn.
              replace (oldChildLen - right + (right - S right0))
                with (oldChildLen - right0 - 1) by (unfold minChildLen in *; lia).
              change (flat [nth (oldChildLen - right0 - 1) oldChildren (Group [])])
                with (ensureArray (unit_at oldChildren (oldChildLen - right0 - 1)) ++ []).
              rewrite app_nil_r, <- app_assoc. reflexivity.
           ++ rewrite length_skipn. fold oldChildLen. unfold minChildLen in *. lia.
        -- intros k Hk. destruct (Nat.eq_dec k right0) as [-> | Hne]; [exact E|].
           apply Heq. lia.
        -- exact Hstop.
      * cbn [fst snd]. rewrite Nat.sub_diag. cbn [firstn]. unfold flat. cbn.
        repeat split; try lia; try (left; reflexivity); right; exact E.
    + apply Nat.ltb_ge in G. cbn [fst snd]. rewrite Nat.sub_diag. cbn [firstn].
      unfold flat. cbn. repeat split; try lia; try (left; reflexivity).
Qed.

(** X5: the prefix trim of [patchDocumentNode] stops at the longest common
    prefix: the first [left] units are pairwise equal, the units at [left]
    differ unless the shorter list is exhausted, and the trim has pushed
    exactly the nodes of the first [left] old units.  The suffix trim does
    the same from the back: the last [right] units are pairwise equal, it
    stops at a differing pair or at the guard [right + left + 1 <
    minChildLen], and it holds the nodes of the last [right] old units. *)
Theorem trims_are_maximal (oldChildren newChildren : NormalizedNodeContent) :
  let oldChildLen := List.length oldChildren in
  let newChildLen := List.length newChildren in
  let minChildLen := Nat.min oldChildLen newChildLen in
  let prefix := prefix_trim oldChildren newChildren minChildLen 0 [] in
  let left := fst prefix in
  let suffix := suffix_trim oldChildren newChildren left minChildLen 0 [] in
  let right := fst suffix in
  (forall i, i < left ->
             isNodeEqual (unit_at oldChildren i) (unit_at newChildren i) = true)
  /\ (left = minChildLen
      \/ isNodeEqual (unit_at oldChildren left) (unit_at newChildren left) = false)
  /\ snd prefix = flat (firstn left oldChildren)
  /\ (forall k, k < right ->
                isNodeEqual (unit_at oldChildren (oldChildLen - k - 1))
                            (unit_at newChildren (newChildLen - k - 1)) = true)
  /\ (minChildLen <= right + left + 1
      \/ isNodeEqual (unit_at oldChildren (oldChildLen - right - 1))
                     (unit_at newChildren (newChildLen - right - 1)) = false)
  /\ snd suffix = flat (skipn (oldChildLen - right) oldChildren).
Proof.
  intros oldChildLen newChildLen minChildLen prefix left suffix right.
  destruct (prefix_trim_spec oldChildren newChildren minChildLen 0 [])
    as [_ [Hacc [Heq Hstop]]]; [lia | fold minChildLen; lia |].
  destruct (suffix_trim_spec oldChildren newChildren left minChildLen 0 [])
    as [_ [Hor [Hacc' [Heq' Hstop']]]]; [fold minChildLen; lia |].
  fold oldChildLen newChildLen minChildLen prefix in Hacc, Heq, Hstop.
  fold left in Hacc, Heq, Hstop.
  fold oldChildLen newChildLen minChildLen suffix in Hor, Hacc', Heq', Hstop'.
  fold right in Hor, Hacc', Heq', Hstop'.
  split; [intros i Hi; apply Heq; lia|]. split; [exact Hstop|].
  split; [rewrite Hacc, Nat.sub_0_r; reflexivity|].
  split; [intros k Hk; apply Heq'; lia|]. split; [exact Hstop'|].
  rewrite Hacc', Nat.sub_0_r, app_nil_r. f_equal.
  apply firstn_all2. rewrite length_skipn. fold oldChildLen.
  assert (right <= oldChildLen) by (unfold minChildLen in *; destruct Hor; lia). lia.
Qed.

(** ** Empty sides *)

Lemma slice_all {A : Type} (l : list A) : slice 0 (0 + List.length l) l = l.
Proof. unfold slice. cbn [skipn Nat.add]. rewrite Nat.sub_0_r. apply firstn_all. Qed.

Lemma slice_whole {A : Type} (l : list A) : slice 0 (List.length l) l = l.
Proof. apply (slice_all l). Qed.

Lemma patchRemainNodes_with_old_empty diff_main rec (newChildren : NormalizedNodeContent) :
  patchRemainNodes_with diff_main rec [] newChildren
  = Ret (map (annotated Inserted) (flat newChildren)).
Proof.
  unfold patchRemainNodes_with.
  assert (G : remain_guard [] newChildren (mkRemain 0 0 [] []) = false) by reflexivity.
  cbn [List.length remain_loop]. rewrite G.
  cbn [bind st_left st_right st_finalLeftChildren st_finalRightChildren].
  rewrite !Nat.sub_0_r. cbn [Nat.sub Nat.eqb negb bind app].
  destruct (List.length newChildren =? 0) eqn:E; cbn [negb bind].
  - apply Nat.eqb_eq in E. destruct newChildren; [reflexivity | discriminate].
  - rewrite slice_all, annotate_all_total by auto. cbn [bind]. rewrite app_nil_r.
    reflexivity.
Qed.

Lemma patchRemainNodes_with_new_empty diff_main rec (oldChildren : NormalizedNodeContent) :
  patchRemainNodes_with diff_main rec oldChildren []
  = Ret (map (annotated Deleted) (flat oldChildren)).
Proof.
  unfold patchRemainNodes_with.
  assert (G : remain_guard oldChildren [] (mkRemain 0 0 [] []) = false).
  { unfold remain_guard. cbn. apply andb_false_r. }
  destruct (List.length oldChildren) as [|k] eqn:EL.
  - destruct oldChildren; [reflexivity | discriminate].
  - cbn [remain_loop]. rewrite G. cbn [bind st_left st_right st_finalLeftChildren
                                        st_finalRightChildren List.length].
    rewrite !Nat.sub_0_r. cbn [Nat.sub Nat.eqb negb bind app].
    rewrite <- EL, slice_all, annotate_all_total by auto. cbn [bind].
    rewrite app_nil_r. reflexivity.
Qed.


Lemma trims_of_empty_old (newChildren : NormalizedNodeContent) (left budget : nat) :
  prefix_trim [] newChildren budget 0 [] = (0, [])
  /\ suffix_trim [] newChildren left budget 0 [] = (0, []).
Proof. destruct budget; split; reflexivity. Qed.

Lemma trims_of_empty_new (oldChildren : NormalizedNodeContent) (left budget : nat) :
  prefix_trim oldChildren [] budget 0 [] = (0, [])
  /\ suffix_trim oldChildren [] left budget 0 [] = (0, []).
Proof.
  destruct budget; split; try reflexivity; cbn [prefix_trim suffix_trim List.length];
    rewrite Nat.min_0_r; reflexivity.
Qed.

(** X7: on two nodes of one type, the old one no text leaf: a childless
    old node gives the old node with every child of the new node annotated
    Inserted, text leaves marked down to the last; a childless new node
    gives the old node with every child of its own annotated Deleted. *)
Theorem patchDocumentNode_pure_insert_or_delete
        (diff_main : list N -> list N -> list (DiffTypeValue * list N))
        (oldNode newNode : Node) :
  isTextNode (Single oldNode) = false ->
  node_type oldNode = node_type newNode ->
  (getNodeChildren oldNode = [] ->
   mapM (fun node => createDiffNode node Inserted) (getNodeChildren newNode)
   = Ret (map (annotated Inserted) (getNodeChildren newNode))
   /\ diffEditor diff_main oldNode newNode
      = Ret (mkNode (node_type oldNode) (node_attrs oldNode) (node_marks oldNode)
                    (map (annotated Inserted) (getNodeChildren newNode)) None))
  /\ (getNodeChildren newNode = [] ->
      mapM (fun node => createDiffNode node Deleted) (getNodeChildren oldNode)
      = Ret (map (annotated Deleted) (getNodeChildren oldNode))
      /\ diffEditor diff_main oldNode newNode
         = Ret (mkNode (node_type oldNode) (node_attrs oldNode) (node_marks oldNode)
                       (map (annotated Deleted) (getNodeChildren oldNode)) None)).
Proof.
  intros HT Ht. split; intros HE.
  - split.
    + apply mapM_Ret_map. apply Forall_forall. intros n _.
      apply createDiffNode_annotated. auto.
    + unfold diffEditor. cbn [patchDocumentNode].
      unfold patchDocumentNode_with, assertNodeTypeEqual, normalizeNodeContent.
      rewrite Ht, String.eqb_refl, HE. cbn [negb bind normalize_list List.length Nat.min].
      destruct (trims_of_empty_old (normalize_list (getNodeChildren newNode)) 0 0)
        as [-> _].
      cbn [fst snd].
      destruct (trims_of_empty_old (normalize_list (getNodeChildren newNode)) 0 0)
        as [_ ->].
      cbn [fst snd slice skipn firstn Nat.sub List.length Nat.eqb negb andb].
      rewrite Nat.sub_0_r.
      rewrite (slice_whole (normalize_list (getNodeChildren newNode))).
      rewrite patchRemainNodes_with_old_empty. cbn [bind fst snd app].
      rewrite flat_normalize_list, app_nil_r.
      rewrite <- Ht. apply createNewNode_Ret. exact HT.
  - split.
    + apply mapM_Ret_map. apply Forall_forall. intros n _.
      apply createDiffNode_annotated. auto.
    + unfold diffEditor. cbn [patchDocumentNode].
      unfold patchDocumentNode_with, assertNodeTypeEqual, normalizeNodeContent.
      rewrite Ht, String.eqb_refl, HE. cbn [negb bind normalize_list List.length].
      rewrite Nat.min_0_r.
      destruct (trims_of_empty_new (normalize_list (getNodeChildren oldNode)) 0 0)
        as [-> _].
      cbn [fst snd].
      destruct (trims_of_empty_new (normalize_list (getNodeChildren oldNode)) 0 0)
        as [_ ->].
      cbn [fst snd]. rewrite !Nat.sub_0_r.
      rewrite (slice_whole (normalize_list (getNodeChildren oldNode))).
      change (slice 0 0 (@nil ProsemirrorNodeLike)) with (@nil ProsemirrorNodeLike).
      cbn [List.length Nat.eqb negb]. rewrite andb_false_r.
      rewrite patchRemainNodes_with_new_empty. cbn [bind fst snd app].
      rewrite flat_normalize_list, app_nil_r.
      rewrite <- Ht. apply createNewNode_Ret. exact HT.
Qed.

Lemma patchDocumentNode_pure_insert_or_delete_witness :
  diffEditor prefix_diff (paragraph []) (paragraph [text_leaf "New."; image])
  = Ret (paragraph [mkNode "text" [] [diffMark Inserted] [] (Some "New."%string); image])
  /\ diffEditor prefix_diff (paragraph [text_leaf "Old."; image]) (paragraph [])
     = Ret (paragraph [mkNode "text" [] [diffMark Deleted] [] (Some "Old."%string); image]).
Proof.
  split.
  - destruct (patchDocumentNode_pure_insert_or_delete
                prefix_diff (paragraph []) (paragraph [text_leaf "New."; image]))
      as [H _]; [reflexivity | reflexivity |].
    destruct H as [_ H]; [reflexivity|]. exact H.
  - destruct (patchDocumentNode_pure_insert_or_delete
                prefix_diff (paragraph [text_leaf "Old."; image]) (paragraph []))
      as [_ H]; [reflexivity | reflexivity |].
    destruct H as [_ H]; [reflexivity|]. exact H.
Defined.

(** ** The annotator: errors, text and well-formedness *)

Lemma mapM_throw_or_id {A : Type} (f : A -> outcome A) (p : A -> bool) (e : string)
      (l : list A) :
  Forall (fun a => f a = if p a then Throw e else Ret a) l ->
  mapM f l = if existsb p l then Throw e else Ret l.
Proof.
  induction 1 as [|a r Ha _ IH]; [reflexivity|].
  cbn [mapM existsb]. fold (mapM f r). rewrite Ha.
  destruct (p a); cbn [bind orb]; [reflexivity|].
  rewrite IH. destruct (existsb p r); reflexivity.
Qed.

Lemma createDiffNode_Unchanged (n : Node) :
  createDiffNode n Unchanged
  = if contains_text n then Throw "type is not valid" else Ret n.
Proof.
  unfold createDiffNode.
  induction n as [type attrs marks content text IH] using Node_ind.
  rewrite mapDocumentNode_unfold.
  rewrite (mapM_throw_or_id _ contains_text "type is not valid" content IH).
  cbn [contains_text].
  destruct (existsb contains_text content); [rewrite orb_true_r; reflexivity|].
  rewrite orb_false_r. cbn [bind isTextNode node_type].
  destruct (String.eqb type "text"); reflexivity.
Qed.

Lemma annotated_text_free (A : DiffTypeValue) (n : Node) :
  contains_text n = false -> annotated A n = n.
Proof.
  induction n as [type attrs marks content text IH] using Node_ind.
  cbn [contains_text annotated]. intros H. apply orb_false_iff in H.
  destruct H as [-> H]. f_equal.
  rewrite <- (map_id content) at 2. apply map_ext_in. intros c Hc.
  rewrite Forall_forall in IH. apply IH; [exact Hc|].
  destruct (contains_text c) eqn:E; [|reflexivity].
  assert (existsb contains_text content = true)
    by (apply existsb_exists; exists c; split; assumption).
  congruence.
Qed.

(** X8: [createDiffNode] with the annotation Unchanged throws
    "type is not valid" exactly when the subtree holds a node of type
    "text", and otherwise returns the node as it is; with any annotation a
    subtree without text nodes is returned unchanged. *)
Theorem createDiffNode_without_text (node : Node) :
  (contains_text node = true ->
   createDiffNode node Unchanged = Throw "type is not valid")
  /\ (contains_text node = false ->
      forall type, createDiffNode node type = Ret node).
Proof.
  split; intros H.
  - rewrite createDiffNode_Unchanged, H. reflexivity.
  - intros [| |].
    + rewrite createDiffNode_Unchanged, H. reflexivity.
    + rewrite createDiffNode_annotated by auto. rewrite annotated_text_free by exact H.
      reflexivity.
    + rewrite createDiffNode_annotated by auto. rewrite annotated_text_free by exact H.
      reflexivity.
Qed.

Lemma join_map_ext {A : Type} (f g : A -> string) (l : list A) :
  Forall (fun a => f a = g a) l -> join (map f l) = join (map g l).
Proof.
  induction 1 as [|a r Ha _ IH]; [reflexivity|].
  cbn [map join fold_right]. fold (join (map f r)). fold (join (map g r)).
  rewrite Ha, IH. reflexivity.
Qed.

Lemma text_content_annotated (A : DiffTypeValue) (n : Node) :
  text_content (annotated A n) = text_content n.
Proof.
  induction n as [type attrs marks content text IH] using Node_ind.
  cbn [annotated text_content].
  destruct (String.eqb type "text") eqn:E.
  - cbn [text_content String.eqb Ascii.eqb Bool.eqb]. reflexivity.
  - cbn [text_content]. rewrite E, map_map. apply join_map_ext. exact IH.
Qed.

Lemma well_formed_annotated (A : DiffTypeValue) (n : Node) :
  well_formed n = true -> well_formed (annotated A n) = true.
Proof.
  induction n as [type attrs marks content text IH] using Node_ind.
  cbn [annotated well_formed].
  destruct (String.eqb type "text") eqn:E; [reflexivity|].
  cbn [well_formed]. rewrite E. destruct text; [discriminate|].
  rewrite !forallb_forall. intros H c Hc. apply in_map_iff in Hc.
  destruct Hc as [c0 [<- Hc0]]. rewrite Forall_forall in IH. apply IH; auto.
Qed.

(** X9: for the annotations Inserted and Deleted, [createDiffNode] changes
    no text: the subtree it returns holds the same text, leaf after leaf;
    and a tree of the data model stays one. *)
Theorem createDiffNode_keeps_text (node : Node) (type : DiffTypeValue) :
  type = Inserted \/ type = Deleted ->
  exists annotatedNode,
    createDiffNode node type = Ret annotatedNode
    /\ text_content annotatedNode = text_content node
    /\ node_type annotatedNode = node_type node
    /\ (well_formed node = true -> well_formed annotatedNode = true).
Proof.
  intros HA. exists (annotated type node).
  split; [apply createDiffNode_annotated; exact HA|].
  split; [apply text_content_annotated|].
  split; [|apply well_formed_annotated].
  destruct node as [t a m c x]. cbn [annotated node_type].
  destruct (String.eqb t "text") eqn:E; [|reflexivity].
  apply String.eqb_eq in E. subst t. reflexivity.
Qed.

Lemma createDiffNode_keeps_text_witness :
  exists annotatedNode,
    createDiffNode (paragraph [text_leaf "One. "; image; text_leaf "Two."]) Inserted
    = Ret annotatedNode
    /\ text_content annotatedNode
       = text_content (paragraph [text_leaf "One. "; image; text_leaf "Two."])
    /\ node_type annotatedNode = "paragraph"%string
    /\ (well_formed (paragraph [text_leaf "One. "; image; text_leaf "Two."]) = true ->
        well_formed annotatedNode = true).
Proof.
  apply (createDiffNode_keeps_text
           (paragraph [text_leaf "One. "; image; text_leaf "Two."]) Inserted).
  left. reflexivity.
Defined.

(** ** What the tokenizer keeps *)

Lemma string_app_assoc (a b c : string) : ((a ++ b) ++ c = a ++ (b ++ c))%string.
Proof. induction a as [|x a IH]; cbn; [reflexivity | rewrite IH; reflexivity]. Qed.

Lemma string_app_nil_r (a : string) : (a ++ "" = a)%string.
Proof. induction a as [|x a IH]; cbn; [reflexivity | rewrite IH; reflexivity]. Qed.

Lemma string_length_app (a b : string) :
  String.length (a ++ b) = String.length a + String.length b.
Proof. induction a as [|x a IH]; cbn; [reflexivity | rewrite IH; reflexivity]. Qed.

Lemma push_char_app (cur : string) (c : ascii) (r : string) :
  (push_char cur c ++ r = cur ++ String c r)%string.
Proof. unfold push_char. rewrite string_app_assoc. reflexivity. Qed.

Lemma keep_chars_app (f : ascii -> bool) (a b : string) :
  keep_chars f (a ++ b) = (keep_chars f a ++ keep_chars f b)%string.
Proof.
  induction a as [|x a IH]; cbn [String.append keep_chars]; [reflexivity|].
  destruct (f x); cbn [String.append]; rewrite IH; reflexivity.
Qed.

Lemma join_cons (s : string) (l : list string) : join (s :: l) = (s ++ join l)%string.
Proof. reflexivity. Qed.

Lemma join_filter_nonEmpty (l : list string) : join (filter nonEmpty l) = join l.
Proof.
  induction l as [|s r IH]; [reflexivity|].
  cbn [filter]. destruct s as [|c s]; cbn [nonEmpty].
  - rewrite join_cons. exact IH.
  - rewrite !join_cons, IH. reflexivity.
Qed.

(** The sentences of the scan lose characters of [[.!?]] only. *)
Lemma tokenize_scan_keeps (text : string) :
  forall phase cur,
    keep_chars (fun c => negb (isStop c)) (join (tokenize_scan phase cur text))
    = match phase with
      | Seek => keep_chars (fun c => negb (isStop c)) text
      | _ => keep_chars (fun c => negb (isStop c)) (cur ++ text)
      end.
Proof.
  induction text as [|c r IH]; intros phase cur.
  - destruct phase; reflexivity.
  - destruct phase; cbn [tokenize_scan].
    + destruct (isStop c) eqn:S.
      * rewrite IH. cbn [keep_chars]. rewrite S. reflexivity.
      * rewrite IH. reflexivity.
    + destruct (isStop c); rewrite IH, push_char_app; reflexivity.
    + destruct (isStop c) eqn:S; [rewrite IH, push_char_app; reflexivity|].
      destruct (isSpace c); [rewrite IH, push_char_app; reflexivity|].
      rewrite join_cons, !keep_chars_app, IH. reflexivity.
    + destruct (isSpace c); [rewrite IH, push_char_app; reflexivity|].
      destruct (isStop c) eqn:S.
      * rewrite join_cons, !keep_chars_app, IH. cbn [keep_chars]. rewrite S. reflexivity.
      * rewrite join_cons, !keep_chars_app, IH. reflexivity.
Qed.

Lemma tokenize_scan_length (text : string) :
  forall phase cur,
    String.length (join (tokenize_scan phase cur text))
    <= match phase with
       | Seek => String.length text
       | _ => String.length cur + String.length text
       end.
Proof.
  assert (HP : forall cur c, String.length (push_char cur c) = S (String.length cur)).
  { intros cur c. unfold push_char. rewrite string_length_app. cbn. lia. }
  induction text as [|c r IH]; intros phase cur.
  - destruct phase; cbn [tokenize_scan]; [cbn; lia | | |];
      rewrite join_cons, string_length_app; cbn; lia.
  - destruct phase; cbn [tokenize_scan String.length].
    + destruct (isStop c); [specialize (IH Seek EmptyString) | specialize (IH Body (String c EmptyString))];
        cbn in IH; lia.
    + destruct (isStop c);
        [specialize (IH Stops (push_char cur c)) | specialize (IH Body (push_char cur c))];
        cbn beta iota in IH; rewrite HP in IH; lia.
    + destruct (isStop c);
        [specialize (IH Stops (push_char cur c)); cbn beta iota in IH; rewrite HP in IH; lia|].
      destruct (isSpace c);
        [specialize (IH Blanks (push_char cur c)); cbn beta iota in IH; rewrite HP in IH; lia|].
      rewrite join_cons, string_length_app.
      specialize (IH Body (String c EmptyString)). cbn in IH. lia.
    + destruct (isSpace c);
        [specialize (IH Blanks (push_char cur c)); cbn beta iota in IH; rewrite HP in IH; lia|].
      destruct (isStop c); rewrite join_cons, string_length_app;
        [specialize (IH Seek EmptyString) | specialize (IH Body (String c EmptyString))];
        cbn in IH; lia.
Qed.

Lemma tokenize_scan_shape (text : string) :
  forall phase cur,
    phase = Seek \/ nonEmpty cur && negb (starts_with_stop cur) = true ->
    forallb (fun s => nonEmpty s && negb (starts_with_stop s))
            (tokenize_scan phase cur text) = true.
Proof.
  assert (HP : forall cur c,
             nonEmpty cur && negb (starts_with_stop cur) = true ->
             nonEmpty (push_char cur c) && negb (starts_with_stop (push_char cur c)) = true).
  { intros [|a cur] c H; [discriminate | exact H]. }
  induction text as [|c r IH]; intros phase cur H.
  - destruct phase; cbn [tokenize_scan forallb]; [reflexivity | | |];
      destruct H as [H | H]; try discriminate; rewrite H; reflexivity.
  - destruct phase; cbn [tokenize_scan].
    + destruct (isStop c) eqn:S; apply IH; [left; reflexivity|].
      right. cbn [nonEmpty starts_with_stop]. rewrite S. reflexivity.
    + destruct H as [H | H]; [discriminate|].
      destruct (isStop c); apply IH; right; apply HP; exact H.
    + destruct H as [H | H]; [discriminate|].
      destruct (isStop c) eqn:S; [apply IH; right; apply HP; exact H|].
      destruct (isSpace c); [apply IH; right; apply HP; exact H|].
      cbn [forallb]. apply andb_true_iff. split; [exact H|]. apply IH. right.
      cbn [nonEmpty starts_with_stop]. rewrite S. reflexivity.
    + destruct H as [H | H]; [discriminate|].
      destruct (isSpace c); [apply IH; right; apply HP; exact H|].
      destruct (isStop c) eqn:S; cbn [forallb]; apply andb_true_iff;
        (split; [exact H|]); apply IH; [left; reflexivity|].
      right. cbn [nonEmpty starts_with_stop]. rewrite S. reflexivity.
Qed.

(** X10: [tokenizeSentences] loses characters of [[.!?]] only: outside
    that class the sentences, joined, read as the text does; it adds
    nothing (the joined sentences are no longer than the text); and every
    sentence is non-empty and begins outside the class. *)
Theorem tokenizeSentences_keeps_other_characters (text : string) :
  keep_chars (fun c => negb (isStop c)) (join (tokenizeSentences text))
  = keep_chars (fun c => negb (isStop c)) text
  /\ String.length (join (tokenizeSentences text)) <= String.length text
  /\ forallb (fun s => nonEmpty s && negb (starts_with_stop s))
             (tokenizeSentences text) = true.
Proof.
  unfold tokenizeSentences. rewrite join_filter_nonEmpty.
  split; [apply (tokenize_scan_keeps text Seek EmptyString)|].
  split; [apply (tokenize_scan_length text Seek EmptyString)|].
  apply forallb_forall. intros s Hs. apply filter_In in Hs. destruct Hs as [Hs _].
  pose proof (tokenize_scan_shape text Seek EmptyString (or_introl eq_refl)) as H.
  rewrite forallb_forall in H. apply H. exact Hs.
Qed.

Lemma tokenize_scan_lossless (text : string) :
  forall phase cur prev,
    phase <> Seek ->
    (phase = Blanks -> isSpace prev = true) ->
    no_stop_after_space prev text = true ->
    join (tokenize_scan phase cur text) = (cur ++ text)%string.
Proof.
  induction text as [|c r IH]; intros phase cur prev HP HB HN.
  - destruct phase; [contradiction | | |]; reflexivity.
  - cbn [no_stop_after_space] in HN. apply andb_true_iff in HN. destruct HN as [HN1 HN2].
    destruct phase; [contradiction | | |]; cbn [tokenize_scan].
    + destruct (isStop c);
        rewrite (IH _ _ c), push_char_app; try reflexivity; try discriminate; exact HN2.
    + destruct (isStop c) eqn:S.
      * rewrite (IH _ _ c), push_char_app; try reflexivity; try discriminate. exact HN2.
      * destruct (isSpace c) eqn:W.
        -- rewrite (IH _ _ c), push_char_app; try reflexivity; try discriminate;
             [intros _; exact W | exact HN2].
        -- rewrite join_cons, (IH _ _ c); try reflexivity; try discriminate. exact HN2.
    + destruct (isSpace c) eqn:W.
      * rewrite (IH _ _ c), push_char_app; try reflexivity; try discriminate;
          [intros _; exact W | exact HN2].
      * rewrite (HB eq_refl) in HN1. cbn [andb] in HN1. apply negb_true_iff in HN1.
        rewrite HN1. rewrite join_cons, (IH _ _ c); try reflexivity; try discriminate.
        exact HN2.
Qed.

Lemma join_tokenizeSentences (text : string) :
  stops_attached text = true -> join (tokenizeSentences text) = text.
Proof.
  unfold tokenizeSentences. rewrite join_filter_nonEmpty.
  destruct text as [|c r]; [reflexivity|].
  cbn [stops_attached]. intros H. apply andb_true_iff in H. destruct H as [H1 H2].
  apply negb_true_iff in H1. cbn [tokenize_scan]. rewrite H1.
  rewrite (tokenize_scan_lossless r Body (String c EmptyString) c);
    try reflexivity; try discriminate. exact H2.
Qed.

(** X11: a text that does not begin with a character of [[.!?]] and has
    none right after white space is split without loss: its sentences,
    joined, are the text, so a text that is not empty has a sentence. *)
Theorem tokenizeSentences_lossless (text : string) :
  stops_attached text = true ->
  join (tokenizeSentences text) = text
  /\ (text <> EmptyString -> tokenizeSentences text <> []).
Proof.
  intros H. pose proof (join_tokenizeSentences text H) as J.
  split; [exact J|]. intros HT HE. rewrite HE in J. cbn in J. congruence.
Qed.

Lemma tokenizeSentences_lossless_witness :
  join (tokenizeSentences "Is it so?  Yes... It is!") = "Is it so?  Yes... It is!"%string.
Proof.
  apply (tokenizeSentences_lossless "Is it so?  Yes... It is!"). reflexivity.
Defined.

(** ** The sentence table *)

Lemma intern_sentence_keeps (t : LineTable) (s' s : string) :
  lineHash_has (lineHash t) s = true ->
  lineHash_own (lineHash (fst (intern_sentence t s'))) s = lineHash_own (lineHash t) s.
Proof.
  intros H. unfold intern_sentence.
  destruct (lineHash_has (lineHash t) s') eqn:E; [reflexivity|].
  cbn [fst lineHash lineHash_own].
  destruct (String.eqb s' s) eqn:ES; [|reflexivity].
  apply String.eqb_eq in ES. subst s'. congruence.
Qed.

Lemma lineHash_has_own (h h' : LineHash) (s : string) :
  lineHash_own h' s = lineHash_own h s ->
  lineHash_has h' s = lineHash_has h s /\ lineHash_get h' s = lineHash_get h s.
Proof. unfold lineHash_has, lineHash_get. intros ->. split; reflexivity. Qed.

Lemma intern_sentence_code (t : LineTable) (s : string) :
  snd (intern_sentence t s)
  = fromCharCode (lineHash_get (lineHash (fst (intern_sentence t s))) s)
  /\ lineHash_has (lineHash (fst (intern_sentence t s))) s = true.
Proof.
  unfold intern_sentence.
  destruct (lineHash_has (lineHash t) s) eqn:E; cbn [fst snd lineHash].
  - split; [reflexivity | exact E].
  - split; [reflexivity|]. unfold lineHash_has. cbn [lineHash_own].
    rewrite String.eqb_refl. reflexivity.
Qed.

Lemma intern_all_codes (sentences : list string) :
  forall t,
    snd (intern_all t sentences)
    = map (fun s => fromCharCode (lineHash_get (lineHash (fst (intern_all t sentences))) s))
          sentences
    /\ (forall s, lineHash_has (lineHash t) s = true ->
                  lineHash_own (lineHash (fst (intern_all t sentences))) s
                  = lineHash_own (lineHash t) s)
    /\ (forall s, In s sentences ->
                  lineHash_has (lineHash (fst (intern_all t sentences))) s = true).
Proof.
  induction sentences as [|s r IH]; intros t; cbn [intern_all].
  - cbn [fst snd map]. split; [reflexivity|].
    split; [intros; reflexivity | intros s []].
  - pose proof (intern_sentence_code t s) as [Hc Hk].
    pose proof (intern_sentence_keeps t s) as Hkeep.
    destruct (intern_sentence t s) as [t1 c]. cbn [fst snd] in *.
    destruct (IH t1) as [Hcs [Hpres Hin]].
    destruct (intern_all t1 r) as [t2 cs]. cbn [fst snd] in *.
    assert (Hpres' : forall x, lineHash_has (lineHash t) x = true ->
                               lineHash_own (lineHash t2) x = lineHash_own (lineHash t) x).
    { intros x Hx. rewrite <- (Hkeep x Hx). apply Hpres.
      destruct (lineHash_has_own _ _ x (Hkeep x Hx)) as [-> _]. exact Hx. }
    split; [|split].
    + cbn [map]. rewrite <- Hcs. f_equal. rewrite Hc.
      destruct (lineHash_has_own _ _ s (Hpres s Hk)) as [_ ->]. reflexivity.
    + exact Hpres'.
    + intros x [<- | Hx]; [|apply Hin; exact Hx].
      destruct (lineHash_has_own _ _ s (Hpres s Hk)) as [-> _]. exact Hk.
Qed.

Lemma intern_sentence_lines (t : LineTable) (s : string) :
  NoDup (lineArray t) ->
  (forall x, In x (lineArray t) -> lineHash_has (lineHash t) x = true) ->
  NoDup (lineArray (fst (intern_sentence t s)))
  /\ (forall x, In x (lineArray (fst (intern_sentence t s))) ->
                lineHash_has (lineHash (fst (intern_sentence t s))) x = true)
  /\ (forall x, In x (lineArray (fst (intern_sentence t s))) ->
                In x (lineArray t) \/ x = s).
Proof.
  intros HN HH.
  pose proof (intern_sentence_keeps t s) as Hkeep.
  pose proof (intern_sentence_code t s) as [_ Hk].
  unfold intern_sentence in *.
  destruct (lineHash_has (lineHash t) s) eqn:E; cbn [fst lineArray lineHash] in *.
  - repeat split; auto.
  - split; [|split].
    + apply NoDup_app.
      * exact HN.
      * constructor; [intros [] | constructor].
      * intros x Hx [E' | []]. subst x. specialize (HH s Hx). congruence.
    + intros x Hx. apply in_app_or in Hx. destruct Hx as [Hx | [E' | []]];
        [|subst x; exact Hk].
      destruct (lineHash_has_own _ _ x (Hkeep x (HH x Hx))) as [-> _]. apply HH. exact Hx.
    + intros x Hx. apply in_app_or in Hx. destruct Hx as [Hx | [E' | []]]; auto.
Qed.

Lemma intern_all_lines (sentences : list string) :
  forall t,
    NoDup (lineArray t) ->
    (forall x, In x (lineArray t) -> lineHash_has (lineHash t) x = true) ->
    NoDup (lineArray (fst (intern_all t sentences)))
    /\ (forall x, In x (lineArray (fst (intern_all t sentences))) ->
                  lineHash_has (lineHash (fst (intern_all t sentences))) x = true)
    /\ (forall x, In x (lineArray (fst (intern_all t sentences))) ->
                  In x (lineArray t) \/ In x sentences).
Proof.
  induction sentences as [|s r IH]; intros t HN HH; cbn [intern_all].
  - cbn [fst]. repeat split; auto.
  - destruct (intern_sentence_lines t s HN HH) as [HN1 [HH1 HI1]].
    destruct (intern_sentence t s) as [t1 c]. cbn [fst] in *.
    destruct (IH t1 HN1 HH1) as [HN2 [HH2 HI2]].
    destruct (intern_all t1 r) as [t2 cs]. cbn [fst] in *.
    split; [exact HN2|]. split; [exact HH2|].
    intros x Hx. destruct (HI2 x Hx) as [H | H]; [|right; right; exact H].
    destruct (HI1 x H) as [H' | ->]; [left; exact H' | right; left; reflexivity].
Qed.

(** X12: [sentencesToChars] gives every sentence one code, the same
    wherever the sentence occurs on either side: both code strings are the
    image of their sentence lists under one map.  The table [lineArray]
    lists sentences of the two sides without repeating any. *)
Theorem sentencesToChars_codes (oldSentences newSentences : list string) :
  let chars1 := fst (fst (sentencesToChars oldSentences newSentences)) in
  let chars2 := snd (fst (sentencesToChars oldSentences newSentences)) in
  let lineArray := snd (sentencesToChars oldSentences newSentences) in
  (exists code : string -> N,
      chars1 = map code oldSentences /\ chars2 = map code newSentences)
  /\ NoDup lineArray
  /\ (forall line, In line lineArray -> In line (oldSentences ++ newSentences))
  /\ List.length lineArray <= List.length (oldSentences ++ newSentences).
Proof.
  unfold sentencesToChars.
  pose (t0 := mkLineTable [] [] 0%N).
  destruct (intern_all_codes oldSentences t0) as [Hc1 [_ Hin1]].
  destruct (intern_all_lines oldSentences t0) as [HN1 [HH1 HI1]];
    [constructor | intros x [] |].
  fold t0. destruct (intern_all t0 oldSentences) as [t1 chars1]. cbn [fst snd] in *.
  destruct (intern_all_codes newSentences t1) as [Hc2 [Hpres _]].
  destruct (intern_all_lines newSentences t1 HN1 HH1) as [HN2 [_ HI2]].
  destruct (intern_all t1 newSentences) as [t2 chars2]. cbn [fst snd] in *.
  assert (HI : forall line, In line (lineArray t2) -> In line (oldSentences ++ newSentences)).
  { intros line Hl. apply in_or_app. destruct (HI2 line Hl) as [H | H]; [|right; exact H].
    destruct (HI1 line H) as [[] | H']. left. exact H'. }
  split; [|split; [exact HN2 | split; [exact HI|]]].
  - exists (fun s => fromCharCode (lineHash_get (lineHash t2) s)).
    split; [|exact Hc2]. rewrite Hc1. apply map_ext_in. intros s Hs.
    destruct (lineHash_has_own _ _ s (Hpres s (Hin1 s Hs))) as [_ ->]. reflexivity.
  - apply NoDup_incl_length; [exact HN2 | exact HI].
Qed.

(** X13: expanding the codes gives the sentences back: when no sentence
    is empty or bears the name of an inherited property of [lineHash], and
    the table holds at most 65536 sentences, [lineArray] maps the codes of
    each side to the sentences of that side. *)
Theorem sentencesToChars_round_trip (oldSentences newSentences : list string) :
  forallb plain_sentence (oldSentences ++ newSentences) = true ->
  forallb nonEmpty (oldSentences ++ newSentences) = true ->
  (N.of_nat (List.length (snd (sentencesToChars oldSentences newSentences)))
   <= 65536)%N ->
  let chars1 := fst (fst (sentencesToChars oldSentences newSentences)) in
  let chars2 := snd (fst (sentencesToChars oldSentences newSentences)) in
  let lineArray := snd (sentencesToChars oldSentences newSentences) in
  decode lineArray chars1 = oldSentences /\ decode lineArray chars2 = newSentences.
Proof.
  rewrite !forallb_app, !andb_true_iff. intros [Hpo Hpn] [Hno Hnn] Hlen.
  pose proof (sentencesToChars_decode oldSentences newSentences Hpo Hpn Hno Hnn) as D.
  destruct (sentencesToChars oldSentences newSentences) as [[chars1 chars2] lines].
  cbn [fst snd] in *. apply D. exact Hlen.
Qed.

Lemma sentencesToChars_round_trip_witness :
  decode ["A. "; "B. "; "C."]%string [0; 1; 0]%N = ["A. "; "B. "; "A. "]%string
  /\ decode ["A. "; "B. "; "C."]%string [1; 2]%N = ["B. "; "C."]%string.
Proof.
  apply (sentencesToChars_round_trip ["A. "; "B. "; "A. "]%string ["B. "; "C."]%string);
    [reflexivity | reflexivity | vm_compute; discriminate].
Defined.

(** ** The leaves of the text diff engine *)

(** X14: the sentence round trip where it holds.  For a character diff
    that meets its contract, two texts that do not begin with a character
    of [[.!?]] and have none right after white space, sentences that do
    not bear the name of an inherited property, and a table of at most
    65536 sentences: the leaves kept as Unchanged or Inserted spell the new
    text, the leaves kept as Unchanged or Deleted the old text. *)
Theorem patchTextNodes_round_trip_holds
        (diff_main : list N -> list N -> list (DiffTypeValue * list N))
        (oldNode newNode : list Node) :
  let oldText := join (map getNodeText oldNode) in
  let newText := join (map getNodeText newNode) in
  diff_contract diff_main ->
  stops_attached oldText = true ->
  stops_attached newText = true ->
  forallb plain_sentence (tokenizeSentences oldText ++ tokenizeSentences newText) = true ->
  (N.of_nat (List.length (snd (sentencesToChars (tokenizeSentences oldText)
                                                (tokenizeSentences newText))))
   <= 65536)%N ->
  exists leaves,
    patchTextNodes diff_main oldNode newNode = Ret leaves
    /\ kept_text not_Deleted leaves = newText
    /\ kept_text not_Inserted leaves = oldText.
Proof.
  intros oldText newText C So Sn Hp Hlen.
  rewrite forallb_app, andb_true_iff in Hp. destruct Hp as [Hpo Hpn].
  destruct (patchTextNodes_round_trip diff_main oldNode newNode C Hpo Hpn Hlen)
    as [leaves [HR [_ [_ [Hn Ho]]]]].
  exists leaves. split; [exact HR|]. split.
  - apply Hn. apply join_tokenizeSentences. exact Sn.
  - apply Ho. apply join_tokenizeSentences. exact So.
Qed.

Lemma patchTextNodes_round_trip_holds_witness :
  exists leaves,
    patchTextNodes prefix_diff [text_leaf "The cat sat. "; text_leaf "It slept."]
                   [text_leaf "The cat sat. It purred."]
    = Ret leaves
    /\ kept_text not_Deleted leaves = "The cat sat. It purred."%string
    /\ kept_text not_Inserted leaves = "The cat sat. It slept."%string.
Proof.
  apply (patchTextNodes_round_trip_holds
           prefix_diff [text_leaf "The cat sat. "; text_leaf "It slept."]
           [text_leaf "The cat sat. It purred."]);
    [exact prefix_diff_contract | reflexivity | reflexivity | reflexivity
     | vm_compute; discriminate].
Defined.

(** X15: whatever the character diff answers, [patchTextNodes] returns
    text leaves only, each with a text that is not empty, without
    attributes or children, and with no mark or the one diff mark of a
    deletion or an insertion: the marks of the input leaves are not on
    them. *)
Theorem patchTextNodes_leaves_shape
        (diff_main : list N -> list N -> list (DiffTypeValue * list N))
        (oldNode newNode : list Node) :
  exists leaves,
    patchTextNodes diff_main oldNode newNode = Ret leaves
    /\ Forall (fun leaf =>
                 node_type leaf = "text"%string
                 /\ node_attrs leaf = []
                 /\ node_content leaf = []
                 /\ (exists sentence,
                        node_text leaf = Some sentence /\ nonEmpty sentence = true)
                 /\ (node_marks leaf = []
                     \/ node_marks leaf = [diffMark Deleted]
                     \/ node_marks leaf = [diffMark Inserted])
                 /\ well_formed leaf = true)
              leaves.
Proof.
  rewrite patchTextNodes_leaves.
  destruct (sentencesToChars _ _) as [[chars1 chars2] lines].
  eexists. split; [reflexivity|].
  unfold leaves_of. apply Forall_forall. intros leaf Hl.
  apply in_concat in Hl. destruct Hl as [ls [Hls Hl]].
  apply in_map_iff in Hls. destruct Hls as [[type text] [<- _]].
  apply in_map_iff in Hl. destruct Hl as [sentence [<- Hs]].
  unfold decode in Hs. apply filter_In in Hs. destruct Hs as [_ Hne].
  cbn [fst createTextNode schema_text node_type node_attrs node_content node_text
           node_marks well_formed String.eqb Ascii.eqb Bool.eqb].
  repeat split; try reflexivity.
  - exists sentence. split; [reflexivity | exact Hne].
  - destruct type; cbn [segment_marks]; auto.
Qed.

(** ** The patcher builds trees of the data model *)

Lemma patchTextNodes_well_formed diff_main (oldNode newNode res : list Node) :
  patchTextNodes diff_main oldNode newNode = Ret res ->
  Forall (fun n => well_formed n = true) res.
Proof.
  rewrite patchTextNodes_leaves.
  destruct (sentencesToChars _ _) as [[chars1 chars2] lines].
  intros H. injection H as <-.
  unfold leaves_of. apply Forall_forall. intros leaf Hl.
  apply in_concat in Hl. destruct Hl as [ls [Hls Hl]].
  apply in_map_iff in Hls. destruct Hls as [[type text] [<- _]].
  apply in_map_iff in Hl. destruct Hl as [sentence [<- _]]. reflexivity.
Qed.

Lemma well_formed_children (n : Node) :
  well_formed n = true -> isTextNode (Single n) = false ->
  Forall (fun c => well_formed c = true) (node_content n).
Proof.
  destruct n as [t a m c x]. cbn [well_formed isTextNode node_type node_content].
  intros H HT. rewrite HT in H. destruct x; [discriminate|].
  apply Forall_forall. rewrite forallb_forall in H. exact H.
Qed.

Section RemainWellFormed.
Variable diff_main : list N -> list N -> list (DiffTypeValue * list N).
Variable rec : Node -> Node -> outcome Node.
Variables oldChildren newChildren : NormalizedNodeContent.

Hypothesis rec_wf : forall o n p,
    well_formed o = true -> well_formed n = true ->
    isTextNode (Single o) = false ->
    rec o n = Ret p -> well_formed p = true.
Hypothesis old_wf : forall u n,
    In u oldChildren -> In n (ensureArray u) -> well_formed n = true.
Hypothesis new_wf : forall u n,
    In u newChildren -> In n (ensureArray u) -> well_formed n = true.

Lemma remain_step_well_formed (s s' : RemainState) :
  remain_guard oldChildren newChildren s = true ->
  wf_list (st_finalLeftChildren s) -> wf_list (st_finalRightChildren s) ->
  remain_step diff_main rec oldChildren newChildren s = Ret s' ->
  wf_list (st_finalLeftChildren s') /\ wf_list (st_finalRightChildren s').
Proof.
  unfold remain_guard, wf_list. intros G FL FR.
  apply andb_true_iff in G. destruct G as [G1 G2].
  apply Nat.ltb_lt in G1. apply Nat.ltb_lt in G2.
  pose proof (fun n => old_wf _ n (unit_at_In oldChildren (st_left s) ltac:(lia)))
    as HLo.
  pose proof (fun n => new_wf _ n (unit_at_In newChildren (st_left s) ltac:(lia)))
    as HLn.
  pose proof (fun n => old_wf _ n (unit_at_In oldChildren
                (List.length oldChildren - st_right s - 1) ltac:(lia))) as HRo.
  pose proof (fun n => new_wf _ n (unit_at_In newChildren
                (List.length newChildren - st_right s - 1) ltac:(lia))) as HRn.
  unfold remain_step. rewrite tie_break_eq.
  destruct (unit_at oldChildren (st_left s)) as [lo | lo];
    destruct (unit_at newChildren (st_left s)) as [ln | ln];
    destruct (unit_at oldChildren (List.length oldChildren - st_right s - 1)) as [ro | ro];
    destruct (unit_at newChildren (List.length newChildren - st_right s - 1)) as [rn | rn];
    cbn [isTextNode matchNodeType negb andb];
    rewrite ?andb_false_r; cbn [negb andb];
    repeat match goal with
           | |- context [if ?x then _ else _] => destruct x eqn:?
           end;
    rewrite ?createDiffNode_annotated by auto;
    cbn [bind]; intros H;
    repeat match goal with
           | H : bind ?m _ = Ret _ |- _ =>
               apply bind_Ret_inv in H; let a := fresh "p" in
                                        let E := fresh "E" in
                                        destruct H as [a [E H]]
           end;
    injection H as <-;
    cbn [st_finalLeftChildren st_finalRightChildren];
    (split;
     [ repeat (apply Forall_app; split); try assumption
     | try assumption ]);
    repeat match goal with
           | |- Forall _ [] => constructor
           | |- Forall _ (_ :: _) => constructor; [|try assumption]
           | |- well_formed (annotated _ _) = true =>
               apply well_formed_annotated;
               first [ apply HLo; left; reflexivity | apply HLn; left; reflexivity ]
           | E : patchTextNodes _ _ _ = Ret ?p |- Forall _ ?p =>
               apply (patchTextNodes_well_formed _ _ _ _ E)
           end.
  all: eapply rec_wf; [| | | eassumption];
    [ first [ apply HLo; left; reflexivity | apply HRo; left; reflexivity ]
    | first [ apply HLn; left; reflexivity | apply HRn; left; reflexivity ]
    | cbn [isTextNode];
      match goal with
      | |- String.eqb ?t "text" = false =>
          destruct (String.eqb t "text") eqn:ET; [|reflexivity];
          repeat match goal with
                 | H : _ = true |- _ =>
                     rewrite ?ET in H; cbn [negb andb] in H; try discriminate H;
                     clear H
                 end
      end ].
Qed.

Lemma remain_loop_well_formed (budget : nat) (s s' : RemainState) :
  wf_list (st_finalLeftChildren s) -> wf_list (st_finalRightChildren s) ->
  remain_loop diff_main rec oldChildren newChildren budget s = Ret s' ->
  wf_list (st_finalLeftChildren s') /\ wf_list (st_finalRightChildren s').
Proof.
  revert s. induction budget as [|b IH]; intros s FL FR; cbn [remain_loop];
    destruct (remain_guard oldChildren newChildren s) eqn:G; intros H;
    try discriminate; try (injection H as <-; split; assumption).
  apply bind_Ret_inv in H. destruct H as [s1 [H1 H]].
  destruct (remain_step_well_formed s s1 G FL FR H1) as [FL1 FR1].
  apply (IH s1 FL1 FR1 H).
Qed.

Lemma patchRemainNodes_with_well_formed (res : list Node) :
  patchRemainNodes_with diff_main rec oldChildren newChildren = Ret res ->
  wf_list res.
Proof.
  unfold patchRemainNodes_with. intros H.
  apply bind_Ret_inv in H. destruct H as [s [Hs H]].
  destruct (remain_loop_well_formed (List.length oldChildren) (mkRemain 0 0 [] []) s)
    as [FL FR];
    [constructor | constructor | exact Hs |].
  unfold wf_list in *.
  assert (HD : forall a b A, Forall (fun n => well_formed n = true)
                                    (map (annotated A) (flat (slice a b oldChildren)))).
  { intros a b A. apply Forall_forall. intros n Hn. apply in_map_iff in Hn.
    destruct Hn as [n0 [<- Hn0]]. apply well_formed_annotated.
    apply In_flat in Hn0. destruct Hn0 as [u [Hu Hn0]].
    apply (old_wf u); [apply (In_slice a b); exact Hu | exact Hn0]. }
  assert (HI : forall a b A, Forall (fun n => well_formed n = true)
                                    (map (annotated A) (flat (slice a b newChildren)))).
  { intros a b A. apply Forall_forall. intros n Hn. apply in_map_iff in Hn.
    destruct Hn as [n0 [<- Hn0]]. apply well_formed_annotated.
    apply In_flat in Hn0. destruct Hn0 as [u [Hu Hn0]].
    apply (new_wf u); [apply (In_slice a b); exact Hu | exact Hn0]. }
  repeat match type of H with
         | context [if ?x then _ else _] =>
             destruct x; rewrite ?annotate_all_total in H by auto; cbn [bind] in H
         end;
    injection H as <-;
    repeat (apply Forall_app; split); try assumption; try constructor;
    first [apply HD | apply HI].
Qed.
End RemainWellFormed.

Lemma patchDocumentNode_well_formed diff_main (fuel : nat) :
  forall oldNode newNode R,
    well_formed oldNode = true -> well_formed newNode = true ->
    isTextNode (Single oldNode) = false ->
    patchDocumentNode diff_main fuel oldNode newNode = Ret R ->
    well_formed R = true.
Proof.
  induction fuel as [|fuel IH]; intros oldNode newNode R Wo Wn HT H; [discriminate|].
  cbn [patchDocumentNode] in H. unfold patchDocumentNode_with in H.
  apply bind_Ret_inv in H. destruct H as [tt' [HA H]].
  assert (Hty : node_type oldNode = node_type newNode).
  { unfold assertNodeTypeEqual in HA.
    destruct (String.eqb (node_type oldNode) (node_type newNode)) eqn:E;
      [apply String.eqb_eq; exact E | discriminate]. }
  assert (HTn : isTextNode (Single newNode) = false).
  { cbn [isTextNode] in *. rewrite <- Hty. exact HT. }
  pose proof (well_formed_children oldNode Wo HT) as Co.
  pose proof (well_formed_children newNode Wn HTn) as Cn.
  rewrite Forall_forall in Co, Cn.
  set (oldChildren := normalizeNodeContent oldNode) in *.
  set (newChildren := normalizeNodeContent newNode) in *.
  assert (Uo : forall u n, In u oldChildren -> In n (ensureArray u) -> well_formed n = true).
  { intros u n Hu Hn. apply Co. apply (In_normalize_list _ u n Hu Hn). }
  assert (Un : forall u n, In u newChildren -> In n (ensureArray u) -> well_formed n = true).
  { intros u n Hu Hn. apply Cn. apply (In_normalize_list _ u n Hu Hn). }
  destruct (prefix_trim_spec oldChildren newChildren
              (Nat.min (List.length oldChildren) (List.length newChildren)) 0 [])
    as [_ [HP _]]; [lia | lia |].
  set (left := fst (prefix_trim oldChildren newChildren _ 0 [])) in *.
  destruct (suffix_trim_spec oldChildren newChildren left
              (Nat.min (List.length oldChildren) (List.length newChildren)) 0 [])
    as [_ [_ [HS _]]]; [lia|].
  set (right := fst (suffix_trim oldChildren newChildren left _ 0 [])) in *.
  cbn [app] in HP. rewrite app_nil_r in HS. rewrite HP, HS in H. clear HP HS.
  set (diffOld := slice left (List.length oldChildren - right) oldChildren) in *.
  set (diffNew := slice left (List.length newChildren - right) newChildren) in *.
  assert (Fsub : forall sub : NormalizedNodeContent,
             (forall u, In u sub -> In u oldChildren) ->
             Forall (fun n => well_formed n = true) (flat sub)).
  { intros sub Hsub. apply Forall_forall. intros n Hn. apply In_flat in Hn.
    destruct Hn as [u [Hu Hn]]. apply (Uo u n); [apply Hsub; exact Hu | exact Hn]. }
  assert (Hrem : forall subOld subNew res,
             (forall u, In u subOld -> In u oldChildren) ->
             (forall u, In u subNew -> In u newChildren) ->
             patchRemainNodes_with diff_main (patchDocumentNode diff_main fuel)
                                   subOld subNew = Ret res ->
             Forall (fun n => well_formed n = true) res).
  { intros subOld subNew res Ho Hn Hres.
    apply (patchRemainNodes_with_well_formed diff_main (patchDocumentNode diff_main fuel)
                                             subOld subNew); [| | |exact Hres].
    - intros o n p Wo' Wn' HT' Hp. apply (IH o n p); assumption.
    - intros u n Hu. apply Uo. apply Ho. exact Hu.
    - intros u n Hu. apply Un. apply Hn. exact Hu. }
  assert (HdO : forall u, In u diffOld -> In u oldChildren) by (intros u; apply In_slice).
  assert (HdN : forall u, In u diffNew -> In u newChildren) by (intros u; apply In_slice).
  assert (Hfinal : forall final : list Node * list Node,
             Forall (fun n => well_formed n = true) (fst final ++ snd final) ->
             well_formed (mkNode (node_type oldNode) (node_attrs oldNode)
                                 (node_marks oldNode) (fst final ++ snd final) None)
             = true).
  { intros final HF. destruct oldNode as [t a m c x].
    cbn [isTextNode node_type] in HT.
    cbn [node_type node_attrs node_marks well_formed].
    rewrite HT. apply forallb_forall. rewrite Forall_forall in HF. exact HF. }
  apply bind_Ret_inv in H. destruct H as [final [HF H]].
  rewrite createNewNode_Ret in H by exact HT. injection H as <-.
  apply Hfinal.
  assert (Hpre : Forall (fun n => well_formed n = true) (flat (firstn (left - 0) (skipn 0 oldChildren)))).
  { apply Fsub. intros u Hu. cbn [skipn] in Hu.
    rewrite <- (firstn_skipn (left - 0) oldChildren). apply in_or_app. left. exact Hu. }
  assert (Hsuf : Forall (fun n => well_formed n = true)
                        (flat (firstn (right - 0)
                                      (skipn (List.length oldChildren - right) oldChildren)))).
  { apply Fsub. intros u Hu.
    apply (In_skipn_list (List.length oldChildren - right)).
    rewrite <- (firstn_skipn (right - 0) (skipn _ oldChildren)).
    apply in_or_app. left. exact Hu. }
  destruct (negb (List.length diffOld =? 0) && negb (List.length diffNew =? 0)).
  - destruct (bestMatch diffOld diffNew) as [[os ns oe ne c]|].
    + apply bind_Ret_inv in HF. destruct HF as [before [Hb HF]].
      apply bind_Ret_inv in HF. destruct HF as [after [Ha HF]].
      injection HF as <-. cbn [fst snd].
      repeat (apply Forall_app; split); try assumption.
      * apply (Hrem _ _ _ (fun u Hu => HdO u (In_slice _ _ _ u Hu))
                    (fun u Hu => HdN u (In_slice _ _ _ u Hu)) Hb).
      * apply Fsub. intros u Hu. apply HdO. apply (In_slice _ _ _ u Hu).
      * apply (Hrem _ _ _ (fun u Hu => HdO u (In_skipn_list _ _ u Hu))
                    (fun u Hu => HdN u (In_skipn_list _ _ u Hu)) Ha).
    + apply bind_Ret_inv in HF. destruct HF as [rest [Hr HF]].
      injection HF as <-. cbn [fst snd].
      repeat (apply Forall_app; split); try assumption.
      apply (Hrem _ _ _ HdO HdN Hr).
  - apply bind_Ret_inv in HF. destruct HF as [rest [Hr HF]].
    injection HF as <-. cbn [fst snd].
    repeat (apply Forall_app; split); try assumption.
    apply (Hrem _ _ _ HdO HdN Hr).
Qed.

(** X16: the merged tree is a tree of the data model: when the old and the
    new document are well formed (text leaves with a text and no children,
    other nodes with children and no text) and the old root is no text
    leaf, [diffEditor] returns a well-formed tree. *)
Theorem diffEditor_well_formed
        (diff_main : list N -> list N -> list (DiffTypeValue * list N))
        (oldDoc newDoc : Node) :
  well_formed oldDoc = true -> well_formed newDoc = true ->
  isTextNode (Single oldDoc) = false ->
  node_type oldDoc = node_type newDoc ->
  exists merged,
    diffEditor diff_main oldDoc newDoc = Ret merged /\ well_formed merged = true.
Proof.
  intros Wo Wn HT Hty. unfold diffEditor.
  destruct (patchDocumentNode_total diff_main (S (height oldDoc)) oldDoc newDoc)
    as [R HR]; [lia | exact HT | exact Hty |].
  exists R. split; [exact HR|].
  apply (patchDocumentNode_well_formed diff_main _ oldDoc newDoc R Wo Wn HT HR).
Qed.

Lemma diffEditor_well_formed_witness :
  exists merged,
    diffEditor prefix_diff
               (mkNode "doc" [] [] [paragraph [text_leaf "A. "; image]; paragraph []] None)
               (mkNode "doc" [] [] [paragraph [text_leaf "B. "]; image] None)
    = Ret merged
    /\ well_formed merged = true.
Proof.
  apply (diffEditor_well_formed
           prefix_diff
           (mkNode "doc" [] [] [paragraph [text_leaf "A. "; image]; paragraph []] None)
           (mkNode "doc" [] [] [paragraph [text_leaf "B. "]; image] None));
    reflexivity.
Defined.

(** ** How the merged children are put together *)

Lemma bestMatch_Some_nonempty (oldChildren newChildren : NormalizedNodeContent)
      (m : MatchResult) :
  bestMatch oldChildren newChildren = Some m ->
  oldChildren <> [] /\ newChildren <> [].
Proof.
  unfold bestMatch. intros H.
  destruct (sort_by_count_head_Some _ _ H) as [l1 [l2 [Hl _]]].
  assert (Hin : In m (matchNodes oldChildren newChildren))
    by (rewrite Hl; apply in_or_app; right; left; reflexivity).
  unfold matchNodes in Hin. apply matchNodes_from_In in Hin.
  destruct Hin as [i [_ [_ [Hi Hm]]]].
  destruct (match_at_Some oldChildren newChildren i m Hi Hm) as [_ [_ [Hj _]]].
  split; intros E; rewrite E in *; cbn in *; lia.
Qed.

(** X17: the children of the merged node are, in this order: the nodes of
    the old units that the prefix trim took, the middle, the nodes of the
    old units that the suffix trim took.  With a best match the middle is
    the patch of the slices before the match, the nodes of the matched old
    units as they are, and the patch of the slices after it; without one
    it is the patch of the two middle slices. *)
Theorem patchDocumentNode_composition
        (diff_main : list N -> list N -> list (DiffTypeValue * list N))
        (fuel : nat) (oldNode newNode merged : Node) :
  patchDocumentNode diff_main (S fuel) oldNode newNode = Ret merged ->
  let oldChildren := normalizeNodeContent oldNode in
  let newChildren := normalizeNodeContent newNode in
  let oldChildLen := List.length oldChildren in
  let newChildLen := List.length newChildren in
  let minChildLen := Nat.min oldChildLen newChildLen in
  let left := fst (prefix_trim oldChildren newChildren minChildLen 0 []) in
  let right := fst (suffix_trim oldChildren newChildren left minChildLen 0 []) in
  let diffOldChildren := slice left (oldChildLen - right) oldChildren in
  let diffNewChildren := slice left (newChildLen - right) newChildren in
  exists middle,
    getNodeChildren merged
    = flat (firstn left oldChildren) ++ middle
           ++ flat (skipn (oldChildLen - right) oldChildren)
    /\ match bestMatch diffOldChildren diffNewChildren with
       | Some m =>
           exists before after,
           patchRemainNodes diff_main fuel
                            (slice 0 (oldStartIndex m) diffOldChildren)
                            (slice 0 (newStartIndex m) diffNewChildren) = Ret before
           /\ patchRemainNodes diff_main fuel
                               (skipn (oldEndIndex m) diffOldChildren)
                               (skipn (newEndIndex m) diffNewChildren) = Ret after
           /\ middle
              = before
                  ++ flat (slice (oldStartIndex m) (oldEndIndex m) diffOldChildren)
                  ++ after
       | None =>
           patchRemainNodes diff_main fuel diffOldChildren diffNewChildren = Ret middle
       end.
Proof.
  intros H oldChildren newChildren oldChildLen newChildLen minChildLen left right
         diffOld diffNew.
  cbn [patchDocumentNode] in H. unfold patchDocumentNode_with in H.
  apply bind_Ret_inv in H. destruct H as [tt' [_ H]].
  fold oldChildren newChildren oldChildLen newChildLen minChildLen in H.
  fold left in H. fold right in H. fold diffOld diffNew in H.
  destruct (prefix_trim_spec oldChildren newChildren minChildLen 0 [])
    as [_ [HP _]]; [lia | fold minChildLen; lia |].
  destruct (suffix_trim_spec oldChildren newChildren left minChildLen 0 [])
    as [_ [Hor [HS _]]]; [fold minChildLen; lia |].
  fold oldChildLen newChildLen minChildLen in HP, HS, Hor.
  fold left in HP, HS, Hor. fold right in HS, Hor.
  cbn [app skipn] in HP. rewrite Nat.sub_0_r in HP.
  rewrite app_nil_r, Nat.sub_0_r in HS.
  rewrite firstn_all2 in HS
    by (rewrite length_skipn; fold oldChildLen; unfold minChildLen in *;
        destruct Hor; lia).
  rewrite HP, HS in H. clear HP HS.
  apply bind_Ret_inv in H. destruct H as [final [HF H]].
  apply createNewNode_Ret_inv in H. destruct H as [_ ->].
  unfold getNodeChildren. cbn [node_content].
  unfold patchRemainNodes.
  destruct (negb (List.length diffOld =? 0) && negb (List.length diffNew =? 0)) eqn:C.
  - destruct (bestMatch diffOld diffNew) as [[os ns oe ne c]|].
    + apply bind_Ret_inv in HF. destruct HF as [before [Hb HF]].
      apply bind_Ret_inv in HF. destruct HF as [after [Ha HF]].
      injection HF as <-. cbn [fst snd oldStartIndex newStartIndex oldEndIndex newEndIndex].
      exists (before ++ flat (slice os oe diffOld) ++ after).
      split; [rewrite <- !app_assoc; reflexivity|].
      exists before, after. repeat split; assumption.
    + apply bind_Ret_inv in HF. destruct HF as [rest [Hr HF]].
      injection HF as <-. cbn [fst snd]. exists rest.
      split; [rewrite <- !app_assoc; reflexivity | exact Hr].
  - apply bind_Ret_inv in HF. destruct HF as [rest [Hr HF]].
    injection HF as <-. cbn [fst snd].
    destruct (bestMatch diffOld diffNew) as [m|] eqn:B.
    + exfalso. destruct (bestMatch_Some_nonempty _ _ _ B) as [H1 H2].
      destruct diffOld; [contradiction|]. destruct diffNew; [contradiction|].
      discriminate C.
    + exists rest. split; [rewrite <- !app_assoc; reflexivity | exact Hr].
Qed.

Lemma patchDocumentNode_composition_witness :
  let oldNode := mkNode "doc" [] []
                        [paragraph [text_leaf "A"]; image; paragraph [text_leaf "B"];
                         hard_break; paragraph [text_leaf "C"]] None in
  let newNode := mkNode "doc" [] []
                        [paragraph [text_leaf "A"]; paragraph [text_leaf "B"];
                         paragraph [text_leaf "C"]] None in
  exists middle,
    getNodeChildren
      (mkNode "doc" [] []
              [paragraph [text_leaf "A"]; image; paragraph [text_leaf "B"];
               hard_break; paragraph [text_leaf "C"]] None)
    = [paragraph [text_leaf "A"]] ++ middle ++ [paragraph [text_leaf "C"]]
    /\ exists before after,
        patchRemainNodes prefix_diff 2 [Single image] [] = Ret before
        /\ patchRemainNodes prefix_diff 2 [Single hard_break] [] = Ret after
        /\ middle = before ++ [paragraph [text_leaf "B"]] ++ after.
Proof.
  intros oldNode newNode.
  apply (patchDocumentNode_composition prefix_diff 2 oldNode newNode). reflexivity.
Defined.

(** ** When the patcher finds an anchor *)

(** X18: [patchDocumentNode] finds a best match in two children lists
    exactly when some old unit is structurally equal to some new unit; a
    best match lies within both lists and covers at least one unit. *)
Theorem bestMatch_exists_iff (oldChildren newChildren : NormalizedNodeContent) :
  ((exists m, bestMatch oldChildren newChildren = Some m)
   <-> exists i j, i < List.length oldChildren /\ j < List.length newChildren
                   /\ isNodeEqual (unit_at newChildren j) (unit_at oldChildren i) = true)
  /\ (forall m, bestMatch oldChildren newChildren = Some m ->
                oldStartIndex m < oldEndIndex m <= List.length oldChildren
                /\ newStartIndex m < newEndIndex m <= List.length newChildren
                /\ oldEndIndex m - oldStartIndex m = count m
                /\ newEndIndex m - newStartIndex m = count m).
Proof.
  assert (HIn : forall m, bestMatch oldChildren newChildren = Some m ->
                          exists i, i < List.length oldChildren
                                    /\ match_at oldChildren newChildren i = Some m).
  { intros m H. unfold bestMatch in H.
    destruct (sort_by_count_head_Some _ _ H) as [l1 [l2 [Hl _]]].
    assert (Hin : In m (matchNodes oldChildren newChildren))
      by (rewrite Hl; apply in_or_app; right; left; reflexivity).
    unfold matchNodes in Hin. apply matchNodes_from_In in Hin.
    destruct Hin as [i [_ [_ [Hi Hm]]]]. exists i. split; assumption. }
  split; [split|].
  - intros [m H]. destruct (HIn m H) as [i [Hi Hm]].
    destruct (match_at_Some _ _ i m Hi Hm) as [_ [_ [Hj [_ [Hc [_ [_ [Hrun _]]]]]]]].
    exists i, (newStartIndex m). split; [exact Hi|]. split; [exact Hj|].
    destruct (Hrun 0) as [_ [_ E]]; [lia|]. rewrite !Nat.add_0_r in E. exact E.
  - intros [i [j [Hi [Hj E]]]].
    destruct (bestMatch oldChildren newChildren) as [m|] eqn:B; [exists m; reflexivity|].
    exfalso. unfold bestMatch in B. apply sort_by_count_head_None in B.
    destruct (match_at oldChildren newChildren i) as [m|] eqn:M.
    + assert (Hin : In m (matchNodes oldChildren newChildren)).
      { unfold matchNodes. apply matchNodes_from_In. exists i.
        repeat split; try lia. exact M. }
      rewrite B in Hin. contradiction.
    + rewrite (match_at_None _ _ i M j Hj) in E. discriminate.
  - intros m H. destruct (HIn m H) as [i [Hi Hm]].
    destruct (match_at_Some _ _ i m Hi Hm)
      as [Hs [_ [Hj [_ [Hc [Hoe [Hne [Hrun _]]]]]]]].
    destruct (Hrun (count m - 1)) as [H1 [H2 _]]; [lia|]. lia.
Qed.

(** ** How far the loop of [patchRemainNodes] goes *)

Lemma remain_loop_consumes diff_main rec (oldChildren newChildren : NormalizedNodeContent)
      (budget : nat) :
  forall s s',
    st_left s + st_right s <= Nat.min (List.length oldChildren) (List.length newChildren) ->
    remain_loop diff_main rec oldChildren newChildren budget s = Ret s' ->
    st_left s' + st_right s' = Nat.min (List.length oldChildren) (List.length newChildren).
Proof.
  induction budget as [|b IH]; intros s s' Hle; cbn [remain_loop];
    destruct (remain_guard oldChildren newChildren s) eqn:G; intros H;
    try discriminate.
  - injection H as <-. unfold remain_guard in G. apply andb_false_iff in G.
    destruct G as [G | G]; apply Nat.ltb_ge in G; lia.
  - apply bind_Ret_inv in H. destruct H as [s1 [H1 H]].
    pose proof (remain_step_advances _ _ _ _ _ _ H1) as Hadv.
    unfold remain_guard in G. apply andb_true_iff in G. destruct G as [G1 G2].
    apply Nat.ltb_lt in G1. apply Nat.ltb_lt in G2.
    apply (IH s1 s'); [lia | exact H].
  - injection H as <-. unfold remain_guard in G. apply andb_false_iff in G.
    destruct G as [G | G]; apply Nat.ltb_ge in G; lia.
Qed.

(** X19: the loop of [patchRemainNodes] consumes exactly as many unit
    pairs as the shorter list has units, some from the left and the rest
    from the right; so what remains after the loop lies on the longer side
    only, and only one of the two final annotations (Deleted old units,
    Inserted new units) has anything to emit. *)
Theorem remain_loop_consumes_shorter_list
        (diff_main : list N -> list N -> list (DiffTypeValue * list N))
        (rec : Node -> Node -> outcome Node)
        (oldChildren newChildren : NormalizedNodeContent) (s : RemainState) :
  remain_loop diff_main rec oldChildren newChildren (List.length oldChildren)
              (mkRemain 0 0 [] []) = Ret s ->
  let oldChildLen := List.length oldChildren in
  let newChildLen := List.length newChildren in
  st_left s + st_right s = Nat.min oldChildLen newChildLen
  /\ oldChildLen - st_left s - st_right s = oldChildLen - newChildLen
  /\ newChildLen - st_left s - st_right s = newChildLen - oldChildLen
  /\ (oldChildLen - st_left s - st_right s = 0
      \/ newChildLen - st_left s - st_right s = 0).
Proof.
  intros H oldChildLen newChildLen.
  assert (E : st_left s + st_right s = Nat.min oldChildLen newChildLen).
  { apply (remain_loop_consumes diff_main rec oldChildren newChildren
                                (List.length oldChildren) (mkRemain 0 0 [] []) s);
      [cbn; lia | exact H]. }
  lia.
Qed.

Lemma remain_loop_consumes_shorter_list_witness :
  let oldChildren := [Single image; Single hard_break; Single image] in
  let newChildren := [Single hard_break] in
  let s := mkRemain 1 0 [image; hard_break] [] in
  st_left s + st_right s = 1
  /\ 3 - st_left s - st_right s = 2
  /\ 1 - st_left s - st_right s = 0
  /\ (3 - st_left s - st_right s = 0 \/ 1 - st_left s - st_right s = 0).
Proof.
  intros oldChildren newChildren s.
  apply (remain_loop_consumes_shorter_list
           prefix_diff (patchDocumentNode prefix_diff 1) oldChildren newChildren s).
  reflexivity.
Defined.
